(** * The Failover land of the Memory Pool System

    A shallow embedding of [failover.c] and the verification of its
    specified behaviour.

    A Failover is a Land (a collection of free address ranges) built from two
    child Lands: a _primary_, efficient but liable to run out of memory for
    its own bookkeeping, and a _secondary_, which never needs to allocate.
    The source of the Failover is embedded below function by function.  The
    child Lands, reached in the source through the generic Land interface
    ([LandInsert], [LandDelete], ...), are not part of [failover.c]: they are
    a type class here, and every general theorem holds for all instances. *)

From Stdlib Require Import ZArith List Bool Lia.
Import ListNotations.
Local Open Scope Z_scope.

(** ** Result codes *)

(** Modelled from the spec: the type [Res] is declared in a header that is
    not part of the sources.  [failover.c] names [ResOK], [ResFAIL],
    [ResLIMIT] and [ResPARAM]; the spec adds the kind of the allocation
    failures, here the three codes of [ResIsAllocFailure], and "other kinds
    ... propagated verbatim from children". *)
Inductive Res : Set :=
| ResOK | ResFAIL | ResRESOURCE | ResMEMORY | ResLIMIT
| ResUNIMPL | ResIO | ResCOMMIT_LIMIT | ResPARAM.

Definition Res_eq_dec (a b : Res) : {a = b} + {a <> b}.
Proof. decide equality. Defined.

Definition Res_eqb (a b : Res) : bool := if Res_eq_dec a b then true else false.

Declare Scope res_scope.
Delimit Scope res_scope with res.
Notation "a == b" := (Res_eqb a b) (at level 70, no associativity) : res_scope.
Notation "a != b" := (negb (Res_eqb a b)) (at level 70, no associativity) : res_scope.
Local Open Scope res_scope.

(** Modelled from the spec: the macro [ResIsAllocFailure] is declared in a
    header that is not part of the sources.  The spec's error taxonomy has one
    kind, ALLOC_FAILURE, "child could not allocate metadata to represent the
    mutation"; it is carried by the three codes that report exhaustion of
    memory. *)
Definition ResIsAllocFailure (res : Res) : bool :=
  match res with
  | ResMEMORY | ResRESOURCE | ResCOMMIT_LIMIT => true
  | _ => false
  end.

(** ** Ranges *)

Definition Addr := Z.
Definition Size := Z.
Definition ZoneSet := Z.

(** Modelled from the spec: [range.h] is not part of the sources.  A range is
    a half-open interval [[base, limit)] of addresses with [base <= limit],
    empty iff [base = limit]. *)
Record Range : Set := mkRange { RangeBase : Addr; RangeLimit : Addr }.

(** Modelled from the spec: the functions on ranges of [range.h]. *)
Definition RangeCheck (range : Range) : bool :=
  RangeBase range <=? RangeLimit range.

(** Modelled from the spec: "empty iff [base == limit]". *)
Definition RangeIsEmpty (range : Range) : bool :=
  RangeBase range =? RangeLimit range.

(** Modelled from the spec: the bytes covered by a range. *)
Definition RangeSize (range : Range) : Size :=
  RangeLimit range - RangeBase range.

(** Modelled from the spec: the same base and the same limit. *)
Definition RangesEqual (r1 r2 : Range) : bool :=
  (RangeBase r1 =? RangeBase r2) && (RangeLimit r1 =? RangeLimit r2).

(** Modelled from the spec: [RangesNest outer inner] holds when [inner] lies
    within [outer] ("[range] is a subset of [old_range]"). *)
Definition RangesNest (outer inner : Range) : bool :=
  (RangeBase outer <=? RangeBase inner) && (RangeLimit inner <=? RangeLimit outer).

(** Modelled from the spec: two ranges overlap when they share an address
    (for non-empty ranges). *)
Definition RangesOverlap (r1 r2 : Range) : bool :=
  (RangeBase r1 <? RangeLimit r2) && (RangeBase r2 <? RangeLimit r1).

(** The addresses of a range. *)
Definition InRange (a : Addr) (range : Range) : Prop :=
  RangeBase range <= a < RangeLimit range.

(** ** The Land interface *)

(** Modelled from the spec: "the [find_delete] parameter (variants: NONE,
    LOW, HIGH, ENTIRE)"; the type is declared in a header that is not part of
    the sources. *)
Inductive FindDelete : Set :=
| FindDeleteNONE | FindDeleteLOW | FindDeleteHIGH | FindDeleteENTIRE.

(** A visitor of [LandIterate]: called with a range and the closure, it
    answers whether to continue.  The closure is the visitor's own state. *)
Definition LandVisitor (C : Type) : Type := Range -> C -> bool * C.

(** The methods of a Land over its state [T]: the child Lands are not part of
    the sources and the Failover is verified for every instance of this
    class.  An out-parameter of the C method ([rangeReturn],
    [oldRangeReturn], [foundReturn]) is the value the method leaves in it;
    the state of the land after the call comes last. *)
Class Land (T : Type) : Type := {
  landSize : T -> Size;
  landInsert : Range -> T -> Res * Range * T;
  landInsertSteal : Range -> T -> Res * Range * Range * T;
  landDelete : Range -> T -> Res * Range * T;
  landDeleteSteal : Range -> T -> Res * Range * T;
  landIterate : forall C : Type, LandVisitor C -> C -> T -> bool * C * T;
  landFindFirst : Size -> FindDelete -> T -> bool * Range * Range * T;
  landFindLast : Size -> FindDelete -> T -> bool * Range * Range * T;
  landFindLargest : Size -> FindDelete -> T -> bool * Range * Range * T;
  landFindInZones :
    Size -> ZoneSet -> bool -> T -> Res * bool * Range * Range * T
}.
Arguments landIterate {T Land} {C} visitor closure t.

(** [LandFlush(dest, src)] moves ranges from [src] to [dest]; the Failover
    calls it with the primary as [dest] and the secondary as [src]. *)
Class Flush (P S : Type) : Type :=
  landFlush : P -> S -> bool * P * S.

(** The build: [AVER] is checked; [AVER_CRITICAL], [AVERT_CRITICAL] and
    [MustBeA_CRITICAL] are checked only when [criticalChecks] holds (they are
    compiled out of the builds meant for production).  [wordWidth] is the
    number of bits of a [Size]. *)
Class Build : Set := {
  criticalChecks : bool;
  wordWidth : Z
}.

(** ** Calls and assertions *)

Inductive Child : Set := Primary | Secondary.

(** The calls a Failover makes to its children, in the order made. *)
Inductive Event : Set :=
| EvFlush
| EvInsert (c : Child) (range : Range)
| EvInsertSteal (c : Child) (rangeIO : Range)
| EvDelete (c : Child) (range : Range)
| EvDeleteSteal (c : Child) (range : Range)
| EvIterate (c : Child)
| EvFindFirst (c : Child) (size : Size) (findDelete : FindDelete)
| EvFindLast (c : Child) (size : Size) (findDelete : FindDelete)
| EvFindLargest (c : Child) (size : Size) (findDelete : FindDelete)
| EvFindInZones (c : Child) (size : Size) (zoneSet : ZoneSet) (high : bool).

(** The assertions of [failover.c], by function. *)
Inductive Site : Set :=
| InsertRangeCheck
| InsertStealRangeCheck | InsertStealResult
| DeleteRangeCheck | DeleteAllocFailure | DeleteRangesEqual
| DeleteLeftInit | DeleteLeftNotFAIL | DeleteLeftSecondaryOK
| DeleteRightInit | DeleteRightNotFAIL | DeleteRightSecondaryOK
| DeleteRangesNest
| DeleteStealRangeCheck | DeleteStealResult
| FindInZonesUntested.

Section Failover.

Context {P S : Type} {LP : Land P} {LS : Land S} {FL : Flush P S}.
Context {build : Build}.

(** The Failover's two children and the calls made so far. *)
Record World : Type := mkWorld {
  primary : P;
  secondary : S;
  calls : list Event
}.

(** A function of [failover.c] either returns, or stops at an assertion
    that failed. *)
Inductive Outcome (A : Type) : Type :=
| Done (a : A) (w : World)
| Abort (site : Site).
Arguments Done {A} a w.
Arguments Abort {A} site.

Definition M (A : Type) : Type := World -> Outcome A.

Definition ret {A} (a : A) : M A := fun w => Done a w.

Definition bind {A B} (m : M A) (k : A -> M B) : M B :=
  fun w => match m w with
           | Done a w' => k a w'
           | Abort site => Abort site
           end.

Definition AVER (site : Site) (cond : bool) : M unit :=
  fun w => if cond then Done tt w else Abort site.

Definition AVER_CRITICAL (site : Site) (cond : bool) : M unit :=
  if criticalChecks then AVER site cond else ret tt.

Notation "x <- m ;; k" := (bind m (fun x => k))
  (at level 61, m at next level, right associativity).
Notation "' pat <- m ;; k" := (bind m (fun x => match x with pat => k end))
  (at level 61, pat pattern, m at next level, right associativity).
Notation "m ;; k" := (bind m (fun _ => k))
  (at level 61, right associativity).

(** *** The generic Land functions, applied to a child *)

Definition onChild {A} (c : Child) (ev : Event)
    (onP : P -> A * P) (onS : S -> A * S) : M A :=
  fun w =>
    match c with
    | Primary =>
        let (a, p') := onP (primary w) in
        Done a (mkWorld p' (secondary w) (calls w ++ [ev]))
    | Secondary =>
        let (a, s') := onS (secondary w) in
        Done a (mkWorld (primary w) s' (calls w ++ [ev]))
    end.

(** [LandFlush(fo->primary, fo->secondary)]. *)
Definition LandFlush : M bool :=
  fun w =>
    let '(b, p', s') := landFlush (primary w) (secondary w) in
    Done b (mkWorld p' s' (calls w ++ [EvFlush])).

Definition LandSize (c : Child) (w : World) : Size :=
  match c with
  | Primary => landSize (primary w)
  | Secondary => landSize (secondary w)
  end.

Definition LandInsert (c : Child) (range : Range) : M (Res * Range) :=
  onChild c (EvInsert c range) (landInsert range) (landInsert range).

Definition LandInsertSteal (c : Child) (rangeIO : Range)
  : M (Res * Range * Range) :=
  onChild c (EvInsertSteal c rangeIO)
    (landInsertSteal rangeIO) (landInsertSteal rangeIO).

Definition LandDelete (c : Child) (range : Range) : M (Res * Range) :=
  onChild c (EvDelete c range) (landDelete range) (landDelete range).

Definition LandDeleteSteal (c : Child) (range : Range) : M (Res * Range) :=
  onChild c (EvDeleteSteal c range)
    (landDeleteSteal range) (landDeleteSteal range).

Definition LandIterate {C} (c : Child) (visitor : LandVisitor C)
    (closure : C) : M (bool * C) :=
  onChild c (EvIterate c)
    (landIterate visitor closure) (landIterate visitor closure).

Definition LandFindFirst (c : Child) (size : Size) (findDelete : FindDelete)
  : M (bool * Range * Range) :=
  onChild c (EvFindFirst c size findDelete)
    (landFindFirst size findDelete) (landFindFirst size findDelete).

Definition LandFindLast (c : Child) (size : Size) (findDelete : FindDelete)
  : M (bool * Range * Range) :=
  onChild c (EvFindLast c size findDelete)
    (landFindLast size findDelete) (landFindLast size findDelete).

Definition LandFindLargest (c : Child) (size : Size)
    (findDelete : FindDelete) : M (bool * Range * Range) :=
  onChild c (EvFindLargest c size findDelete)
    (landFindLargest size findDelete) (landFindLargest size findDelete).

Definition LandFindInZones (c : Child) (size : Size) (zoneSet : ZoneSet)
    (high : bool) : M (Res * bool * Range * Range) :=
  onChild c (EvFindInZones c size zoneSet high)
    (landFindInZones size zoneSet high) (landFindInZones size zoneSet high).

(** Modelled from the spec: [RangeInit] belongs to [range.c], which is not
    part of the sources.  It builds [[base, limit)]; a range has
    [base <= limit], which is checked at [site]. *)
Definition RangeInit (site : Site) (base limit : Addr) : M Range :=
  AVER site (base <=? limit) ;;
  ret (mkRange base limit).

(** *** failover.c *)

(** The functions of [failover.c], in the order of the source and with its
    names.  The checks of the source on pointers ([AVER(rangeReturn != NULL)],
    [AVER(rangeReturn != rangeIO)], [AVER(visitor != NULL)]), on the class of
    the land ([MustBeA]) and on enumerations ([AVERT(FindDelete, ...)],
    [AVERT(Bool, ...)]) hold by the types of this embedding; the checks on
    values are made with [AVER] and [AVER_CRITICAL]. *)

(** The word arithmetic of C on [Size]. *)
Definition wrap (n : Z) : Size := n mod 2 ^ wordWidth.

Definition failoverSize (w : World) : Size :=
  wrap (LandSize Primary w + LandSize Secondary w).

Definition failoverInsert (range : Range) : M (Res * Range) :=
  AVER_CRITICAL InsertRangeCheck (RangeCheck range) ;;
  (* Provide more opportunities for coalescence. *)
  LandFlush ;;
  '(res, rangeReturn) <- LandInsert Primary range ;;
  if (res != ResOK) && (res != ResFAIL)
  then LandInsert Secondary range
  else ret (res, rangeReturn).

Definition failoverInsertSteal (rangeIO : Range)
  : M (Res * Range * Range) :=
  AVER InsertStealRangeCheck (RangeCheck rangeIO) ;;
  LandFlush ;;
  '(res, rangeReturn, rangeIO') <- LandInsertSteal Primary rangeIO ;;
  AVER InsertStealResult ((res == ResOK) || (res == ResFAIL)) ;;
  ret (res, rangeReturn, rangeIO').

(** The end of [failoverDelete]: [*rangeReturn] is written only when the
    result is [ResOK].  In the result of [failoverDelete], [None] stands for
    a [*rangeReturn] that no one was given to write, and [Some r] for one
    that holds [r], written here or left by the child that was handed it. *)
Definition failoverDeleteReturn (res : Res) (oldRange range : Range)
  : M (Res * option Range) :=
  if res == ResOK then
    AVER_CRITICAL DeleteRangesNest (RangesNest oldRange range) ;;
    ret (res, Some oldRange)
  else ret (res, None).

Definition failoverDelete (range : Range) : M (Res * option Range) :=
  AVER DeleteRangeCheck (RangeCheck range) ;;
  (* Prefer efficient search in the primary. *)
  LandFlush ;;
  '(res, oldRange) <- LandDelete Primary range ;;
  if res == ResFAIL then
    (* Range not found in primary: try secondary. *)
    '(res, rangeReturn) <- LandDelete Secondary range ;;
    ret (res, Some rangeReturn)
  else if res != ResOK then
    (* Range was found in primary, but couldn't be deleted. *)
    AVER DeleteAllocFailure (ResIsAllocFailure res) ;;
    (* Delete the whole of oldRange, and re-insert the fragments
       (which might end up in the secondary). *)
    '(res, dummyRange) <- LandDelete Primary oldRange ;;
    if res != ResOK then ret (res, None)
    else
      AVER DeleteRangesEqual (RangesEqual oldRange dummyRange) ;;
      left <- RangeInit DeleteLeftInit (RangeBase oldRange) (RangeBase range) ;;
      res <- (if negb (RangeIsEmpty left) then
                '(res, _) <- LandInsert Primary left ;;
                if res != ResOK then
                  (* The range was successful deleted from the primary
                     above. *)
                  AVER DeleteLeftNotFAIL (res != ResFAIL) ;;
                  '(res, _) <- LandInsert Secondary left ;;
                  AVER DeleteLeftSecondaryOK (res == ResOK) ;;
                  ret res
                else ret res
              else ret res) ;;
      right <- RangeInit DeleteRightInit (RangeLimit range) (RangeLimit oldRange) ;;
      res <- (if negb (RangeIsEmpty right) then
                '(res, _) <- LandInsert Primary right ;;
                if res != ResOK then
                  AVER DeleteRightNotFAIL (res != ResFAIL) ;;
                  '(res, _) <- LandInsert Secondary right ;;
                  AVER DeleteRightSecondaryOK (res == ResOK) ;;
                  ret res
                else ret res
              else ret res) ;;
      failoverDeleteReturn res oldRange range
  else failoverDeleteReturn res oldRange range.

Definition failoverDeleteSteal (range : Range) : M (Res * Range) :=
  AVER DeleteStealRangeCheck (RangeCheck range) ;;
  LandFlush ;;
  '(res, rangeReturn) <- LandDeleteSteal Primary range ;;
  '(res, rangeReturn) <-
    (if res == ResFAIL
     then (* Not found in primary: try secondary. *)
          LandDeleteSteal Secondary range
     else ret (res, rangeReturn)) ;;
  AVER DeleteStealResult ((res == ResOK) || (res == ResFAIL)) ;;
  ret (res, rangeReturn).

(** [a && b] of C evaluates [b] only when [a] is true. *)
Definition failoverIterate {C} (visitor : LandVisitor C) (closure : C)
  : M (bool * C) :=
  '(b1, closure) <- LandIterate Primary visitor closure ;;
  if b1 then
    '(b2, closure) <- LandIterate Secondary visitor closure ;;
    ret (b1 && b2, closure)
  else ret (false, closure).

(** [a || b] of C evaluates [b] only when [a] is false. *)
Definition failoverFindFirst (size : Size) (findDelete : FindDelete)
  : M (bool * Range * Range) :=
  LandFlush ;;
  '(found, rangeReturn, oldRangeReturn) <-
    LandFindFirst Primary size findDelete ;;
  if found then ret (true, rangeReturn, oldRangeReturn)
  else LandFindFirst Secondary size findDelete.

Definition failoverFindLast (size : Size) (findDelete : FindDelete)
  : M (bool * Range * Range) :=
  LandFlush ;;
  '(found, rangeReturn, oldRangeReturn) <-
    LandFindLast Primary size findDelete ;;
  if found then ret (true, rangeReturn, oldRangeReturn)
  else LandFindLast Secondary size findDelete.

Definition failoverFindLargest (size : Size) (findDelete : FindDelete)
  : M (bool * Range * Range) :=
  LandFlush ;;
  '(found, rangeReturn, oldRangeReturn) <-
    LandFindLargest Primary size findDelete ;;
  if found then ret (true, rangeReturn, oldRangeReturn)
  else LandFindLargest Secondary size findDelete.

Definition failoverFindInZones (size : Size) (zoneSet : ZoneSet)
    (high : bool) : M (Res * bool * Range * Range) :=
  (* TODO: this code is completely untested! *)
  AVER_CRITICAL FindInZonesUntested false ;;
  LandFlush ;;
  '(res, found, rangeReturn, oldRangeReturn) <-
    LandFindInZones Primary size zoneSet high ;;
  if (res != ResOK) || negb found
  then LandFindInZones Secondary size zoneSet high
  else ret (res, found, rangeReturn, oldRangeReturn).

End Failover.

Arguments World : clear implicits.
Arguments mkWorld {P S} primary secondary calls.
Arguments primary {P S} w.
Arguments secondary {P S} w.
Arguments calls {P S} w.
Arguments Outcome : clear implicits.
Arguments M : clear implicits.
Arguments Done {P S A} a w.
Arguments Abort {P S A} site.

Notation "x <- m ;; k" := (bind m (fun x => k))
  (at level 61, m at next level, right associativity).
Notation "' pat <- m ;; k" := (bind m (fun x => match x with pat => k end))
  (at level 61, pat pattern, m at next level, right associativity).
Notation "m ;; k" := (bind m (fun _ => k))
  (at level 61, right associativity).

(** ** The contract of a Land *)

(** Modelled from the spec: a Land is "a set of disjoint non-empty ranges, not
    necessarily coalesced"; the child Lands themselves are not part of the
    sources.  The definitions of this section state that contract over the
    list of the ranges of a land. *)
Definition RangeNonEmpty (range : Range) : Prop :=
  RangeBase range < RangeLimit range.

(** Modelled from the spec: "for any two distinct ranges [A], [B] in a Land,
    [A] and [B] are disjoint", and none is empty. *)
Fixpoint wfBlocks (l : list Range) : Prop :=
  match l with
  | [] => True
  | b :: l' =>
      RangeNonEmpty b
      /\ Forall (fun b' => RangesOverlap b b' = false) l'
      /\ wfBlocks l'
  end.

(** Modelled from the spec: the address [a] is free in one of the ranges of
    [l]. *)
Definition freeIn (l : list Range) (a : Addr) : Prop :=
  exists b, In b l /\ InRange a b.

(** Modelled from the spec: "[size()]: total bytes covered". *)
Fixpoint totalSize (l : list Range) : Size :=
  match l with
  | [] => 0
  | b :: l' => RangeSize b + totalSize l'
  end.

(** Modelled from the spec: iteration "visits every range; stops if visitor
    returns false". *)
Fixpoint visit {C} (visitor : LandVisitor C) (l : list Range) (closure : C)
  : bool * C :=
  match l with
  | [] => (true, closure)
  | b :: l' =>
      let (cont, closure') := visitor b closure in
      if cont then visit visitor l' closure' else (false, closure')
  end.

(** Modelled from the spec: what the Failover may expect of a child Land.
    [landRanges] lists the ranges of a land in the order of its iteration and
    [landInv] is the land's own invariant.  A successful insert adds exactly
    the addresses of the range, a successful delete removes exactly those, an
    unsuccessful call changes nothing; insert answers [ResFAIL] only for a
    range that overlaps the land; delete answers [ResFAIL] when the range is
    not in the land, and in every other case reports the range of the land
    that contains it. *)
Class LandLaws (T : Type) {L : Land T} : Type := {
  landRanges : T -> list Range;
  landInv : T -> Prop;
  inv_wf : forall t, landInv t -> wfBlocks (landRanges t);
  size_total : forall t, landInv t -> landSize t = totalSize (landRanges t);
  insert_inv : forall r t res rr t',
    landInv t -> RangeNonEmpty r -> landInsert r t = (res, rr, t') ->
    landInv t';
  insert_ok : forall r t rr t',
    landInv t -> RangeNonEmpty r -> landInsert r t = (ResOK, rr, t') ->
    forall a, freeIn (landRanges t') a <-> freeIn (landRanges t) a \/ InRange a r;
  insert_failed : forall r t res rr t',
    landInv t -> RangeNonEmpty r -> landInsert r t = (res, rr, t') ->
    res <> ResOK -> landRanges t' = landRanges t;
  insert_FAIL : forall r t rr t',
    landInv t -> RangeNonEmpty r -> landInsert r t = (ResFAIL, rr, t') ->
    exists a, InRange a r /\ freeIn (landRanges t) a;
  delete_inv : forall r t res old t',
    landInv t -> RangeCheck r = true -> landDelete r t = (res, old, t') ->
    landInv t';
  delete_ok : forall r t old t',
    landInv t -> RangeCheck r = true -> landDelete r t = (ResOK, old, t') ->
    forall a, freeIn (landRanges t') a <-> freeIn (landRanges t) a /\ ~ InRange a r;
  delete_failed : forall r t res old t',
    landInv t -> RangeCheck r = true -> landDelete r t = (res, old, t') ->
    res <> ResOK -> landRanges t' = landRanges t;
  delete_found : forall r t res old t',
    landInv t -> RangeCheck r = true -> landDelete r t = (res, old, t') ->
    res <> ResFAIL -> In old (landRanges t) /\ RangesNest old r = true;
  iterate_inv : forall C (v : LandVisitor C) c t,
    landInv t -> landInv (snd (landIterate v c t));
  iterate_ranges : forall C (v : LandVisitor C) c t,
    landInv t -> landRanges (snd (landIterate v c t)) = landRanges t;
  iterate_visit : forall C (v : LandVisitor C) c t,
    landInv t -> fst (landIterate v c t) = visit v (landRanges t) c
}.

(** The addresses free in a land. *)
Definition landFree {T} `{LandLaws T} (t : T) (a : Addr) : Prop :=
  freeIn (landRanges t) a.

(** Modelled from the spec: "by contract the secondary must be constructed so
    it never requires fresh allocation": its insert answers [ResOK] or
    [ResFAIL]. *)
Definition NeverExhausted (T : Type) `{Land T} : Prop :=
  forall r t, fst (fst (landInsert r t)) = ResOK
           \/ fst (fst (landInsert r t)) = ResFAIL.

(** Modelled from the spec: "Delete the entire old_range from the primary
    (this releases metadata and must succeed; if it does not, ... this is an
    invariant violation of the child)": the delete of a whole range that the
    land holds answers [ResOK]. *)
Definition ReleasesWhole (T : Type) `{LandLaws T} : Prop :=
  forall b t,
    landInv t -> In b (landRanges t) -> fst (fst (landDelete b t)) = ResOK.

(** Modelled from the spec: "a failure of the secondary insert is a fatal
    invariant violation ..., because the secondary was designed never to need
    metadata allocation for a range that was already free": its insert of a
    non-empty range none of whose addresses is free in it answers [ResOK]. *)
Definition AdmitsFreed (T : Type) `{LandLaws T} : Prop :=
  forall r t,
    landInv t -> RangeNonEmpty r ->
    (forall a, InRange a r -> ~ landFree t a) ->
    fst (fst (landInsert r t)) = ResOK.

(** Modelled from the spec: flush is a "best-effort migration" of the
    secondary's ranges into the primary: both keep their invariants, every
    address stays free in one of them, and none becomes free in both. *)
Class FlushLaws (P S : Type) `{LandLaws P} `{LandLaws S} {FL : Flush P S}
  : Prop := {
  flush_inv : forall p s b p' s',
    landInv p -> landInv s -> landFlush p s = (b, p', s') ->
    landInv p' /\ landInv s';
  flush_union : forall p s b p' s',
    landInv p -> landInv s -> landFlush p s = (b, p', s') ->
    forall a, landFree p' a \/ landFree s' a <-> landFree p a \/ landFree s a;
  flush_disjoint : forall p s b p' s',
    landInv p -> landInv s -> landFlush p s = (b, p', s') ->
    (forall a, ~ (landFree p a /\ landFree s a)) ->
    forall a, ~ (landFree p' a /\ landFree s' a)
}.

(** ** A reference Land: an address-ordered list of ranges *)

(** Modelled from the spec: the concrete Lands (a coalescing block set, an
    inline free list) are not part of the sources.  [ListLand.t] keeps the
    disjoint non-empty ranges of the spec in a list, in address order and
    without coalescing them.  A _bounded_ land needs one node of metadata for
    each range and holds [spare] nodes more: it answers [ResMEMORY] when a
    call needs a node and none is spare ("the primary ... may exhaust its
    metadata").  A land that is not bounded never needs one ("the secondary
    ... cannot exhaust"). *)
Module ListLand.

Record t (bounded : bool) : Set := mk {
  blocks : list Range;
  spare : nat
}.
Arguments mk {bounded} blocks spare.
Arguments blocks {bounded} _.
Arguments spare {bounded} _.

Definition noRange : Range := mkRange 0 0.

Definition exhausted {bd} (l : t bd) : bool :=
  bd && (spare l =? 0)%nat.

Fixpoint place (r : Range) (l : list Range) : list Range :=
  match l with
  | [] => [r]
  | b :: l' =>
      if RangeBase r <? RangeBase b then r :: l else b :: place r l'
  end.

Definition size {bd} (l : t bd) : Size := totalSize (blocks l).

Definition insert {bd} (r : Range) (l : t bd) : Res * Range * t bd :=
  if existsb (RangesOverlap r) (blocks l) then (ResFAIL, r, l)
  else if exhausted l then (ResMEMORY, r, l)
  else (ResOK, r, mk (place r (blocks l)) (pred (spare l))).

(** What is left of [old] around [r]. *)
Definition fragments (old r : Range) : list Range :=
  filter (fun f => negb (RangeIsEmpty f))
    [mkRange (RangeBase old) (RangeBase r);
     mkRange (RangeLimit r) (RangeLimit old)].

Fixpoint replace (old : Range) (frags l : list Range) : list Range :=
  match l with
  | [] => []
  | b :: l' =>
      if RangesEqual b old then frags ++ l' else b :: replace old frags l'
  end.

(** Deleting from the middle of a range leaves two ranges and needs a
    node; when none is spare the land is left as it was and the containing
    range is reported with [ResMEMORY]. *)
Definition delete {bd} (r : Range) (l : t bd) : Res * Range * t bd :=
  match find (fun b => RangesNest b r) (blocks l) with
  | None => (ResFAIL, r, l)
  | Some old =>
      let frags := fragments old r in
      if (2 <=? length frags)%nat && exhausted l then (ResMEMORY, old, l)
      else (ResOK, old,
            mk (replace old frags (blocks l)) (S (spare l) - length frags))
  end.

Definition iterate {bd} (C : Type) (visitor : LandVisitor C) (closure : C)
    (l : t bd) : bool * C * t bd :=
  (visit visitor (blocks l) closure, l).

(** The part of the found range [b] that [findDelete] asks for, deleted
    from the land unless [findDelete] is [FindDeleteNONE]. *)
Definition found {bd} (findDelete : FindDelete) (sz : Size) (b : Range)
    (l : t bd) : bool * Range * Range * t bd :=
  match findDelete with
  | FindDeleteNONE => (true, b, b, l)
  | FindDeleteLOW =>
      let r := mkRange (RangeBase b) (RangeBase b + sz) in
      (true, r, b, snd (delete r l))
  | FindDeleteHIGH =>
      let r := mkRange (RangeLimit b - sz) (RangeLimit b) in
      (true, r, b, snd (delete r l))
  | FindDeleteENTIRE => (true, b, b, snd (delete b l))
  end.

Definition findIn {bd} (candidates : list Range) (sz : Size)
    (findDelete : FindDelete) (l : t bd) : bool * Range * Range * t bd :=
  match find (fun b => sz <=? RangeSize b) candidates with
  | None => (false, noRange, noRange, l)
  | Some b => found findDelete sz b l
  end.

Definition findFirst {bd} (sz : Size) (fd : FindDelete) (l : t bd) :=
  findIn (blocks l) sz fd l.

Definition findLast {bd} (sz : Size) (fd : FindDelete) (l : t bd) :=
  findIn (rev (blocks l)) sz fd l.

(** The largest range, the lowest in address among equals. *)
Fixpoint largest (l : list Range) : option Range :=
  match l with
  | [] => None
  | b :: l' =>
      match largest l' with
      | None => Some b
      | Some m => if RangeSize m <=? RangeSize b then Some b else Some m
      end
  end.

Definition findLargest {bd} (sz : Size) (fd : FindDelete) (l : t bd) :=
  match largest (blocks l) with
  | None => (false, noRange, noRange, l)
  | Some b => findIn [b] sz fd l
  end.

(** The list land takes no memory from the range it is given, and has no
    notion of zones. *)
Definition insertSteal {bd} (rangeIO : Range) (l : t bd)
  : Res * Range * Range * t bd :=
  let '(res, rangeReturn, l') := insert rangeIO l in
  (res, rangeReturn, rangeIO, l').

Definition findInZones {bd} (sz : Size) (zoneSet : ZoneSet) (high : bool)
    (l : t bd) : Res * bool * Range * Range * t bd :=
  (ResUNIMPL, false, noRange, noRange, l).

#[global] Instance listLand (bd : bool) : Land (t bd) := {
  landSize := size;
  landInsert := insert;
  landInsertSteal := insertSteal;
  landDelete := delete;
  landDeleteSteal := delete;
  landIterate := iterate;
  landFindFirst := findFirst;
  landFindLast := findLast;
  landFindLargest := findLargest;
  landFindInZones := findInZones
}.

(** Flush: every range of the source is offered to the destination; those
    it accepts leave the source. *)
Fixpoint migrate {bd} (dest : t bd) (l : list Range)
  : t bd * list Range :=
  match l with
  | [] => (dest, [])
  | b :: l' =>
      let '(res, _, dest') := insert b dest in
      let (dest'', kept) := migrate dest' l' in
      if res == ResOK then (dest'', kept) else (dest'', b :: kept)
  end.

Definition flush {bd bs} (dest : t bd) (src : t bs) : bool * t bd * t bs :=
  let (dest', kept) := migrate dest (blocks src) in
  ((length kept =? 0)%nat, dest',
   mk kept (spare src + (length (blocks src) - length kept))).

#[global] Instance listFlush (bd bs : bool) : Flush (t bd) (t bs) :=
  flush.

End ListLand.

(** The build with every check, and the build for production, on a 64-bit
    platform. *)
Definition cool : Build := {| criticalChecks := true; wordWidth := 64 |}.
Definition hot : Build := {| criticalChecks := false; wordWidth := 64 |}.

(** ** Notions used by the statements *)

(** What a run returned, if it did. *)
Definition result {P S A} (o : Outcome P S A) : option A :=
  match o with
  | Done a _ => Some a
  | Abort _ => None
  end.

(** The world a run ended in, if it returned. *)
Definition final {P S A} (o : Outcome P S A) : option (World P S) :=
  match o with
  | Done _ w => Some w
  | Abort _ => None
  end.

(** The free addresses of a Failover: the union of those of its children. *)
Definition failoverFree {P S} `{LandLaws P} `{LandLaws S} (w : World P S)
    (a : Addr) : Prop :=
  landFree (primary w) a \/ landFree (secondary w) a.

(** Modelled from the spec: the children keep their invariants and "the same
    address cannot be free in both". *)
Record Consistent {P S} `{LandLaws P} `{LandLaws S} (w : World P S)
  : Prop := {
  consistent_primary : landInv (primary w);
  consistent_secondary : landInv (secondary w);
  consistent_disjoint : forall a,
    ~ (landFree (primary w) a /\ landFree (secondary w) a)
}.

(** Modelled from the spec: a valid Failover is consistent and its ranges
    are ranges of machine addresses. *)
Definition inAddressSpace {build : Build} (range : Range) : Prop :=
  0 <= RangeBase range /\ RangeLimit range < 2 ^ wordWidth.

Record FailoverValid {P S} `{LandLaws P} `{LandLaws S} {build : Build}
    (w : World P S) : Prop := {
  valid_consistent : Consistent w;
  valid_addresses :
    Forall inAddressSpace (landRanges (primary w) ++ landRanges (secondary w))
}.

(** A visitor that also records the ranges it is called with. *)
Definition recording {C} (visitor : LandVisitor C)
  : LandVisitor (C * list Range) :=
  fun range '(closure, seen) =>
    let (cont, closure') := visitor range closure in
    (cont, (closure', seen ++ [range])).

(** The ranges of [l] that a visitor sees: those up to and including the
    first at which it answers false. *)
Fixpoint visited {C} (visitor : LandVisitor C) (l : list Range) (closure : C)
  : list Range :=
  match l with
  | [] => []
  | b :: l' =>
      let (cont, closure') := visitor b closure in
      if cont then b :: visited visitor l' closure' else [b]
  end.

Section Recovery.

Context {P S : Type} {LP : Land P} {LS : Land S}.

(** The recovery of [failoverDelete] in the words of the spec: "for each
    non-empty fragment: insert into the primary; on failure, insert into the
    secondary". *)
Definition reinsert (fragment : Range) (w : World P S) : World P S :=
  if RangeIsEmpty fragment then w
  else
    let '(res, _, p') := landInsert fragment (primary w) in
    if res == ResOK
    then mkWorld p' (secondary w) (calls w ++ [EvInsert Primary fragment])
    else
      let '(_, _, s') := landInsert fragment (secondary w) in
      mkWorld p' s'
        (calls w ++ [EvInsert Primary fragment; EvInsert Secondary fragment]).

Definition recover (old range : Range) (w : World P S) : World P S :=
  fold_left (fun w fragment => reinsert fragment w)
    [mkRange (RangeBase old) (RangeBase range);
     mkRange (RangeLimit range) (RangeLimit old)]
    w.

End Recovery.

Section PrimaryFirst.

Context {P S : Type} {LP : Land P} {LS : Land S} {FL : Flush P S}.

(** A find in the words of the spec: "1. Flush secondary into primary.
    2. Query the primary; if it returns a hit, that is the result.
    3. Otherwise query the secondary."  [query c] is the call made to the
    child [c]. *)
Definition primaryFirst (query : Child -> Event)
    (findP : P -> bool * Range * Range * P)
    (findS : S -> bool * Range * Range * S)
    (w : World P S) : Outcome P S (bool * Range * Range) :=
  let '(_, p1, s1) := landFlush (primary w) (secondary w) in
  let '(found, range, oldRange, p2) := findP p1 in
  if found
  then Done (true, range, oldRange)
         (mkWorld p2 s1 (calls w ++ [EvFlush; query Primary]))
  else
    let '(found', range', oldRange', s2) := findS s1 in
    Done (found', range', oldRange')
      (mkWorld p2 s2 (calls w ++ [EvFlush; query Primary; query Secondary])).

End PrimaryFirst.

(** ** The scenarios of the specification *)

(** A Failover over a bounded list land, with [n] spare nodes, and a list
    land that is not bounded; no call made yet. *)
Definition scenario (p : list Range) (n : nat) (s : list Range)
  : World (ListLand.t true) (ListLand.t false) :=
  mkWorld (ListLand.mk p n) (ListLand.mk s 0) [].

(** S1: the primary holds no range and has no node to spare ("P is full");
    the secondary is empty. *)
Definition S1_world := scenario [] 0 [].

(** S3: [P = {[0,100)}], with its metadata exhausted. *)
Definition S3_world := scenario [mkRange 0 100] 0 [].

(** S4: [P = {[0,10)}], [S = {[100,110)}]. *)
Definition S4_world := scenario [mkRange 0 10] 0 [mkRange 100 110].

(** S5: [P = {[0,10),[100,130)}], [S = {[200,215)}]. *)
Definition S5_world (n : nat) :=
  scenario [mkRange 0 10; mkRange 100 130] n [mkRange 200 215].

(** S6: [P = {[0,10)}], [S = {[10,20)}]. *)
Definition S6_world (n : nat) := scenario [mkRange 0 10] n [mkRange 10 20].

(** The visitor of S6 counts its calls. *)
Definition counting : LandVisitor nat := fun _ n => (true, Datatypes.S n).

(** A visitor that counts its calls and stops at the first. *)
Definition stopping : LandVisitor nat := fun _ n => (false, Datatypes.S n).


Section Calls.

Context {P S : Type}.

(** A run of [m] that returns has only added to the calls made. *)
Definition appends {A} (m : M P S A) : Prop :=
  forall w a w', m w = Done a w' -> exists evs, calls w' = calls w ++ evs.

(** A run of [m] that returns has flushed before any other call. *)
Definition flushesFirst {A} (m : M P S A) : Prop :=
  forall w a w',
    m w = Done a w' -> exists evs, calls w' = calls w ++ EvFlush :: evs.

End Calls.

Section Blocks.

Context {P S : Type} {LP : Land P} {LS : Land S}.

(** The block of [failoverDelete] that re-inserts a fragment; the source
    writes it out once for [left] and once for [right], and the two differ in
    the fragment only.  [res] is the result so far. *)
Definition reinsertBlock (notFAIL secondaryOK : Site) (res : Res)
    (fragment : Range) : M P S Res :=
  if negb (RangeIsEmpty fragment) then
    '(res, _) <- LandInsert Primary fragment ;;
    if res != ResOK then
      AVER notFAIL (res != ResFAIL) ;;
      '(res, _) <- LandInsert Secondary fragment ;;
      AVER secondaryOK (res == ResOK) ;;
      ret res
    else ret res
  else ret res.

End Blocks.

Section Fragments.

Context {P S : Type} {LP : Land P} {LS : Land S} {build : Build}.

(** The end of the recovery of [failoverDelete], from the first [RangeInit]
    on. *)
Definition reinsertFragments (res : Res) (oldRange range : Range)
  : M P S (Res * option Range) :=
  left <- RangeInit DeleteLeftInit (RangeBase oldRange) (RangeBase range) ;;
  res <- reinsertBlock DeleteLeftNotFAIL DeleteLeftSecondaryOK res left ;;
  right <- RangeInit DeleteRightInit (RangeLimit range) (RangeLimit oldRange) ;;
  res <- reinsertBlock DeleteRightNotFAIL DeleteRightSecondaryOK res right ;;
  failoverDeleteReturn res oldRange range.

End Fragments.

(** ** The spill policy in the calls *)

(** Every insert into the secondary comes straight after an insert of the
    same range into the primary; [prev] is the call before the first of
    [evs]. *)
Fixpoint spillsFollowPrimary (prev : option Event) (evs : list Event)
  : bool :=
  match evs with
  | [] => true
  | e :: evs' =>
      match e with
      | EvInsert Secondary r =>
          match prev with
          | Some (EvInsert Primary r') => RangesEqual r r'
          | _ => false
          end
      | _ => true
      end && spillsFollowPrimary (Some e) evs'
  end.

(** The same, of a list of calls on its own. *)
Definition spillPolicy (evs : list Event) : Prop :=
  forall pre r post,
    evs = pre ++ EvInsert Secondary r :: post ->
    exists pre', pre = pre' ++ [EvInsert Primary r].

(** The calls made for a fragment by the recovery of [failoverDelete]. *)
Definition fragmentCalls (fragment : Range) (evs : list Event) : Prop :=
  evs = []
  \/ evs = [EvInsert Primary fragment]
  \/ evs = [EvInsert Primary fragment; EvInsert Secondary fragment].

(** ** Counting free addresses *)

(** The address [a] is free in one of the ranges of [l], as a test. *)
Definition freeb (l : list Range) (a : Addr) : bool :=
  existsb (fun r => (RangeBase r <=? a) && (a <? RangeLimit r)) l.

(** The number of addresses of [[lo, lo + n)] that are free in [l]. *)
Fixpoint covered (l : list Range) (lo : Addr) (n : nat) : Z :=
  match n with
  | O => 0
  | Datatypes.S n' => (if freeb l lo then 1 else 0) + covered l (lo + 1) n'
  end.

(** * The object format of the fork test ([forktest.c]) *)

Module Forktest.

(** What the compiler fixes: the size in bytes of [size_t], which is also
    the size of a pointer, the size of [unsigned], the offset of the union
    [u] in [obj_s], [sizeof(obj_s)] with its binary logarithm, and the order
    of the bytes of a value.  The laws are what C promises of the layout of
    [obj_s] (the members lie in the order of their declaration, apart from
    each other and inside the object), and what the test relies on when it
    gives [ALIGNMENT] to the MPS as the alignment of the format: it is a
    power of two. *)
Class Platform : Type := {
  sizeof_size_t : Z;
  sizeof_unsigned : Z;
  offsetof_u : Z;
  sizeof_obj_s : Z;
  alignShift : Z;
  bigEndian : bool;
  unsigned_pos : 0 < sizeof_unsigned;
  size_t_pos : 0 < sizeof_size_t;
  type_before_u : sizeof_unsigned <= offsetof_u;
  u_inside : offsetof_u + sizeof_size_t <= sizeof_obj_s;
  obj_s_pow2 : sizeof_obj_s = 2 ^ alignShift;
  alignShift_range : 0 <= alignShift < 8 * sizeof_size_t
}.

(** LP64, little-endian (FreeBSD, Linux and OS X on x86-64 and ARM64): the
    [unsigned] is padded to the alignment of the union. *)
Definition lp64 : Platform := {|
  sizeof_size_t := 8;
  sizeof_unsigned := 4;
  offsetof_u := 8;
  sizeof_obj_s := 16;
  alignShift := 4;
  bigEndian := false;
  unsigned_pos := ltac:(lia);
  size_t_pos := ltac:(lia);
  type_before_u := ltac:(lia);
  u_inside := ltac:(lia);
  obj_s_pow2 := eq_refl;
  alignShift_range := ltac:(lia)
|}.

(** ILP32, little-endian. *)
Definition ilp32 : Platform := {|
  sizeof_size_t := 4;
  sizeof_unsigned := 4;
  offsetof_u := 4;
  sizeof_obj_s := 8;
  alignShift := 3;
  bigEndian := false;
  unsigned_pos := ltac:(lia);
  size_t_pos := ltac:(lia);
  type_before_u := ltac:(lia);
  u_inside := ltac:(lia);
  obj_s_pow2 := eq_refl;
  alignShift_range := ltac:(lia)
|}.

Section Format.

Context {platform : Platform}.

(** The width in bits of [size_t] and of a pointer. *)
Definition sizeBits : Z := 8 * sizeof_size_t.

(** The arithmetic of [size_t]; the sum of a [char *] and a [size_t] is
    taken in the flat address space of the same width. *)
Definition size_t (z : Z) : Z := z mod 2 ^ sizeBits.

Definition TYPE_REF : Z := 0.
Definition TYPE_FWD : Z := 1.
Definition TYPE_PAD : Z := 2.

(** ** Memory *)

(** The [n] bytes of a value, the least significant first. *)
Fixpoint bytes_le (n : nat) (v : Z) : list Z :=
  match n with
  | O => []
  | Datatypes.S n' => v mod 256 :: bytes_le n' (v / 256)
  end.

Fixpoint value_le (bs : list Z) : Z :=
  match bs with
  | [] => 0
  | b :: bs' => b + 256 * value_le bs'
  end.

(** The bytes of a value in memory, in the order of the platform. *)
Definition encode (n : nat) (v : Z) : list Z :=
  if bigEndian then rev (bytes_le n v) else bytes_le n v.

Definition decode (bs : list Z) : Z :=
  if bigEndian then value_le (rev bs) else value_le bs.

(** The memory, byte by byte.  An object of type [obj_s] at [addr] takes the
    [sizeof(obj_s)] bytes from [addr] on, so that objects at addresses less
    than that apart share bytes. *)
Definition Heap : Type := Addr -> Z.

(** A value of [n] bytes read at [addr]. *)
Definition load (h : Heap) (addr : Addr) (n : Z) : Z :=
  decode (map (fun i => h (addr + Z.of_nat i)) (seq 0 (Z.to_nat n))).

(** A value of [n] bytes written at [addr]: those bytes change and no
    other. *)
Definition store (h : Heap) (addr : Addr) (n : Z) (v : Z) : Heap :=
  fun a =>
    if (addr <=? a) && (a <? addr + n)
    then nth (Z.to_nat (a - addr)) (encode (Z.to_nat n) v) 0
    else h a.

(** ** The members of [obj_s] *)

(** [obj->type], an [unsigned] at the start of the object. *)
Definition type (h : Heap) (obj : Addr) : Z := load h obj sizeof_unsigned.

(** [obj->u.ref], [obj->u.fwd], [obj->u.pad]: the members of the union are
    one word of storage, a pointer or a [size_t]. *)
Definition u (h : Heap) (obj : Addr) : Z :=
  load h (obj + offsetof_u) sizeof_size_t.

(** [obj->type = t] *)
Definition set_type (obj : Addr) (t : Z) (h : Heap) : Heap :=
  store h obj sizeof_unsigned t.

(** [obj->u.ref = v], [obj->u.fwd = v], [obj->u.pad = v] *)
Definition set_u (obj : Addr) (v : Z) (h : Heap) : Heap :=
  store h (obj + offsetof_u) sizeof_size_t v.

(** ** forktest.c *)

Definition NULL : Addr := 0.

Definition ALIGNMENT : Z := sizeof_obj_s.

(** Align up a to a multiple of b. *)
Definition ALIGN_UP (a b : Z) : Z :=
  Z.land (size_t (size_t (a + b) - 1)) (size_t (Z.lnot (size_t (b - 1)))).

Definition obj_fwd (old new : Addr) (h : Heap) : Heap :=
  let h := set_type old TYPE_FWD h in
  set_u old new h.

Definition obj_isfwd (addr : Addr) (h : Heap) : Addr :=
  if type h addr =? TYPE_FWD then u h addr else NULL.

Definition obj_pad (addr : Addr) (size : Z) (h : Heap) : Heap :=
  let h := set_type addr TYPE_PAD h in
  set_u addr size h.

Definition obj_skip (addr : Addr) (h : Heap) : Addr :=
  let size := if type h addr =? TYPE_PAD then u h addr
              else sizeof_obj_s in
  size_t (addr + ALIGN_UP size ALIGNMENT).


Section Scan.

(** The scan state, and [MPS_FIX12(ss, &p)]: the result, the reference left
    in [p] and the scan state left in [ss].  They belong to the MPS and are
    not fixed here. *)
Variable SS : Type.
Variable MPS_FIX12 : SS -> Addr -> Res * Addr * SS.

(** The loop of [obj_scan] runs for at most [fuel] tests of [base < limit];
    [None] when they do not suffice. *)
Fixpoint obj_scan (fuel : nat) (ss : SS) (base limit : Addr) (h : Heap)
  : option (Res * SS * Heap) :=
  match fuel with
  | O => None
  | Datatypes.S fuel' =>
      if base <? limit then
        if type h base =? TYPE_REF then
          let p := u h base in
          let '(res, p, ss) := MPS_FIX12 ss p in
          if res != ResOK then Some (res, ss, h)
          else
            let h := set_u base p h in
            obj_scan fuel' ss (obj_skip base h) limit h
        else obj_scan fuel' ss (obj_skip base h) limit h
      else Some (ResOK, ss, h)
  end.

End Scan.

End Format.

End Forktest.

(** ** Ranges and lists of ranges *)

Ltac zbool :=
  unfold RangesOverlap, RangesNest, RangesEqual, RangeCheck, RangeIsEmpty,
    RangeNonEmpty, InRange, RangeSize in *;
  simpl in *;
  repeat match goal with
    | |- context [?a <? ?b] => destruct (Z.ltb_spec a b)
    | |- context [?a <=? ?b] => destruct (Z.leb_spec a b)
    | |- context [?a =? ?b] => destruct (Z.eqb_spec a b)
    | H : context [?a <? ?b] |- _ => destruct (Z.ltb_spec a b)
    | H : context [?a <=? ?b] |- _ => destruct (Z.leb_spec a b)
    | H : context [?a =? ?b] |- _ => destruct (Z.eqb_spec a b)
    end;
  simpl in *; try discriminate; try lia.

Lemma Res_eqb_eq (a b : Res) : Res_eqb a b = true <-> a = b.
Proof. unfold Res_eqb. destruct (Res_eq_dec a b); split; congruence. Qed.

Lemma Res_eqb_neq (a b : Res) : Res_eqb a b = false <-> a <> b.
Proof. unfold Res_eqb. destruct (Res_eq_dec a b); split; congruence. Qed.

Lemma RangesEqual_eq (r1 r2 : Range) : RangesEqual r1 r2 = true <-> r1 = r2.
Proof.
  destruct r1, r2; split; intros E.
  - zbool. subst. reflexivity.
  - inversion E; subst. zbool.
Qed.

Lemma RangesOverlap_sym (r1 r2 : Range) :
  RangesOverlap r1 r2 = RangesOverlap r2 r1.
Proof. unfold RangesOverlap. apply andb_comm. Qed.

Lemma overlap_false_apart {r1 r2 : Range} {a : Addr} :
  RangesOverlap r1 r2 = false -> InRange a r1 -> ~ InRange a r2.
Proof. destruct r1, r2. zbool. Qed.

Lemma overlap_true_common {r1 r2 : Range} :
  RangeNonEmpty r1 -> RangeNonEmpty r2 -> RangesOverlap r1 r2 = true ->
  exists a, InRange a r1 /\ InRange a r2.
Proof.
  destruct r1 as [b1 l1], r2 as [b2 l2]. intros N1 N2 O.
  exists (Z.max b1 b2). zbool.
Qed.

Lemma overlap_nest (b old f : Range) :
  RangesOverlap b old = false -> RangesNest old f = true ->
  RangesOverlap b f = false.
Proof. destruct b, old, f. zbool. Qed.

Lemma nest_in {old r : Range} {a : Addr} :
  RangesNest old r = true -> InRange a r -> InRange a old.
Proof. destruct old, r. zbool. Qed.

Lemma freeIn_nil (a : Addr) : ~ freeIn [] a.
Proof. intros [b [[] _]]. Qed.

Lemma freeIn_cons (b : Range) (l : list Range) (a : Addr) :
  freeIn (b :: l) a <-> InRange a b \/ freeIn l a.
Proof.
  unfold freeIn; split.
  - intros [b' [[<- | I] R]]; [left | right; exists b']; auto.
  - intros [R | [b' [I R]]]; [exists b | exists b']; simpl; auto.
Qed.

Lemma freeIn_app (l1 l2 : list Range) (a : Addr) :
  freeIn (l1 ++ l2) a <-> freeIn l1 a \/ freeIn l2 a.
Proof.
  unfold freeIn; split.
  - intros [b [I R]]. apply in_app_or in I as [I | I]; [left | right]; eauto.
  - intros [[b [I R]] | [b [I R]]]; exists b; split; auto using in_or_app.
Qed.

Lemma wfBlocks_app (l1 l2 : list Range) :
  wfBlocks (l1 ++ l2) <->
  wfBlocks l1 /\ wfBlocks l2
  /\ Forall (fun b1 => Forall (fun b2 => RangesOverlap b1 b2 = false) l2) l1.
Proof.
  induction l1 as [| b l1 IH]; simpl.
  - intuition.
  - rewrite IH, Forall_app. split.
    + intros (N & [F1 F2] & W1 & W2 & F). repeat split; auto.
    + intros ((N & F1 & W1) & W2 & F). inversion F; subst. repeat split; auto.
Qed.

Lemma wfBlocks_incl_apart (b : Range) (l l' : list Range) :
  Forall (fun b' => RangesOverlap b b' = false) l -> incl l' l ->
  Forall (fun b' => RangesOverlap b b' = false) l'.
Proof.
  intros F I. rewrite Forall_forall in *. auto.
Qed.

Lemma wfBlocks_nonempty (l : list Range) (b : Range) :
  wfBlocks l -> In b l -> RangeNonEmpty b.
Proof.
  induction l as [| b' l IH]; simpl; [tauto |].
  intros (N & _ & W) [<- | I]; auto.
Qed.

(** Two ranges of a well-formed list that share an address are the same. *)
Lemma wfBlocks_unique (l : list Range) (b1 b2 : Range) (a : Addr) :
  wfBlocks l -> In b1 l -> In b2 l -> InRange a b1 -> InRange a b2 -> b1 = b2.
Proof.
  induction l as [| b l IH]; simpl; [tauto |].
  intros (N & F & W) I1 I2 R1 R2. rewrite Forall_forall in F.
  destruct I1 as [<- | I1], I2 as [<- | I2]; auto.
  - exfalso. exact (overlap_false_apart (F _ I2) R1 R2).
  - exfalso. exact (overlap_false_apart (F _ I1) R2 R1).
Qed.

Lemma freeIn_apart {b : Range} {l : list Range} {a : Addr} :
  Forall (fun b' => RangesOverlap b b' = false) l ->
  InRange a b -> ~ freeIn l a.
Proof.
  intros F R [b' [I R']]. rewrite Forall_forall in F.
  exact (overlap_false_apart (F _ I) R R').
Qed.

(** A land whose insert answers [ResOK] or [ResFAIL] admits every range that
    is not free in it. *)
Lemma never_exhausted_admits {T} {L : Land T} {LL : LandLaws T} :
  NeverExhausted T -> AdmitsFreed T.
Proof.
  intros NE r t Inv N Fresh. specialize (NE r t).
  destruct (landInsert r t) as [[res rr] t'] eqn:E. simpl in *.
  destruct NE as [-> | ->]; [reflexivity |]. exfalso.
  destruct (insert_FAIL _ _ _ _ Inv N E) as [a [Ra Fa]].
  exact (Fresh a Ra Fa).
Qed.

(** ** The reference Land keeps the contract *)

Module ListLandFacts.
Import ListLand.

Lemma existsb_false_Forall {A} (f : A -> bool) (l : list A) :
  existsb f l = false <-> Forall (fun x => f x = false) l.
Proof.
  induction l as [| x l IH]; simpl.
  - split; auto.
  - rewrite orb_false_iff, IH. split.
    + intros [H1 H2]. constructor; auto.
    + intros H. inversion H; auto.
Qed.

Lemma In_place (r : Range) (l : list Range) (b : Range) :
  In b (place r l) <-> b = r \/ In b l.
Proof.
  induction l as [| x l IH]; simpl.
  - intuition.
  - destruct (RangeBase r <? RangeBase x); simpl; rewrite ?IH; intuition.
Qed.

Lemma Forall_place (Q : Range -> Prop) (r : Range) (l : list Range) :
  Forall Q (place r l) <-> Q r /\ Forall Q l.
Proof.
  rewrite !Forall_forall. split.
  - intros H. split; [| intros x I]; apply H; apply In_place; auto.
  - intros [Hr Hl] x I. apply In_place in I as [-> | I]; auto.
Qed.

Lemma freeIn_place (r : Range) (l : list Range) (a : Addr) :
  freeIn (place r l) a <-> freeIn l a \/ InRange a r.
Proof.
  unfold freeIn. split.
  - intros [b [I R]]. apply In_place in I as [-> | I]; eauto.
  - intros [[b [I R]] | R].
    + exists b. split; auto. apply In_place; auto.
    + exists r. split; auto. apply In_place; auto.
Qed.

Lemma wf_place (r : Range) (l : list Range) :
  wfBlocks l -> RangeNonEmpty r ->
  existsb (RangesOverlap r) l = false -> wfBlocks (place r l).
Proof.
  induction l as [| b l IH]; simpl; intros W N E.
  - repeat split; auto.
  - destruct W as (Nb & F & W).
    apply orb_false_iff in E as [Eb El].
    destruct (RangeBase r <? RangeBase b); simpl.
    + repeat split; auto. constructor; auto.
      apply existsb_false_Forall; exact El.
    + repeat split; auto. apply Forall_place. split; auto.
      rewrite RangesOverlap_sym; exact Eb.
Qed.

(** *** insert *)

Lemma insert_cases {bd} (r : Range) (l : t bd) :
  (existsb (RangesOverlap r) (blocks l) = true
     /\ insert r l = (ResFAIL, r, l))
  \/ (existsb (RangesOverlap r) (blocks l) = false
     /\ insert r l = (ResMEMORY, r, l))
  \/ (existsb (RangesOverlap r) (blocks l) = false
     /\ insert r l = (ResOK, r, mk (place r (blocks l)) (pred (spare l)))).
Proof.
  unfold insert. destruct (existsb _ _); auto. destruct (exhausted l); auto.
Qed.

Lemma insert_wf {bd} (r : Range) (l : t bd) res rr l' :
  wfBlocks (blocks l) -> RangeNonEmpty r -> insert r l = (res, rr, l') ->
  wfBlocks (blocks l').
Proof.
  intros W N E.
  destruct (insert_cases r l) as [[O E'] | [[O E'] | [O E']]];
    rewrite E' in E; inversion E; subst; simpl; auto using wf_place.
Qed.

Lemma insert_adds {bd} (r : Range) (l : t bd) rr l' :
  wfBlocks (blocks l) -> RangeNonEmpty r -> insert r l = (ResOK, rr, l') ->
  forall a, freeIn (blocks l') a <-> freeIn (blocks l) a \/ InRange a r.
Proof.
  intros W N E a.
  destruct (insert_cases r l) as [[O E'] | [[O E'] | [O E']]];
    rewrite E' in E; inversion E; subst; simpl. apply freeIn_place.
Qed.

Lemma insert_keeps {bd} (r : Range) (l : t bd) res rr l' :
  wfBlocks (blocks l) -> RangeNonEmpty r -> insert r l = (res, rr, l') ->
  res <> ResOK -> blocks l' = blocks l.
Proof.
  intros W N E NE.
  destruct (insert_cases r l) as [[O E'] | [[O E'] | [O E']]];
    rewrite E' in E; inversion E; subst; simpl; congruence.
Qed.

Lemma insert_refuses {bd} (r : Range) (l : t bd) rr l' :
  wfBlocks (blocks l) -> RangeNonEmpty r -> insert r l = (ResFAIL, rr, l') ->
  exists a, InRange a r /\ freeIn (blocks l) a.
Proof.
  intros W N E.
  destruct (insert_cases r l) as [[O E'] | [[O E'] | [O E']]];
    rewrite E' in E; inversion E; subst.
  apply existsb_exists in O as [b [I O]].
  destruct (overlap_true_common N (wfBlocks_nonempty _ _ W I) O) as [a [R1 R2]].
  exists a. split; auto. exists b; auto.
Qed.

Lemma insert_never_exhausted (r : Range) (l : t false) :
  fst (fst (insert r l)) = ResOK \/ fst (fst (insert r l)) = ResFAIL.
Proof.
  unfold insert, exhausted. destruct (existsb _ _); simpl; auto.
Qed.

(** *** delete *)

Lemma freeIn_nil_iff (a : Addr) : freeIn [] a <-> False.
Proof. split; [apply freeIn_nil | tauto]. Qed.

Lemma fragments_spec (old r : Range) :
  RangesNest old r = true -> RangeCheck r = true ->
  Forall (fun f => RangesNest old f = true) (fragments old r)
  /\ wfBlocks (fragments old r)
  /\ forall a, freeIn (fragments old r) a <-> InRange a old /\ ~ InRange a r.
Proof.
  destruct old as [ob ol], r as [rb rl]. intros N C.
  unfold fragments, RangeIsEmpty. simpl.
  destruct (Z.eqb_spec ob rb), (Z.eqb_spec rl ol); simpl;
    (split; [repeat constructor; zbool | split]);
    try (intros a; rewrite ?freeIn_cons, ?freeIn_nil_iff; zbool);
    repeat split; repeat constructor; zbool.
Qed.

Lemma In_replace (x old : Range) (frags l : list Range) :
  In x (replace old frags l) -> In x frags \/ In x l.
Proof.
  induction l as [| b l IH]; simpl; auto.
  destruct (RangesEqual b old).
  - intros I. apply in_app_or in I. tauto.
  - intros [<- | I]; auto. apply IH in I. tauto.
Qed.

Lemma wf_replace (old : Range) (frags l : list Range) :
  wfBlocks l -> In old l -> wfBlocks frags ->
  Forall (fun f => RangesNest old f = true) frags ->
  wfBlocks (replace old frags l).
Proof.
  intros W I Wf Nf. rewrite Forall_forall in Nf.
  induction l as [| b l IH]; simpl in *; [tauto |].
  destruct W as (Nb & F & W).
  destruct (RangesEqual b old) eqn:E.
  - apply RangesEqual_eq in E; subst b.
    apply wfBlocks_app. repeat split; auto.
    apply Forall_forall. intros f If.
    rewrite Forall_forall in *. intros b' Ib'.
    rewrite RangesOverlap_sym. apply overlap_nest with old; auto.
    rewrite RangesOverlap_sym; auto.
  - destruct I as [-> | I].
    + assert (RangesEqual old old = true) by (apply RangesEqual_eq; auto).
      congruence.
    + repeat split; auto.
      rewrite Forall_forall in *. intros x Ix.
      apply In_replace in Ix as [Ix | Ix]; auto.
      apply overlap_nest with old; auto.
Qed.

Lemma freeIn_replace (old r : Range) (frags l : list Range) :
  wfBlocks l -> In old l -> RangesNest old r = true ->
  (forall a, freeIn frags a <-> InRange a old /\ ~ InRange a r) ->
  forall a, freeIn (replace old frags l) a <-> freeIn l a /\ ~ InRange a r.
Proof.
  intros W I N Hf a.
  induction l as [| b l IH]; simpl in *; [tauto |].
  destruct W as (Nb & F & W).
  destruct (RangesEqual b old) eqn:E.
  - apply RangesEqual_eq in E; subst b.
    rewrite freeIn_app, freeIn_cons, Hf. split.
    + intros [[Ro Nr] | Fl]; [tauto |]. split; auto.
      intros Rr. apply (nest_in N) in Rr. exact (freeIn_apart F Rr Fl).
    + tauto.
  - destruct I as [-> | I].
    + assert (RangesEqual old old = true) by (apply RangesEqual_eq; auto).
      congruence.
    + rewrite !freeIn_cons, (IH W I). split; [| tauto].
      intros [Ra | [Fl Nr]]; [| tauto]. split; auto.
      intros Rr. apply (nest_in N) in Rr.
      rewrite Forall_forall in F.
      exact (overlap_false_apart (F _ I) Ra Rr).
Qed.

Lemma delete_cases {bd} (r : Range) (l : t bd) :
  (find (fun b => RangesNest b r) (blocks l) = None
     /\ delete r l = (ResFAIL, r, l))
  \/ exists old,
       In old (blocks l) /\ RangesNest old r = true
       /\ (delete r l = (ResMEMORY, old, l)
           \/ delete r l =
                (ResOK, old,
                 mk (replace old (fragments old r) (blocks l))
                    (S (spare l) - length (fragments old r)))).
Proof.
  unfold delete. destruct (find _ _) as [old |] eqn:F; auto.
  right. exists old. apply find_some in F as [I N]. repeat split; auto.
  destruct (_ && _); auto.
Qed.

Lemma delete_wf {bd} (r : Range) (l : t bd) res old l' :
  wfBlocks (blocks l) -> RangeCheck r = true ->
  delete r l = (res, old, l') -> wfBlocks (blocks l').
Proof.
  intros W C E.
  destruct (delete_cases r l) as [[_ E'] | [o (I & N & [E' | E'])]];
    rewrite E' in E; inversion E; subst; simpl; auto.
  destruct (fragments_spec old r N C) as (Nf & Wf & _).
  apply wf_replace; auto.
Qed.

Lemma delete_removes {bd} (r : Range) (l : t bd) old l' :
  wfBlocks (blocks l) -> RangeCheck r = true ->
  delete r l = (ResOK, old, l') ->
  forall a, freeIn (blocks l') a <-> freeIn (blocks l) a /\ ~ InRange a r.
Proof.
  intros W C E.
  destruct (delete_cases r l) as [[_ E'] | [o (I & N & [E' | E'])]];
    rewrite E' in E; inversion E; subst; simpl.
  destruct (fragments_spec old r N C) as (Nf & Wf & Hf).
  apply freeIn_replace; auto.
Qed.

Lemma delete_keeps {bd} (r : Range) (l : t bd) res old l' :
  wfBlocks (blocks l) -> RangeCheck r = true ->
  delete r l = (res, old, l') -> res <> ResOK -> blocks l' = blocks l.
Proof.
  intros W C E NE.
  destruct (delete_cases r l) as [[_ E'] | [o (I & N & [E' | E'])]];
    rewrite E' in E; inversion E; subst; simpl; congruence.
Qed.

Lemma delete_finds {bd} (r : Range) (l : t bd) res old l' :
  wfBlocks (blocks l) -> RangeCheck r = true ->
  delete r l = (res, old, l') -> res <> ResFAIL ->
  In old (blocks l) /\ RangesNest old r = true.
Proof.
  intros W C E NE.
  destruct (delete_cases r l) as [[_ E'] | [o (I & N & [E' | E'])]];
    rewrite E' in E; inversion E; subst; simpl; auto; congruence.
Qed.

#[global] Instance listLaws (bd : bool) : LandLaws (t bd) := {
  landRanges := @blocks bd;
  landInv := fun l => wfBlocks (blocks l);
  inv_wf := fun l W => W;
  size_total := fun l W => eq_refl;
  insert_inv := @insert_wf bd;
  insert_ok := @insert_adds bd;
  insert_failed := @insert_keeps bd;
  insert_FAIL := @insert_refuses bd;
  delete_inv := @delete_wf bd;
  delete_ok := @delete_removes bd;
  delete_failed := @delete_keeps bd;
  delete_found := @delete_finds bd;
  iterate_inv := fun C v c l W => W;
  iterate_ranges := fun C v c l W => eq_refl;
  iterate_visit := fun C v c l W => eq_refl
}.

Lemma never_exhausted : NeverExhausted (t false).
Proof. intros r l. apply insert_never_exhausted. Qed.

(** The delete of a whole range leaves no fragment and needs no node. *)
Lemma releases_whole {bd} : ReleasesWhole (t bd).
Proof.
  intros b l W I. change (fst (fst (delete b l)) = ResOK). unfold delete.
  simpl in W, I.
  pose proof (wfBlocks_nonempty _ _ W I) as N.
  destruct (find (fun b' => RangesNest b' b) (blocks l)) as [old |] eqn:F.
  - apply find_some in F as [Io No].
    assert (Rb : InRange (RangeBase b) b)
      by (unfold InRange, RangeNonEmpty in *; lia).
    assert (E : old = b)
      by exact (wfBlocks_unique _ _ _ _ W Io I (nest_in No Rb) Rb).
    subst old.
    assert (Fr : fragments b b = []).
    { unfold fragments, RangeIsEmpty. simpl. rewrite !Z.eqb_refl.
      reflexivity. }
    rewrite Fr. reflexivity.
  - exfalso. pose proof (find_none _ _ F b I) as H. simpl in H.
    destruct b. zbool.
Qed.

(** *** flush *)

Lemma migrate_spec {bd} (l : list Range) :
  forall (dest dest' : t bd) (kept : list Range),
  wfBlocks (blocks dest) -> wfBlocks l -> migrate dest l = (dest', kept) ->
  wfBlocks (blocks dest') /\ incl kept l /\ wfBlocks kept
  /\ (forall a, freeIn (blocks dest') a \/ freeIn kept a
                <-> freeIn (blocks dest) a \/ freeIn l a)
  /\ ((forall a, ~ (freeIn (blocks dest) a /\ freeIn l a)) ->
      forall a, ~ (freeIn (blocks dest') a /\ freeIn kept a)).
Proof.
  induction l as [| b l IH]; simpl; intros dest dest' kept Wd Wl E.
  - inversion E; subst. repeat split; auto using incl_refl; try tauto.
  - destruct Wl as (Nb & Fb & Wl).
    destruct (insert b dest) as [[res rr] d1] eqn:Ei.
    destruct (migrate d1 l) as [d2 k] eqn:Em.
    assert (W1 : wfBlocks (blocks d1)) by (eapply insert_wf; eauto).
    destruct (IH d1 d2 k W1 Wl Em) as (W2 & Inc & Wk & U & D).
    destruct (Res_eqb res ResOK) eqn:Er; inversion E; subst dest' kept.
    + apply Res_eqb_eq in Er; subst res.
      pose proof (insert_adds _ _ _ _ Wd Nb Ei) as A.
      split; [exact W2 |]. split; [apply incl_tl; exact Inc |].
      split; [exact Wk |]. split.
      * intros a. rewrite U, A, freeIn_cons. tauto.
      * intros Hd. apply D. intros x [F1 Fl]. apply A in F1 as [F1 | R].
        -- apply (Hd x). rewrite freeIn_cons. tauto.
        -- exact (freeIn_apart Fb R Fl).
    + apply Res_eqb_neq in Er.
      pose proof (insert_keeps _ _ _ _ _ Wd Nb Ei Er) as K.
      rewrite K in U, D.
      split; [exact W2 |].
      split; [apply incl_cons; [left; auto | apply incl_tl; auto] |].
      split; [simpl; repeat split; auto;
              apply wfBlocks_incl_apart with l; auto |].
      split.
      * intros a. rewrite !freeIn_cons. pose proof (U a). tauto.
      * intros Hd x [F2 Fk]. apply freeIn_cons in Fk as [R | Fk].
        -- assert (F : freeIn (blocks d2) x \/ freeIn k x) by auto.
           apply U in F as [F | F].
           ++ apply (Hd x). rewrite freeIn_cons. tauto.
           ++ exact (freeIn_apart Fb R F).
        -- apply (D (fun y H => Hd y (conj (proj1 H)
                     (proj2 (freeIn_cons _ _ _) (or_intror (proj2 H))))) x).
           tauto.
Qed.

#[global] Instance listFlushLaws (bd bs : bool) : FlushLaws (t bd) (t bs).
Proof.
  split; intros p s b p' s' Wp Ws E;
    unfold landFlush, listFlush, flush in E;
    destruct (migrate p (blocks s)) as [d k] eqn:Em;
    inversion E; subst b p' s'; clear E;
    destruct (migrate_spec (blocks s) p d k Wp Ws Em) as (W2 & Inc & Wk & U & D).
  - split; assumption.
  - exact U.
  - exact D.
Qed.

End ListLandFacts.

(** * Verification *)

(** ** Delegation to the children *)

Ltac run_failover :=
  unfold failoverInsert, failoverInsertSteal, failoverDelete,
    failoverDeleteSteal, failoverIterate, failoverFindFirst, failoverFindLast,
    failoverFindLargest, failoverFindInZones, failoverDeleteReturn,
    RangeInit, LandFlush, LandInsert, LandInsertSteal, LandDelete,
    LandDeleteSteal, LandIterate, LandFindFirst, LandFindLast,
    LandFindLargest, LandFindInZones, onChild, AVER_CRITICAL, AVER, bind, ret;
  simpl.

Ltac norm_calls := rewrite <- ?app_assoc; simpl.

Section Delegation.

Context {P S : Type} {LP : Land P} {LS : Land S} {FL : Flush P S}.
Context {build : Build}.

(** C2.  [failoverInsert] flushes the secondary into the primary, whatever
    the flush answers, and inserts into the primary.  When the primary answers
    [ResOK] or [ResFAIL] that result and range are returned and the secondary
    is not called again; for any other result the insert is made on the
    secondary, whose result and range are returned. *)
Theorem failoverInsert_spill (w : World P S) (range : Range) :
  RangeCheck range = true ->
  let '(_, p1, s1) := landFlush (primary w) (secondary w) in
  let '(res, rangeReturn, p2) := landInsert range p1 in
  let '(res', rangeReturn', s2) := landInsert range s1 in
  failoverInsert range w =
    if (res == ResOK) || (res == ResFAIL)
    then Done (res, rangeReturn)
           (mkWorld p2 s1 (calls w ++ [EvFlush; EvInsert Primary range]))
    else Done (res', rangeReturn')
           (mkWorld p2 s2
              (calls w ++ [EvFlush; EvInsert Primary range;
                           EvInsert Secondary range])).
Proof.
  intros C.
  destruct (landFlush (primary w) (secondary w)) as [[b p1] s1] eqn:Ef.
  destruct (landInsert range p1) as [[res rr] p2] eqn:Ep.
  destruct (landInsert range s1) as [[res' rr'] s2] eqn:Es.
  run_failover.
  destruct criticalChecks; simpl; rewrite ?C, Ef; simpl; rewrite Ep;
    destruct res; simpl; rewrite ?Es; norm_calls; reflexivity.
Qed.

(** C4.  When the primary's delete, after the flush, answers [ResFAIL],
    [failoverDelete] returns what the secondary's delete of the same range
    returns; the primary is not called again and nothing is re-inserted. *)
Theorem failoverDelete_not_in_primary (w : World P S) (range : Range)
    (b : bool) (p1 : P) (s1 : S) (oldRange : Range) (p2 : P) :
  RangeCheck range = true ->
  landFlush (primary w) (secondary w) = (b, p1, s1) ->
  landDelete range p1 = (ResFAIL, oldRange, p2) ->
  let '(res, rangeReturn, s2) := landDelete range s1 in
  failoverDelete range w =
    Done (res, Some rangeReturn)
      (mkWorld p2 s2
         (calls w ++ [EvFlush; EvDelete Primary range;
                      EvDelete Secondary range])).
Proof.
  intros C Ef Ep.
  destruct (landDelete range s1) as [[res rr] s2] eqn:Es.
  run_failover. rewrite C, Ef. simpl. rewrite Ep. simpl. rewrite Es.
  norm_calls. reflexivity.
Qed.


End Delegation.

Lemma failoverInsert_spill_witness :
  RangeCheck (mkRange 100 110) = true
  /\ failoverInsert (build := cool) (mkRange 100 110) S1_world =
       Done (ResOK, mkRange 100 110)
         (mkWorld (ListLand.mk [] 0) (ListLand.mk [mkRange 100 110] 0)
            [EvFlush; EvInsert Primary (mkRange 100 110);
             EvInsert Secondary (mkRange 100 110)]).
Proof.
  split; [reflexivity |].
  exact (failoverInsert_spill (build := cool) S1_world (mkRange 100 110)
           eq_refl).
Defined.

Lemma failoverDelete_not_in_primary_witness :
  RangeCheck (mkRange 50 60) = true
  /\ failoverDelete (build := cool) (mkRange 50 60) S4_world =
       Done (ResFAIL, Some (mkRange 50 60))
         (mkWorld (primary S4_world) (secondary S4_world)
            [EvFlush; EvDelete Primary (mkRange 50 60);
             EvDelete Secondary (mkRange 50 60)]).
Proof.
  split; [reflexivity |].
  exact (failoverDelete_not_in_primary (build := cool) S4_world (mkRange 50 60)
           false (primary S4_world) (secondary S4_world) (mkRange 50 60)
           (primary S4_world) eq_refl eq_refl eq_refl).
Defined.


(** ** The finds *)

(** C5 as amended.  Each of [failoverFindFirst], [failoverFindLast] and
    [failoverFindLargest], for any size and any [findDelete], flushes, queries
    the primary and returns its hit without querying the secondary; only when
    the primary misses is the secondary queried.  In the scenario S5 the
    primary holds [[100,130)], of 30 bytes: [find_largest(15, NONE)] returns
    that range, however many ranges the flush could move. *)
Theorem failoverFind_primary_first :
  (forall P S (LP : Land P) (LS : Land S) (FL : Flush P S) (w : World P S)
          (size : Size) (findDelete : FindDelete),
      failoverFindFirst size findDelete w =
        primaryFirst (fun c => EvFindFirst c size findDelete)
          (landFindFirst size findDelete) (landFindFirst size findDelete) w
      /\ failoverFindLast size findDelete w =
        primaryFirst (fun c => EvFindLast c size findDelete)
          (landFindLast size findDelete) (landFindLast size findDelete) w
      /\ failoverFindLargest size findDelete w =
        primaryFirst (fun c => EvFindLargest c size findDelete)
          (landFindLargest size findDelete) (landFindLargest size findDelete)
          w)
  /\ (forall n : nat,
        result (failoverFindLargest 15 FindDeleteNONE (S5_world n)) =
          Some (true, mkRange 100 130, mkRange 100 130)).
Proof.
  split.
  - intros P S LP LS FL w size fd.
    unfold primaryFirst. run_failover.
    destruct (landFlush (primary w) (secondary w)) as [[b p1] s1]. simpl.
    repeat split.
    + destruct (landFindFirst size fd p1) as [[[found rr] orr] p2].
      destruct found; simpl; norm_calls; [reflexivity |].
      destruct (landFindFirst size fd s1) as [[[f' rr'] orr'] s2].
      norm_calls. reflexivity.
    + destruct (landFindLast size fd p1) as [[[found rr] orr] p2].
      destruct found; simpl; norm_calls; [reflexivity |].
      destruct (landFindLast size fd s1) as [[[f' rr'] orr'] s2].
      norm_calls. reflexivity.
    + destruct (landFindLargest size fd p1) as [[[found rr] orr] p2].
      destruct found; simpl; norm_calls; [reflexivity |].
      destruct (landFindLargest size fd s1) as [[[f' rr'] orr'] s2].
      norm_calls. reflexivity.
  - intros [| n]; reflexivity.
Qed.

(** The scenario S5 as the specification has it: [find_largest(15, NONE)]
    does not return [[200,215)]. *)
Lemma find_largest_S5_not_secondary :
  ~ (exists found oldRange,
       result (failoverFindLargest 15 FindDeleteNONE (S5_world 0)) =
         Some (found, mkRange 200 215, oldRange)).
Proof. intros [found [oldRange E]]. vm_compute in E. discriminate. Qed.



(** ** Iteration *)

Lemma visit_app {C} (visitor : LandVisitor C) (l1 l2 : list Range) :
  forall closure,
    visit visitor (l1 ++ l2) closure =
      let (b1, c1) := visit visitor l1 closure in
      if b1 then visit visitor l2 c1 else (false, c1).
Proof.
  induction l1 as [| b l1 IH]; simpl; intros closure; [reflexivity |].
  destruct (visitor b closure) as [cont c']. destruct cont; auto.
Qed.

Lemma visit_recording {C} (visitor : LandVisitor C) (l : list Range) :
  forall closure seen,
    visit (recording visitor) l (closure, seen) =
      let (b, c) := visit visitor l closure in
      (b, (c, seen ++ visited visitor l closure)).
Proof.
  induction l as [| r l IH]; simpl; intros closure seen.
  - rewrite app_nil_r. reflexivity.
  - destruct (visitor r closure) as [cont c'].
    destruct cont; [| reflexivity].
    rewrite IH. destruct (visit visitor l c') as [b c].
    rewrite <- app_assoc. reflexivity.
Qed.

Lemma visited_all {C} (visitor : LandVisitor C) (l : list Range) :
  (forall range closure, fst (visitor range closure) = true) ->
  forall closure,
    visited visitor l closure = l /\ fst (visit visitor l closure) = true.
Proof.
  intros T. induction l as [| r l IH]; simpl; intros closure; auto.
  pose proof (T r closure) as Tr.
  destruct (visitor r closure) as [cont c']. simpl in Tr; subst cont.
  destruct (IH c') as [-> ?]. auto.
Qed.

(** What [failoverIterate] does over children that keep the contract. *)
Lemma failoverIterate_run {P S} {LP : Land P} {LS : Land S}
    {LLP : LandLaws P} {LLS : LandLaws S} {C} (w : World P S)
    (visitor : LandVisitor C) (closure : C) :
  landInv (primary w) -> landInv (secondary w) ->
  exists p' s',
    landInv p' /\ landInv s'
    /\ landRanges p' = landRanges (primary w)
    /\ landRanges s' = landRanges (secondary w)
    /\ failoverIterate visitor closure w =
         let (b1, c1) := visit visitor (landRanges (primary w)) closure in
         if b1
         then
           let (b2, c2) := visit visitor (landRanges (secondary w)) c1 in
           Done (b1 && b2, c2)
             (mkWorld p' s'
                (calls w ++ [EvIterate Primary; EvIterate Secondary]))
         else
           Done (false, c1)
             (mkWorld p' s' (calls w ++ [EvIterate Primary])).
Proof.
  intros Ip Is.
  pose proof (iterate_inv C visitor closure (primary w) Ip) as Ip'.
  pose proof (iterate_ranges C visitor closure (primary w) Ip) as Rp.
  pose proof (iterate_visit C visitor closure (primary w) Ip) as Vp.
  run_failover.
  destruct (landIterate visitor closure (primary w)) as [[b1 c1] p'].
  simpl in *. rewrite <- Vp. destruct b1; simpl.
  - pose proof (iterate_inv C visitor c1 (secondary w) Is) as Is'.
    pose proof (iterate_ranges C visitor c1 (secondary w) Is) as Rs.
    pose proof (iterate_visit C visitor c1 (secondary w) Is) as Vs.
    destruct (landIterate visitor c1 (secondary w)) as [[b2 c2] s'].
    simpl in *. rewrite <- Vs.
    exists p', s'. repeat split; auto. norm_calls. reflexivity.
  - exists p', (secondary w). repeat split; auto.
Qed.

(** C6 as amended.  Over children that keep the contract of a Land,
    [failoverIterate] is the iteration over the ranges of the primary
    followed by those of the secondary: the visitor sees them in that order,
    up to and including the first range at which it answers false, and all
    of them when it never does.  The secondary is iterated only when the
    iteration of the primary returned true; the result is the conjunction of
    the two flags, and false when the secondary was not iterated.  In the
    scenario S6 the counting visitor is called exactly twice. *)
Theorem failoverIterate_visits :
  (forall P S (LP : Land P) (LS : Land S) (LLP : LandLaws P)
          (LLS : LandLaws S) (w : World P S) (C : Type)
          (visitor : LandVisitor C) (closure : C),
      landInv (primary w) -> landInv (secondary w) ->
      let rangesP := landRanges (primary w) in
      let rangesS := landRanges (secondary w) in
      let b1 := fst (visit visitor rangesP closure) in
      let c1 := snd (visit visitor rangesP closure) in
      let b2 := fst (visit visitor rangesS c1) in
      let c2 := snd (visit visitor rangesS c1) in
      result (failoverIterate visitor closure w) =
        Some (visit visitor (rangesP ++ rangesS) closure)
      /\ result (failoverIterate visitor closure w) =
           Some (if b1 then (b1 && b2, c2) else (false, c1))
      /\ option_map (@calls P S) (final (failoverIterate visitor closure w)) =
           Some (calls w ++ EvIterate Primary ::
                   (if b1 then [EvIterate Secondary] else []))
      /\ option_map (fun r => snd (snd r))
           (result (failoverIterate (recording visitor) (closure, []) w)) =
           Some (visited visitor (rangesP ++ rangesS) closure)
      /\ ((forall range c, fst (visitor range c) = true) ->
          visited visitor (rangesP ++ rangesS) closure = rangesP ++ rangesS))
  /\ (forall n : nat,
        result (failoverIterate counting 0%nat (S6_world n)) =
          Some (true, 2%nat)).
Proof.
  split; [| intros n; reflexivity].
  intros P S LP LS LLP LLS w C visitor closure Ip Is rangesP rangesS.
  split; [| split; [| split; [| split]]].
  - destruct (failoverIterate_run w visitor closure Ip Is)
      as (p' & s' & _ & _ & _ & _ & E).
    rewrite E, visit_app. fold rangesP rangesS.
    destruct (visit visitor rangesP closure) as [b1 c1].
    destruct b1; [| reflexivity].
    destruct (visit visitor rangesS c1) as [b2 c2]. reflexivity.
  - destruct (failoverIterate_run w visitor closure Ip Is)
      as (p' & s' & _ & _ & _ & _ & E).
    rewrite E. fold rangesP rangesS.
    destruct (visit visitor rangesP closure) as [b1 c1]. simpl.
    destruct b1; [| reflexivity].
    destruct (visit visitor rangesS c1) as [b2 c2]. reflexivity.
  - destruct (failoverIterate_run w visitor closure Ip Is)
      as (p' & s' & _ & _ & _ & _ & E).
    rewrite E. fold rangesP rangesS.
    destruct (visit visitor rangesP closure) as [b1 c1]. simpl.
    destruct b1; simpl; [| reflexivity].
    destruct (visit visitor rangesS c1) as [b2 c2]. simpl.
    norm_calls. reflexivity.
  - destruct (failoverIterate_run w (recording visitor) (closure, []) Ip Is)
      as (p' & s' & _ & _ & _ & _ & E).
    rewrite E. fold rangesP rangesS.
    rewrite visit_recording.
    assert (V : visited visitor (rangesP ++ rangesS) closure =
                visited visitor rangesP closure ++
                (if fst (visit visitor rangesP closure)
                 then visited visitor rangesS
                        (snd (visit visitor rangesP closure))
                 else [])).
    { clear. generalize closure. induction rangesP as [| r l IH]; simpl;
        intros c; [reflexivity |].
      destruct (visitor r c) as [cont c']. destruct cont; simpl.
      - rewrite IH. reflexivity.
      - reflexivity. }
    rewrite V.
    destruct (visit visitor rangesP closure) as [b1 c1]. simpl.
    destruct b1; simpl.
    + rewrite visit_recording.
      destruct (visit visitor rangesS c1) as [b2 c2]. reflexivity.
    + rewrite app_nil_r. reflexivity.
  - intros T. apply visited_all. exact T.
Qed.

Lemma failoverIterate_visits_witness :
  landInv (primary (S6_world 0)) /\ landInv (secondary (S6_world 0))
  /\ result (failoverIterate counting 0%nat (S6_world 0)) =
       Some (true, 2%nat)
  /\ option_map (fun r => snd (snd r))
       (result (failoverIterate (recording counting) (0%nat, [])
                  (S6_world 0))) =
       Some [mkRange 0 10; mkRange 10 20].
Proof.
  assert (Ip : landInv (primary (S6_world 0)))
    by (simpl; unfold RangeNonEmpty; simpl; repeat split; auto; lia).
  assert (Is : landInv (secondary (S6_world 0)))
    by (simpl; unfold RangeNonEmpty; simpl; repeat split; auto; lia).
  pose proof (proj1 failoverIterate_visits _ _ _ _ _ _ (S6_world 0) nat
                counting 0%nat Ip Is) as (R & _ & _ & V & _).
  repeat split; auto.
Defined.

(** A visitor that answers false at the first range is not called with the
    range of the secondary: not every visitor sees every range. *)
Lemma iterate_stopping_visitor :
  ~ (forall (C : Type) (visitor : LandVisitor C) (closure : C),
       option_map (fun r => snd (snd r))
         (result (failoverIterate (recording visitor) (closure, [])
                    (S6_world 0))) =
         Some [mkRange 0 10; mkRange 10 20]).
Proof.
  intros H. specialize (H nat stopping 0%nat). vm_compute in H. discriminate.
Qed.

(** ** Which functions flush *)

Section CallsFacts.

Context {P S : Type} {LP : Land P} {LS : Land S} {FL : Flush P S}.
Context {build : Build}.

Lemma appends_ret {A} (a : A) : appends (ret (P := P) (S := S) a).
Proof.
  intros w a' w' E. inversion E; subst. exists []. rewrite app_nil_r; auto.
Qed.

Lemma appends_bind {A B} (m : M P S A) (k : A -> M P S B) :
  appends m -> (forall a, appends (k a)) -> appends (bind m k).
Proof.
  intros Hm Hk w b w' E. unfold bind in E.
  destruct (m w) as [a w1 |] eqn:Em; [| discriminate].
  destruct (Hm _ _ _ Em) as [e1 E1], (Hk a _ _ _ E) as [e2 E2].
  exists (e1 ++ e2). rewrite E2, E1, app_assoc. reflexivity.
Qed.

Lemma appends_AVER (site : Site) (cond : bool) :
  appends (AVER (P := P) (S := S) site cond).
Proof.
  intros w a w' E. unfold AVER in E. destruct cond; inversion E; subst.
  exists []. rewrite app_nil_r; auto.
Qed.

Lemma appends_AVER_CRITICAL (site : Site) (cond : bool) :
  appends (AVER_CRITICAL (P := P) (S := S) site cond).
Proof.
  unfold AVER_CRITICAL. destruct criticalChecks;
    [apply appends_AVER | apply appends_ret].
Qed.

Lemma appends_onChild {A} (c : Child) (ev : Event) (onP : P -> A * P)
    (onS : S -> A * S) :
  appends (onChild c ev onP onS).
Proof.
  intros w a w' E. unfold onChild in E.
  destruct c; [destruct (onP (primary w)) | destruct (onS (secondary w))];
    inversion E; subst; simpl; eauto.
Qed.

Lemma LandFlush_calls (w w' : World P S) (b : bool) :
  LandFlush w = Done b w' -> calls w' = calls w ++ [EvFlush].
Proof.
  unfold LandFlush.
  destruct (landFlush (primary w) (secondary w)) as [[b' p'] s'].
  intros E; inversion E; subst. reflexivity.
Qed.

Ltac prove_appends :=
  repeat match goal with
    | |- appends (ret _) => apply appends_ret
    | |- appends (AVER _ _) => apply appends_AVER
    | |- appends (AVER_CRITICAL _ _) => apply appends_AVER_CRITICAL
    | |- appends (onChild _ _ _ _) => apply appends_onChild
    | |- appends (bind _ _) => apply appends_bind; [| intros ?]
    | |- appends (match ?x with _ => _ end) => destruct x
    | |- appends _ =>
        progress unfold failoverDeleteReturn, RangeInit, LandInsert,
          LandInsertSteal, LandDelete, LandDeleteSteal, LandFindFirst,
          LandFindLast, LandFindLargest, LandFindInZones
    end.

Lemma flushesFirst_checked {A} (check : M P S unit) (rest : M P S A) :
  (forall w u w', check w = Done u w' -> w' = w) -> appends rest ->
  flushesFirst (bind check (fun _ => bind LandFlush (fun _ => rest))).
Proof.
  intros Hc Hr w a w' E. unfold bind in E.
  destruct (check w) as [u w0 |] eqn:Ec; [| discriminate].
  apply Hc in Ec; subst w0.
  destruct (LandFlush w) as [b w1 |] eqn:Ef; [| discriminate].
  apply LandFlush_calls in Ef. destruct (Hr _ _ _ E) as [evs Er].
  exists evs. rewrite Er, Ef, <- app_assoc. reflexivity.
Qed.

Lemma flushesFirst_plain {A} (rest : M P S A) :
  appends rest -> flushesFirst (bind LandFlush (fun _ => rest)).
Proof.
  intros Hr w a w' E. unfold bind in E.
  destruct (LandFlush w) as [b w1 |] eqn:Ef; [| discriminate].
  apply LandFlush_calls in Ef. destruct (Hr _ _ _ E) as [evs Er].
  exists evs. rewrite Er, Ef, <- app_assoc. reflexivity.
Qed.

Lemma AVER_same (site : Site) (cond : bool) (w : World P S) (u : unit)
    (w' : World P S) :
  AVER site cond w = Done u w' -> w' = w.
Proof. unfold AVER. destruct cond; intros E; inversion E; auto. Qed.

Lemma AVER_CRITICAL_same (site : Site) (cond : bool) (w : World P S)
    (u : unit) (w' : World P S) :
  AVER_CRITICAL site cond w = Done u w' -> w' = w.
Proof.
  unfold AVER_CRITICAL. destruct criticalChecks; [apply AVER_same |].
  unfold ret. intros E; inversion E; auto.
Qed.

Lemma failoverInsert_flushes (range : Range) :
  flushesFirst (failoverInsert range).
Proof.
  apply flushesFirst_checked; [apply AVER_CRITICAL_same | prove_appends].
Qed.

Lemma failoverInsertSteal_flushes (rangeIO : Range) :
  flushesFirst (failoverInsertSteal rangeIO).
Proof.
  apply flushesFirst_checked; [apply AVER_same | prove_appends].
Qed.

Lemma failoverDelete_flushes (range : Range) :
  flushesFirst (failoverDelete range).
Proof.
  apply flushesFirst_checked; [apply AVER_same | prove_appends].
Qed.

Lemma failoverDeleteSteal_flushes (range : Range) :
  flushesFirst (failoverDeleteSteal range).
Proof.
  apply flushesFirst_checked; [apply AVER_same | prove_appends].
Qed.

Lemma failoverFind_flushes (size : Size) (findDelete : FindDelete) :
  flushesFirst (failoverFindFirst size findDelete)
  /\ flushesFirst (failoverFindLast size findDelete)
  /\ flushesFirst (failoverFindLargest size findDelete).
Proof.
  repeat split; apply flushesFirst_plain; prove_appends.
Qed.

Lemma failoverFindInZones_flushes (size : Size) (zoneSet : ZoneSet)
    (high : bool) :
  flushesFirst (failoverFindInZones size zoneSet high).
Proof.
  apply flushesFirst_checked; [apply AVER_CRITICAL_same | prove_appends].
Qed.

End CallsFacts.

(** C10.  [failoverIterate] makes no flush: over children that keep the
    contract of a Land (their own iteration leaves their ranges as they
    are), and for a visitor, which has no access to the children, the ranges
    of the primary and of the secondary are the same after the iteration as
    before, and the calls made are iterations only.  The insert, the two
    deletes and every find, when they return, have flushed first. *)
Theorem failoverIterate_no_flush :
  forall P S (LP : Land P) (LS : Land S) (LLP : LandLaws P)
         (LLS : LandLaws S) (FL : Flush P S) (build : Build),
    (forall (w : World P S) (C : Type) (visitor : LandVisitor C)
            (closure : C),
        landInv (primary w) -> landInv (secondary w) ->
        exists a w' evs,
          failoverIterate visitor closure w = Done a w'
          /\ landRanges (primary w') = landRanges (primary w)
          /\ landRanges (secondary w') = landRanges (secondary w)
          /\ calls w' = calls w ++ evs
          /\ ~ In EvFlush evs)
    /\ (forall range : Range,
          flushesFirst (failoverInsert range)
          /\ flushesFirst (failoverDelete range)
          /\ flushesFirst (failoverDeleteSteal range))
    /\ (forall (size : Size) (findDelete : FindDelete),
          flushesFirst (failoverFindFirst size findDelete)
          /\ flushesFirst (failoverFindLast size findDelete)
          /\ flushesFirst (failoverFindLargest size findDelete))
    /\ (forall (size : Size) (zoneSet : ZoneSet) (high : bool),
          flushesFirst (failoverFindInZones size zoneSet high)).
Proof.
  intros P S LP LS LLP LLS FL build. split; [| split; [| split]].
  - intros w C visitor closure Ip Is.
    destruct (failoverIterate_run w visitor closure Ip Is)
      as (p' & s' & _ & _ & Rp & Rs & E).
    rewrite E. destruct (visit visitor (landRanges (primary w)) closure)
      as [b1 c1].
    destruct b1.
    + destruct (visit visitor (landRanges (secondary w)) c1) as [b2 c2].
      eexists _, _, _. repeat split; eauto.
      simpl. intros [H | [H | []]]; discriminate.
    + eexists _, _, _. repeat split; eauto.
      simpl. intros [H | []]; discriminate.
  - intros range. repeat split.
    + apply failoverInsert_flushes.
    + apply failoverDelete_flushes.
    + apply failoverDeleteSteal_flushes.
  - intros size findDelete. apply failoverFind_flushes.
  - intros. apply failoverFindInZones_flushes.
Qed.

Lemma failoverIterate_no_flush_witness :
  landInv (primary (S6_world 2)) /\ landInv (secondary (S6_world 2))
  /\ exists a w' evs,
       failoverIterate counting 0%nat (S6_world 2) = Done a w'
       /\ landRanges (primary w') = [mkRange 0 10]
       /\ landRanges (secondary w') = [mkRange 10 20]
       /\ calls w' = calls (S6_world 2) ++ evs
       /\ ~ In EvFlush evs.
Proof.
  assert (Ip : landInv (primary (S6_world 2)))
    by (simpl; unfold RangeNonEmpty; simpl; repeat split; auto; lia).
  assert (Is : landInv (secondary (S6_world 2)))
    by (simpl; unfold RangeNonEmpty; simpl; repeat split; auto; lia).
  repeat split; auto.
  exact (proj1 (failoverIterate_no_flush _ _ _ _ _ _ _ cool) (S6_world 2) nat
           counting 0%nat Ip Is).
Defined.

(** ** Size *)

Lemma totalSize_app (l1 l2 : list Range) :
  totalSize (l1 ++ l2) = totalSize l1 + totalSize l2.
Proof. induction l1 as [| b l1 IH]; simpl; lia. Qed.

Lemma wfBlocks_filter (f : Range -> bool) (l : list Range) :
  wfBlocks l -> wfBlocks (filter f l).
Proof.
  induction l as [| b l IH]; simpl; auto.
  intros (N & F & W). destruct (f b); simpl; auto.
  repeat split; auto.
  apply wfBlocks_incl_apart with l; auto. apply incl_filter.
Qed.

Lemma totalSize_split (f g : Range -> bool) (l : list Range) :
  Forall (fun x => f x = negb (g x)) l ->
  totalSize l = totalSize (filter f l) + totalSize (filter g l).
Proof.
  induction 1 as [| x l Hx _ IH]; simpl; auto.
  rewrite Hx. destruct (g x); simpl; lia.
Qed.

(** Disjoint non-empty ranges within [[lo, hi)] cover at most [hi - lo]
    addresses. *)
Lemma totalSize_bound (n : nat) :
  forall (l : list Range) (lo hi : Addr),
    (length l <= n)%nat -> wfBlocks l ->
    Forall (fun b => lo <= RangeBase b /\ RangeLimit b <= hi) l ->
    0 <= totalSize l <= Z.max 0 (hi - lo).
Proof.
  induction n as [| n IH]; intros l lo hi Len W B.
  - destruct l; simpl in *; lia.
  - destruct l as [| b l]; simpl in *; [lia |].
    destruct W as (N & F & W). inversion B as [| ? ? [Bl Bh] B']; subst.
    set (below := fun x : Range => RangeLimit x <=? RangeBase b).
    set (above := fun x : Range => RangeLimit b <=? RangeBase x).
    assert (Sp : totalSize l =
                 totalSize (filter below l) + totalSize (filter above l)).
    { apply totalSize_split. rewrite Forall_forall in *. intros x I.
      pose proof (F x I) as O.
      pose proof (wfBlocks_nonempty _ _ W I) as Nx.
      unfold below, above. destruct b, x. zbool. }
    assert (Lb : 0 <= totalSize (filter below l)
                 <= Z.max 0 (RangeBase b - lo)).
    { apply IH.
      - pose proof (filter_length_le below l). lia.
      - apply wfBlocks_filter; auto.
      - rewrite Forall_forall in *. intros x I.
        apply filter_In in I as [I Hx]. unfold below in Hx.
        destruct (B' x I). zbool. }
    assert (La : 0 <= totalSize (filter above l)
                 <= Z.max 0 (hi - RangeLimit b)).
    { apply IH.
      - pose proof (filter_length_le above l). lia.
      - apply wfBlocks_filter; auto.
      - rewrite Forall_forall in *. intros x I.
        apply filter_In in I as [I Hx]. unfold above in Hx.
        destruct (B' x I). zbool. }
    unfold RangeNonEmpty, RangeSize in *. lia.
Qed.

(** C3.  [failoverSize] returns the sum of C, modulo [2 ^ wordWidth], of the
    size of the primary and the size of the secondary.  For a valid Failover
    (its children keep the contract of a Land, no address is free in both and
    the ranges are ranges of machine addresses) the sum does not wrap:
    [failoverSize] returns exactly the size of the primary plus the size of
    the secondary. *)
Theorem failoverSize_additive :
  forall P S (LP : Land P) (LS : Land S) (LLP : LandLaws P)
         (LLS : LandLaws S) (build : Build) (w : World P S),
    failoverSize w =
      (landSize (primary w) + landSize (secondary w)) mod 2 ^ wordWidth
    /\ (FailoverValid w ->
        failoverSize w = landSize (primary w) + landSize (secondary w)).
Proof.
  intros P S LP LS LLP LLS build w. split; [reflexivity |].
  intros [[Ip Is D] A].
  unfold failoverSize, wrap, LandSize.
  rewrite (size_total _ Ip), (size_total _ Is), <- totalSize_app.
  pose proof (inv_wf _ Ip) as Wp. pose proof (inv_wf _ Is) as Ws.
  assert (W : wfBlocks (landRanges (primary w) ++ landRanges (secondary w))).
  { apply wfBlocks_app. repeat split; auto.
    apply Forall_forall. intros b1 I1. apply Forall_forall. intros b2 I2.
    destruct (RangesOverlap b1 b2) eqn:O; auto. exfalso.
    destruct (overlap_true_common (wfBlocks_nonempty _ _ Wp I1)
                (wfBlocks_nonempty _ _ Ws I2) O) as [a [R1 R2]].
    apply (D a). split; [exists b1 | exists b2]; auto. }
  set (l := landRanges (primary w) ++ landRanges (secondary w)) in *.
  assert (B : 0 <= totalSize l <= Z.max 0 (2 ^ wordWidth - 1 - 0)).
  { apply (totalSize_bound (length l)); auto.
    rewrite Forall_forall in *. intros b I. destruct (A b I).
    unfold inAddressSpace in *. lia. }
  destruct (Z.eq_dec (totalSize l) 0) as [-> | NZ].
  - apply Zmod_0_l.
  - apply Z.mod_small. lia.
Qed.

Lemma failoverSize_additive_witness :
  FailoverValid (build := cool) (S5_world 0)
  /\ failoverSize (build := cool) (S5_world 0) = 40 + 15.
Proof.
  assert (V : FailoverValid (build := cool) (S5_world 0)).
  { split; [split |]; simpl.
    - unfold RangeNonEmpty; simpl; repeat split; auto; try lia.
    - unfold RangeNonEmpty; simpl; repeat split; auto; lia.
    - intros a [[b1 [I1 R1]] [b2 [I2 R2]]]. simpl in I1, I2.
      unfold InRange in *.
      destruct I1 as [<- | [<- | []]], I2 as [<- | []]; simpl in *; lia.
    - unfold inAddressSpace; simpl.
      repeat constructor; simpl; lia. }
  split; [exact V |].
  exact (proj2 (failoverSize_additive _ _ _ _ _ _ cool (S5_world 0)) V).
Defined.

(** ** Delete and its recovery *)

Lemma Res_eqb_refl (res : Res) : Res_eqb res res = true.
Proof. apply Res_eqb_eq. reflexivity. Qed.

Lemma Res_neqb {a b : Res} : a <> b -> Res_eqb a b = false.
Proof. apply Res_eqb_neq. Qed.

Ltac not_site :=
  let E := fresh in
  intros E; inversion E; subst;
  match goal with H : _ \/ _ |- _ => destruct H; discriminate end.

Section DeletePaths.

Context {P S : Type} {LP : Land P} {LS : Land S} {FL : Flush P S}.
Context {build : Build}.

(** The paths of [failoverDelete]. *)
Lemma failoverDelete_paths (range : Range) (w : World P S) :
  failoverDelete range w =
    if RangeCheck range then
      let '(_, p1, s1) := landFlush (primary w) (secondary w) in
      let '(res, oldRange, p2) := landDelete range p1 in
      let w2 := mkWorld p2 s1 (calls w ++ [EvFlush; EvDelete Primary range]) in
      if res == ResFAIL then
        let '(res', rangeReturn, s2) := landDelete range s1 in
        Done (res', Some rangeReturn)
          (mkWorld p2 s2 (calls w2 ++ [EvDelete Secondary range]))
      else if res != ResOK then
        if ResIsAllocFailure res then
          let '(res', dummyRange, p3) := landDelete oldRange p2 in
          let w3 := mkWorld p3 s1 (calls w2 ++ [EvDelete Primary oldRange]) in
          if res' != ResOK then Done (res', None) w3
          else if RangesEqual oldRange dummyRange
               then reinsertFragments res' oldRange range w3
               else Abort DeleteRangesEqual
        else Abort DeleteAllocFailure
      else failoverDeleteReturn res oldRange range w2
    else Abort DeleteRangeCheck.
Proof.
  unfold failoverDelete, reinsertFragments, reinsertBlock.
  unfold bind at 1. unfold AVER at 1.
  destruct (RangeCheck range); [| reflexivity].
  unfold bind at 1. unfold LandFlush at 1.
  destruct (landFlush (primary w) (secondary w)) as [[b p1] s1].
  unfold bind at 1. unfold LandDelete at 1, onChild at 1. simpl.
  destruct (landDelete range p1) as [[res oldRange] p2].
  rewrite <- app_assoc. simpl.
  destruct (res == ResFAIL).
  - unfold bind, LandDelete, onChild, ret. simpl.
    destruct (landDelete range s1) as [[res' rr] s2]. reflexivity.
  - destruct (res != ResOK); [| reflexivity].
    unfold bind at 1. unfold AVER at 1.
    destruct (ResIsAllocFailure res); [| reflexivity].
    unfold bind at 1. unfold LandDelete at 1, onChild at 1. simpl.
    destruct (landDelete oldRange p2) as [[res' dummyRange] p3].
    destruct (res' != ResOK); [reflexivity |].
    unfold bind at 1. unfold AVER at 1.
    destruct (RangesEqual oldRange dummyRange); reflexivity.
Qed.

End DeletePaths.

Section PrimaryRecovery.

Context {P S : Type} {LP : Land P} {LS : Land S} {LLP : LandLaws P}.

Lemma failoverDeleteReturn_site {build : Build} (res : Res)
    (oldRange range : Range) (w : World P S) (site : Site) :
  site = DeleteLeftNotFAIL \/ site = DeleteRightNotFAIL ->
  failoverDeleteReturn res oldRange range w <> Abort site.
Proof.
  intros Hs. unfold failoverDeleteReturn.
  destruct (res == ResOK); [| unfold ret; not_site].
  unfold bind, AVER_CRITICAL, AVER, ret.
  destruct criticalChecks, (RangesNest oldRange range); not_site.
Qed.

Lemma nonempty_of_check (range : Range) :
  RangeCheck range = true -> RangeIsEmpty range = false -> RangeNonEmpty range.
Proof. destruct range. zbool. Qed.

(** Re-inserting a fragment none of whose addresses is free in the primary:
    the primary does not answer [ResFAIL], and gains at most the fragment. *)
Lemma reinsertBlock_primary (notFAIL secondaryOK : Site) (res0 : Res)
    (fragment : Range) (w : World P S) :
  landInv (primary w) -> RangeCheck fragment = true ->
  (forall a, InRange a fragment -> ~ landFree (primary w) a) ->
  match reinsertBlock notFAIL secondaryOK res0 fragment w with
  | Abort site => site = secondaryOK
  | Done res w' =>
      landInv (primary w')
      /\ forall a, landFree (primary w') a ->
                   landFree (primary w) a \/ InRange a fragment
  end.
Proof.
  intros Ip C Hfree. unfold reinsertBlock.
  destruct (RangeIsEmpty fragment) eqn:E; simpl.
  - unfold ret. auto.
  - pose proof (nonempty_of_check fragment C E) as N.
    unfold bind, LandInsert, onChild, AVER, ret. simpl.
    destruct (landInsert fragment (primary w)) as [[res rr] p'] eqn:Ei.
    pose proof (insert_inv _ _ _ _ _ Ip N Ei) as Ip'.
    destruct (Res_eq_dec res ResOK) as [-> | NOK].
    + simpl. split; auto. intros a Fa.
      apply (insert_ok _ _ _ _ Ip N Ei). exact Fa.
    + rewrite (Res_neqb NOK). simpl.
      destruct (Res_eq_dec res ResFAIL) as [-> | NFAIL].
      * exfalso. destruct (insert_FAIL _ _ _ _ Ip N Ei) as [a [Ra Fa]].
        exact (Hfree a Ra Fa).
      * rewrite (Res_neqb NFAIL). simpl.
        destruct (landInsert fragment (secondary w)) as [[res' rr'] s'].
        destruct (res' == ResOK); simpl; auto.
        split; auto. intros a Fa. left. unfold landFree in *.
        rewrite <- (insert_failed _ _ _ _ _ Ip N Ei NOK). exact Fa.
Qed.

Context {build : Build}.

Lemma reinsertFragments_never_FAIL (res : Res) (oldRange range : Range)
    (w : World P S) :
  landInv (primary w) -> RangeCheck range = true ->
  RangesNest oldRange range = true ->
  (forall a, InRange a oldRange -> ~ landFree (primary w) a) ->
  forall site, site = DeleteLeftNotFAIL \/ site = DeleteRightNotFAIL ->
  reinsertFragments res oldRange range w <> Abort site.
Proof.
  intros Ip C N Hfree site Hs.
  assert (Cl : RangeCheck (mkRange (RangeBase oldRange) (RangeBase range))
               = true) by (destruct oldRange, range; zbool).
  assert (Cr : RangeCheck (mkRange (RangeLimit range) (RangeLimit oldRange))
               = true) by (destruct oldRange, range; zbool).
  unfold RangeCheck in Cl, Cr. simpl in Cl, Cr.
  unfold reinsertFragments.
  unfold bind at 1. unfold RangeInit at 1, bind at 1, AVER at 1.
  rewrite Cl. unfold ret at 1.
  unfold bind at 1.
  pose proof (reinsertBlock_primary DeleteLeftNotFAIL DeleteLeftSecondaryOK
                res (mkRange (RangeBase oldRange) (RangeBase range)) w Ip Cl)
    as Hl.
  assert (Hfree0 : forall a,
            InRange a (mkRange (RangeBase oldRange) (RangeBase range)) ->
            ~ landFree (primary w) a).
  { intros a Ra. apply Hfree. destruct oldRange, range; zbool. }
  specialize (Hl Hfree0).
  destruct (reinsertBlock DeleteLeftNotFAIL DeleteLeftSecondaryOK res _ w)
    as [res1 w1 | site1]; [| simpl in Hl; subst; not_site].
  destruct Hl as [Ip1 Hl].
  unfold bind at 1. unfold RangeInit at 1, bind at 1, AVER at 1.
  rewrite Cr. unfold ret at 1.
  unfold bind at 1.
  pose proof (reinsertBlock_primary DeleteRightNotFAIL DeleteRightSecondaryOK
                res1 (mkRange (RangeLimit range) (RangeLimit oldRange)) w1
                Ip1 Cr) as Hr.
  assert (Hfree1 : forall a,
            InRange a (mkRange (RangeLimit range) (RangeLimit oldRange)) ->
            ~ landFree (primary w1) a).
  { intros a Ra Fa. apply Hl in Fa as [Fa | Fa].
    - apply (Hfree a); auto. destruct oldRange, range; zbool.
    - destruct oldRange, range; zbool. }
  specialize (Hr Hfree1).
  destruct (reinsertBlock DeleteRightNotFAIL DeleteRightSecondaryOK res1 _ w1)
    as [res2 w2 | site2]; [| simpl in Hr; subst; not_site].
  apply failoverDeleteReturn_site; auto.
Qed.

End PrimaryRecovery.

(** C9.  On the recovery path of [failoverDelete], once the primary (which
    keeps the contract of a Land) has deleted the whole of the old range, no
    address of that range is free in it: its insert of a non-empty fragment
    of the old range does not answer [ResFAIL], and [failoverDelete] never
    stops at either of its assertions that the primary's answer is not
    [ResFAIL]. *)
Theorem reinsert_never_FAIL :
  forall P S (LP : Land P) (LS : Land S) (LLP : LandLaws P) (FL : Flush P S)
         (build : Build) (w : World P S) (range : Range)
         (b : bool) (p1 : P) (s1 : S),
    landFlush (primary w) (secondary w) = (b, p1, s1) ->
    landInv p1 -> RangeCheck range = true ->
    (forall res oldRange p2 dummyRange p3 fragment,
        landDelete range p1 = (res, oldRange, p2) -> res <> ResFAIL ->
        landDelete oldRange p2 = (ResOK, dummyRange, p3) ->
        RangeNonEmpty fragment -> RangesNest oldRange fragment = true ->
        fst (fst (landInsert fragment p3)) <> ResFAIL)
    /\ failoverDelete range w <> Abort DeleteLeftNotFAIL
    /\ failoverDelete range w <> Abort DeleteRightNotFAIL.
Proof.
  intros P S LP LS LLP FL build w range b p1 s1 Ef Ip1 C.
  assert (Gone : forall res oldRange p2 dummyRange p3,
            landDelete range p1 = (res, oldRange, p2) -> res <> ResFAIL ->
            landDelete oldRange p2 = (ResOK, dummyRange, p3) ->
            landInv p3 /\ RangesNest oldRange range = true
            /\ forall a, InRange a oldRange -> ~ landFree p3 a).
  { intros res oldRange p2 dummyRange p3 Ed1 NF Ed2.
    destruct (delete_found _ _ _ _ _ Ip1 C Ed1 NF) as [Io N].
    pose proof (delete_inv _ _ _ _ _ Ip1 C Ed1) as Ip2.
    pose proof (wfBlocks_nonempty _ _ (inv_wf _ Ip1) Io) as No.
    assert (Co : RangeCheck oldRange = true) by (destruct oldRange; zbool).
    split; [exact (delete_inv _ _ _ _ _ Ip2 Co Ed2) |]. split; [exact N |].
    intros a Ra Fa. apply (delete_ok _ _ _ _ Ip2 Co Ed2) in Fa. tauto. }
  split.
  - intros res oldRange p2 dummyRange p3 fragment Ed1 NF Ed2 Nf Nest.
    destruct (Gone _ _ _ _ _ Ed1 NF Ed2) as (Ip3 & N & Free).
    destruct (landInsert fragment p3) as [[res' rr] p4] eqn:Ei. simpl.
    intros ->. destruct (insert_FAIL _ _ _ _ Ip3 Nf Ei) as [a [Ra Fa]].
    exact (Free a (nest_in Nest Ra) Fa).
  - assert (G : forall site,
              site = DeleteLeftNotFAIL \/ site = DeleteRightNotFAIL ->
              failoverDelete range w <> Abort site); [| split; apply G; auto].
    intros site Hs. rewrite failoverDelete_paths, C, Ef.
    destruct (landDelete range p1) as [[res oldRange] p2] eqn:Ed1.
    destruct (Res_eq_dec res ResFAIL) as [-> | NF].
    { simpl. destruct (landDelete range s1) as [[res' rr] s2]. not_site. }
    rewrite (Res_neqb NF).
    destruct (Res_eq_dec res ResOK) as [-> | NOK].
    { simpl. apply failoverDeleteReturn_site; auto. }
    rewrite (Res_neqb NOK). simpl.
    destruct (ResIsAllocFailure res); [| not_site].
    destruct (landDelete oldRange p2) as [[res' dummyRange] p3] eqn:Ed2.
    destruct (Res_eq_dec res' ResOK) as [-> | NOK'].
    2:{ rewrite (Res_neqb NOK'). simpl. not_site. }
    simpl. destruct (RangesEqual oldRange dummyRange); [| not_site].
    destruct (Gone _ _ _ _ _ eq_refl NF Ed2) as (Ip3 & N & Free).
    apply reinsertFragments_never_FAIL; auto.
Qed.

Lemma reinsert_never_FAIL_witness :
  landFlush (primary S3_world) (secondary S3_world) =
    (true, primary S3_world, secondary S3_world)
  /\ landInv (primary S3_world)
  /\ RangeCheck (mkRange 40 60) = true
  /\ fst (fst (landInsert (mkRange 0 40) (ListLand.mk (bounded := true) [] 1)))
       <> ResFAIL
  /\ failoverDelete (build := cool) (mkRange 40 60) S3_world
       <> Abort DeleteLeftNotFAIL
  /\ failoverDelete (build := cool) (mkRange 40 60) S3_world
       <> Abort DeleteRightNotFAIL.
Proof.
  assert (Ip : landInv (primary S3_world))
    by (simpl; unfold RangeNonEmpty; simpl; repeat split; auto; lia).
  pose proof (reinsert_never_FAIL _ _ _ _ _ _ cool S3_world (mkRange 40 60)
                true (primary S3_world) (secondary S3_world)
                eq_refl Ip eq_refl) as (F & L & R).
  repeat split; auto.
  apply (F ResMEMORY (mkRange 0 100) (primary S3_world) (mkRange 0 100)
           (ListLand.mk [] 1) (mkRange 0 40));
    try reflexivity; discriminate.
Defined.

Section FullRecovery.

Context {P S : Type} {LP : Land P} {LS : Land S}.
Context {LLP : LandLaws P} {LLS : LandLaws S}.

Lemma empty_range (range : Range) (a : Addr) :
  RangeIsEmpty range = true -> ~ InRange a range.
Proof. destruct range. zbool. Qed.

(** Re-inserting a fragment none of whose addresses is free: the fragment
    becomes free, in the primary or else in the secondary. *)
Lemma reinsertBlock_ok (notFAIL secondaryOK : Site) (fragment : Range)
    (w : World P S) :
  Consistent w -> AdmitsFreed S -> RangeCheck fragment = true ->
  (forall a, InRange a fragment -> ~ failoverFree w a) ->
  reinsertBlock notFAIL secondaryOK ResOK fragment w =
    Done ResOK (reinsert fragment w)
  /\ Consistent (reinsert fragment w)
  /\ forall a, failoverFree (reinsert fragment w) a
               <-> failoverFree w a \/ InRange a fragment.
Proof.
  intros [Ip Is D] NE C Hfree. unfold reinsertBlock, reinsert.
  destruct (RangeIsEmpty fragment) eqn:E; simpl.
  - split; [reflexivity |]. split; [split; auto |].
    intros a. pose proof (empty_range fragment a E). tauto.
  - pose proof (nonempty_of_check fragment C E) as N.
    unfold bind, LandInsert, onChild, AVER, ret. simpl.
    destruct (landInsert fragment (primary w)) as [[res rr] p'] eqn:Ei.
    pose proof (insert_inv _ _ _ _ _ Ip N Ei) as Ip'.
    destruct (Res_eq_dec res ResOK) as [-> | NOK].
    + simpl. pose proof (insert_ok _ _ _ _ Ip N Ei) as A.
      split; [reflexivity |]. split.
      * split; simpl; auto. intros a [Fp Fs]. apply A in Fp as [Fp | Ra].
        -- exact (D a (conj Fp Fs)).
        -- exact (Hfree a Ra (or_intror Fs)).
      * intros a. unfold failoverFree, landFree. simpl. rewrite A. tauto.
    + rewrite (Res_neqb NOK). simpl.
      destruct (Res_eq_dec res ResFAIL) as [-> | NFAIL].
      { exfalso. destruct (insert_FAIL _ _ _ _ Ip N Ei) as [a [Ra Fa]].
        exact (Hfree a Ra (or_introl Fa)). }
      rewrite (Res_neqb NFAIL). simpl.
      pose proof (insert_failed _ _ _ _ _ Ip N Ei NOK) as K.
      assert (NEs : fst (fst (landInsert fragment (secondary w))) = ResOK).
      { apply NE; auto. intros a Ra Fa. exact (Hfree a Ra (or_intror Fa)). }
      destruct (landInsert fragment (secondary w)) as [[res' rr'] s'] eqn:Es.
      simpl in NEs. subst res'.
      pose proof (insert_inv _ _ _ _ _ Is N Es) as Is'.
      simpl. pose proof (insert_ok _ _ _ _ Is N Es) as A.
      split; [rewrite <- app_assoc; reflexivity |]. split.
      * split; simpl; auto. intros a [Fp Fs].
        unfold landFree in Fp. rewrite K in Fp.
        apply A in Fs as [Fs | Ra].
        -- exact (D a (conj Fp Fs)).
        -- exact (Hfree a Ra (or_introl Fp)).
      * intros a. unfold failoverFree, landFree. simpl. rewrite K, A. tauto.
Qed.

Context {build : Build}.

Lemma reinsertFragments_ok (oldRange range : Range) (w : World P S) :
  Consistent w -> AdmitsFreed S -> RangeCheck range = true ->
  RangesNest oldRange range = true ->
  (forall a, InRange a oldRange -> ~ failoverFree w a) ->
  reinsertFragments ResOK oldRange range w =
    Done (ResOK, Some oldRange) (recover oldRange range w)
  /\ forall a, failoverFree (recover oldRange range w) a
               <-> failoverFree w a
                   \/ (InRange a oldRange /\ ~ InRange a range).
Proof.
  intros Cw NE C N Hfree.
  assert (Cl : RangeCheck (mkRange (RangeBase oldRange) (RangeBase range))
               = true) by (destruct oldRange, range; zbool).
  assert (Cr : RangeCheck (mkRange (RangeLimit range) (RangeLimit oldRange))
               = true) by (destruct oldRange, range; zbool).
  unfold reinsertFragments, recover. simpl.
  set (left := mkRange (RangeBase oldRange) (RangeBase range)) in *.
  set (right := mkRange (RangeLimit range) (RangeLimit oldRange)) in *.
  assert (Hl : forall a, InRange a left -> ~ failoverFree w a).
  { intros a Ra. apply Hfree. subst left. destruct oldRange, range; zbool. }
  destruct (reinsertBlock_ok DeleteLeftNotFAIL DeleteLeftSecondaryOK left w
              Cw NE Cl Hl) as (El & Cw1 & Fl).
  assert (Hr : forall a, InRange a right -> ~ failoverFree (reinsert left w) a).
  { intros a Ra Fa. apply Fl in Fa as [Fa | Fa].
    - apply (Hfree a); auto. subst right. destruct oldRange, range; zbool.
    - subst left right. destruct oldRange, range; zbool. }
  destruct (reinsertBlock_ok DeleteRightNotFAIL DeleteRightSecondaryOK right
              (reinsert left w) Cw1 NE Cr Hr) as (Er & Cw2 & Fr).
  split.
  - unfold bind at 1. unfold RangeInit at 1, bind at 1, AVER at 1.
    unfold RangeCheck in Cl. simpl in Cl. rewrite Cl. unfold ret at 1.
    fold left. unfold bind at 1. rewrite El.
    unfold bind at 1. unfold RangeInit at 1, bind at 1, AVER at 1.
    unfold RangeCheck in Cr. simpl in Cr. rewrite Cr. unfold ret at 1.
    fold right. unfold bind at 1. rewrite Er.
    unfold failoverDeleteReturn. simpl.
    unfold bind, AVER_CRITICAL, AVER, ret. rewrite N.
    destruct criticalChecks; reflexivity.
  - intros a. rewrite Fr, Fl.
    assert (Fg : InRange a left \/ InRange a right
                 <-> InRange a oldRange /\ ~ InRange a range)
      by (subst left right; destruct oldRange, range; zbool).
    tauto.
Qed.

End FullRecovery.

(** C1.  Let the children keep the contract of a Land, with no address
    free in both: the primary's delete of a whole range that it holds
    succeeds, and the secondary's insert of a range that is not free in it
    succeeds.  When, after the flush, the primary answers the delete of the
    range with an allocation failure (the recovery path), it reports an old
    range that it held before and that contains the range; its delete of the
    whole old range answers [ResOK]; [failoverDelete] returns [ResOK] and the
    old range; the free addresses are those of before less the addresses of
    the range; and the fragments are re-inserted as [recover] has it: each
    one only when non-empty, into the primary first and into the secondary
    when the primary fails. *)
Theorem failoverDelete_recovery :
  forall P S (LP : Land P) (LS : Land S) (LLP : LandLaws P)
         (LLS : LandLaws S) (FL : Flush P S) (FLL : FlushLaws P S)
         (build : Build) (w : World P S) (range : Range)
         (b : bool) (p1 : P) (s1 : S) (res : Res) (oldRange : Range) (p2 : P)
         (res' : Res) (dummyRange : Range) (p3 : P),
    Consistent w -> ReleasesWhole P -> AdmitsFreed S ->
    RangeCheck range = true ->
    landFlush (primary w) (secondary w) = (b, p1, s1) ->
    landDelete range p1 = (res, oldRange, p2) ->
    ResIsAllocFailure res = true ->
    landDelete oldRange p2 = (res', dummyRange, p3) ->
    let w3 :=
      mkWorld p3 s1
        (calls w ++ [EvFlush; EvDelete Primary range;
                     EvDelete Primary oldRange]) in
    In oldRange (landRanges p1)
    /\ RangesNest oldRange range = true
    /\ res' = ResOK
    /\ failoverDelete range w =
         Done (ResOK, Some oldRange) (recover oldRange range w3)
    /\ forall a, failoverFree (recover oldRange range w3) a
                 <-> failoverFree w a /\ ~ InRange a range.
Proof.
  intros P S LP LS LLP LLS FL FLL build w range b p1 s1 res oldRange p2
    res' dummyRange p3 [Ip Is D] RW AF C Ef Ed1 Alloc Ed2 w3.
  destruct (flush_inv _ _ _ _ _ Ip Is Ef) as [Ip1 Is1].
  pose proof (flush_union _ _ _ _ _ Ip Is Ef) as U.
  pose proof (flush_disjoint _ _ _ _ _ Ip Is Ef D) as D1.
  assert (NF : res <> ResFAIL) by (intros ->; discriminate).
  assert (NOK : res <> ResOK) by (intros ->; discriminate).
  destruct (delete_found _ _ _ _ _ Ip1 C Ed1 NF) as [Io N].
  pose proof (delete_failed _ _ _ _ _ Ip1 C Ed1 NOK) as K2.
  pose proof (delete_inv _ _ _ _ _ Ip1 C Ed1) as Ip2.
  pose proof (wfBlocks_nonempty _ _ (inv_wf _ Ip1) Io) as No.
  assert (Co : RangeCheck oldRange = true) by (destruct oldRange; zbool).
  pose proof (delete_inv _ _ _ _ _ Ip2 Co Ed2) as Ip3.
  assert (Old : forall a, InRange a oldRange -> landFree p1 a)
    by (intros a Ra; exists oldRange; auto).
  assert (Whole : res' = ResOK).
  { assert (I2 : In oldRange (landRanges p2)) by (rewrite K2; exact Io).
    pose proof (RW oldRange p2 Ip2 I2) as H. rewrite Ed2 in H. exact H. }
  subst res'.
  assert (Paths : failoverDelete range w =
            if RangesEqual oldRange dummyRange
            then reinsertFragments ResOK oldRange range w3
            else Abort DeleteRangesEqual).
  { rewrite failoverDelete_paths, C, Ef, Ed1, (Res_neqb NF), (Res_neqb NOK).
    simpl. rewrite Alloc, Ed2. simpl. rewrite <- app_assoc. reflexivity. }
  split; [exact Io |]. split; [exact N |]. split; [reflexivity |].
  rewrite Paths.
  assert (NF' : ResOK <> ResFAIL) by discriminate.
  destruct (delete_found _ _ _ _ _ Ip2 Co Ed2 NF') as [Id Nd].
  assert (Eq : dummyRange = oldRange).
  { apply (wfBlocks_unique (landRanges p2) dummyRange oldRange
             (RangeBase oldRange) (inv_wf _ Ip2) Id).
    - rewrite K2. exact Io.
    - destruct dummyRange, oldRange. zbool.
    - destruct oldRange. zbool. }
  subst dummyRange.
  assert (Er : RangesEqual oldRange oldRange = true)
    by (apply RangesEqual_eq; reflexivity).
  rewrite Er.
  pose proof (delete_ok _ _ _ _ Ip2 Co Ed2) as Rm.
  assert (Cw3 : Consistent w3).
  { split; simpl; auto. intros a [Fp Fs]. apply Rm in Fp as [Fp _].
    unfold landFree in *. rewrite K2 in Fp. exact (D1 a (conj Fp Fs)). }
  assert (Gone : forall a, InRange a oldRange -> ~ failoverFree w3 a).
  { intros a Ra [Fp | Fs]; simpl in *.
    - apply Rm in Fp. tauto.
    - exact (D1 a (conj (Old a Ra) Fs)). }
  destruct (reinsertFragments_ok oldRange range w3 Cw3 AF C N Gone)
    as [Erun Ffree].
  split; [exact Erun |].
  intros a. rewrite Ffree. unfold failoverFree at 1. simpl.
  unfold landFree at 1. rewrite Rm, K2.
  pose proof (U a) as Ua. pose proof (D1 a) as Da.
  pose proof (Old a) as Oa. pose proof (@nest_in _ _ a N) as Na.
  assert (Dec : InRange a oldRange \/ ~ InRange a oldRange)
    by (unfold InRange; lia).
  unfold failoverFree, landFree in *. tauto.
Qed.

Lemma failoverDelete_recovery_witness :
  Consistent S3_world
  /\ ReleasesWhole (ListLand.t true)
  /\ AdmitsFreed (ListLand.t false)
  /\ RangeCheck (mkRange 40 60) = true
  /\ landDelete (mkRange 40 60) (primary S3_world) =
       (ResMEMORY, mkRange 0 100, primary S3_world)
  /\ failoverDelete (build := cool) (mkRange 40 60) S3_world =
       Done (ResOK, Some (mkRange 0 100))
         (mkWorld (ListLand.mk [mkRange 0 40] 0)
            (ListLand.mk [mkRange 60 100] 0)
            [EvFlush; EvDelete Primary (mkRange 40 60);
             EvDelete Primary (mkRange 0 100);
             EvInsert Primary (mkRange 0 40);
             EvInsert Primary (mkRange 60 100);
             EvInsert Secondary (mkRange 60 100)])
  /\ forall a,
       (landFree (ListLand.mk (bounded := true) [mkRange 0 40] 0) a
        \/ landFree (ListLand.mk (bounded := false) [mkRange 60 100] 0) a)
       <-> failoverFree S3_world a /\ ~ InRange a (mkRange 40 60).
Proof.
  assert (Cw : Consistent S3_world).
  { split; simpl.
    - unfold RangeNonEmpty; simpl; repeat split; auto; lia.
    - exact I.
    - intros a [_ [b [[] _]]]. }
  assert (RW : ReleasesWhole (ListLand.t true))
    by exact ListLandFacts.releases_whole.
  assert (AF : AdmitsFreed (ListLand.t false))
    by exact (never_exhausted_admits ListLandFacts.never_exhausted).
  pose proof (failoverDelete_recovery _ _ _ _ _ _ _ _ cool S3_world
                (mkRange 40 60) true (primary S3_world) (secondary S3_world)
                ResMEMORY (mkRange 0 100) (primary S3_world)
                ResOK (mkRange 0 100) (ListLand.mk [] 1)
                Cw RW AF eq_refl eq_refl eq_refl eq_refl eq_refl)
    as (_ & _ & _ & E & F).
  split; [exact Cw |]. split; [exact RW |]. split; [exact AF |].
  split; [reflexivity |]. split; [reflexivity |]. split; [exact E |].
  intros a. exact (F a).
Defined.

(** * Further properties of the Failover *)

(** ** deleteSteal *)

Section MoreDelegation.

Context {P S : Type} {LP : Land P} {LS : Land S} {FL : Flush P S}.
Context {build : Build}.


End MoreDelegation.


(** ** What delete returns, and the spill policy *)

Lemma RangesEqual_refl (r : Range) : RangesEqual r r = true.
Proof. apply RangesEqual_eq. reflexivity. Qed.

Lemma spillsFollowPrimary_sound (evs : list Event) :
  forall prev pre r post,
    spillsFollowPrimary prev evs = true ->
    evs = pre ++ EvInsert Secondary r :: post ->
    (pre = [] /\ prev = Some (EvInsert Primary r))
    \/ exists pre', pre = pre' ++ [EvInsert Primary r].
Proof.
  induction evs as [| e evs IH]; intros prev pre r post H E.
  - destruct pre; discriminate.
  - simpl in H. apply andb_true_iff in H as [He Hr].
    destruct pre as [| x pre]; simpl in E; inversion E; subst.
    + left. split; auto.
      destruct prev as [[| [] r' | | | | | | | |] |]; try discriminate.
      apply RangesEqual_eq in He. subst. reflexivity.
    + right. destruct (IH _ _ _ _ Hr eq_refl) as [[-> Hx] | [pre' ->]].
      * inversion Hx; subst. exists []. reflexivity.
      * exists (x :: pre'). reflexivity.
Qed.

Lemma spillPolicy_checked (evs : list Event) :
  spillsFollowPrimary None evs = true -> spillPolicy evs.
Proof.
  intros H pre r post E.
  destruct (spillsFollowPrimary_sound evs None pre r post H E)
    as [[_ Hn] | Hp]; [discriminate | exact Hp].
Qed.

Section DeleteShape.

Context {P S : Type} {LP : Land P} {LS : Land S}.

Lemma reinsertBlock_shape (notFAIL secondaryOK : Site) (res0 : Res)
    (fragment : Range) (w : World P S) (res : Res) (w' : World P S) :
  reinsertBlock notFAIL secondaryOK res0 fragment w = Done res w' ->
  (res = res0 \/ res = ResOK)
  /\ (secondary w' = secondary w
      \/ exists rr, landInsert fragment (secondary w) = (ResOK, rr, secondary w'))
  /\ exists evs, calls w' = calls w ++ evs /\ fragmentCalls fragment evs.
Proof.
  unfold reinsertBlock, fragmentCalls.
  destruct (RangeIsEmpty fragment); simpl.
  - unfold ret. intros E; inversion E; subst. split; auto. split; auto.
    exists []. rewrite app_nil_r. auto.
  - unfold bind, LandInsert, onChild, AVER, ret. simpl.
    destruct (landInsert fragment (primary w)) as [[r1 rr] p'].
    destruct (Res_eq_dec r1 ResOK) as [-> | NOK].
    + simpl. intros E; inversion E; subst. simpl. split; auto. split; auto.
      eexists. split; [reflexivity |]. auto.
    + rewrite (Res_neqb NOK). simpl.
      destruct (r1 != ResFAIL); [| discriminate]. simpl.
      destruct (landInsert fragment (secondary w)) as [[r2 rr2] s'] eqn:Es.
      destruct (Res_eq_dec r2 ResOK) as [-> | NOK2].
      * rewrite Res_eqb_refl. intros E; inversion E; subst. simpl.
        split; [right; reflexivity |].
        split; [right; eauto |].
        eexists. split; [rewrite <- app_assoc; reflexivity |]. auto.
      * rewrite (Res_neqb NOK2). discriminate.
Qed.

Context {build : Build}.

Lemma reinsertFragments_shape (oldRange range : Range) (w : World P S)
    (res : Res) (out : option Range) (w' : World P S) :
  reinsertFragments ResOK oldRange range w = Done (res, out) w' ->
  res = ResOK /\ out = Some oldRange
  /\ (criticalChecks = true -> RangesNest oldRange range = true)
  /\ exists eL eR,
       calls w' = calls w ++ eL ++ eR
       /\ fragmentCalls (mkRange (RangeBase oldRange) (RangeBase range)) eL
       /\ fragmentCalls (mkRange (RangeLimit range) (RangeLimit oldRange)) eR.
Proof.
  unfold reinsertFragments.
  unfold bind at 1. unfold RangeInit at 1, bind at 1, AVER at 1.
  destruct (RangeBase oldRange <=? RangeBase range); [| discriminate].
  unfold ret at 1. unfold bind at 1.
  destruct (reinsertBlock DeleteLeftNotFAIL DeleteLeftSecondaryOK ResOK _ w)
    as [res1 w1 |] eqn:El; [| discriminate].
  destruct (reinsertBlock_shape _ _ _ _ _ _ _ El) as (R1 & _ & eL & CL & SL).
  unfold bind at 1. unfold RangeInit at 1, bind at 1, AVER at 1.
  destruct (RangeLimit range <=? RangeLimit oldRange); [| discriminate].
  unfold ret at 1. unfold bind at 1.
  destruct (reinsertBlock DeleteRightNotFAIL DeleteRightSecondaryOK res1 _ w1)
    as [res2 w2 |] eqn:Er; [| discriminate].
  destruct (reinsertBlock_shape _ _ _ _ _ _ _ Er) as (R2 & _ & eR & CR & SR).
  assert (res2 = ResOK) by (destruct R1, R2; congruence). subst res2.
  unfold failoverDeleteReturn. simpl.
  unfold bind, AVER_CRITICAL, AVER, ret.
  intros E.
  assert (Ew : w' = w2 /\ res = ResOK /\ out = Some oldRange
               /\ (criticalChecks = true -> RangesNest oldRange range = true)).
  { destruct criticalChecks, (RangesNest oldRange range);
      inversion E; subst; repeat split; auto; discriminate. }
  destruct Ew as (-> & -> & -> & N). repeat split; auto.
  exists eL, eR. rewrite CR, CL, <- app_assoc. auto.
Qed.

End DeleteShape.



Ltac spill_checked :=
  eexists; split; [rewrite <- ?app_assoc; simpl; reflexivity |];
  apply spillPolicy_checked; simpl; rewrite ?RangesEqual_refl; reflexivity.

(** X3.  The spill policy, in the calls of a run: whenever [failoverInsert]
    or [failoverDelete] inserts a range into the secondary, the call just
    before was the insert of that same range into the primary.  Nothing goes
    to the secondary that the primary has not been offered first. *)
Theorem failover_spill_policy :
  forall P S (LP : Land P) (LS : Land S) (FL : Flush P S) (build : Build)
         (w : World P S) (range : Range),
    (forall a w',
        failoverInsert range w = Done a w' ->
        exists evs, calls w' = calls w ++ evs /\ spillPolicy evs)
    /\ (forall a w',
          failoverDelete range w = Done a w' ->
          exists evs, calls w' = calls w ++ evs /\ spillPolicy evs).
Proof.
  intros P S LP LS FL build w range. split; intros a w'.
  - unfold failoverInsert. unfold bind at 1.
    destruct (AVER_CRITICAL InsertRangeCheck (RangeCheck range) w)
      as [u w0 |] eqn:Ec; [| discriminate].
    apply AVER_CRITICAL_same in Ec. subst w0.
    unfold bind, LandFlush, LandInsert, onChild, ret. simpl.
    destruct (landFlush (primary w) (secondary w)) as [[b p1] s1]. simpl.
    destruct (landInsert range p1) as [[res rr] p2]. simpl.
    destruct ((res != ResOK) && (res != ResFAIL)); simpl.
    + destruct (landInsert range s1) as [[res' rr'] s2].
      intros E; inversion E; subst; simpl. spill_checked.
    + intros E; inversion E; subst; simpl. spill_checked.
  - rewrite failoverDelete_paths.
    destruct (RangeCheck range); [| discriminate].
    destruct (landFlush (primary w) (secondary w)) as [[b p1] s1].
    destruct (landDelete range p1) as [[res oldRange] p2].
    destruct (res == ResFAIL).
    { simpl. destruct (landDelete range s1) as [[res' rr] s2].
      intros E; inversion E; subst; simpl. spill_checked. }
    destruct (res != ResOK).
    2:{ unfold failoverDeleteReturn, bind, AVER_CRITICAL, AVER, ret.
        destruct (res == ResOK), criticalChecks,
          (RangesNest oldRange range);
          intros E; inversion E; subst; simpl; spill_checked. }
    destruct (ResIsAllocFailure res); [| discriminate].
    destruct (landDelete oldRange p2) as [[res' dummyRange] p3].
    destruct (res' != ResOK) eqn:Er.
    { intros E; inversion E; subst; simpl. spill_checked. }
    destruct (RangesEqual oldRange dummyRange); [| discriminate].
    assert (res' = ResOK).
    { destruct (Res_eq_dec res' ResOK) as [-> | N]; auto.
      rewrite (Res_neqb N) in Er. discriminate. }
    subst res'. destruct a as [res0 out]. intros E.
    destruct (reinsertFragments_shape _ _ _ _ _ _ E)
      as (_ & _ & _ & eL & eR & Ec & SL & SR).
    simpl in Ec. rewrite Ec.
    destruct SL as [-> | [-> | ->]], SR as [-> | [-> | ->]]; spill_checked.
Qed.

Lemma failover_spill_policy_witness :
  exists evs,
    [EvFlush; EvDelete Primary (mkRange 40 60);
     EvDelete Primary (mkRange 0 100);
     EvInsert Primary (mkRange 0 40);
     EvInsert Primary (mkRange 60 100);
     EvInsert Secondary (mkRange 60 100)] = calls S3_world ++ evs
    /\ spillPolicy evs.
Proof.
  exact (proj2 (failover_spill_policy _ _ _ _ _ cool S3_world (mkRange 40 60))
           (ResOK, Some (mkRange 0 100))
           (mkWorld (ListLand.mk [mkRange 0 40] 0)
              (ListLand.mk [mkRange 60 100] 0)
              [EvFlush; EvDelete Primary (mkRange 40 60);
               EvDelete Primary (mkRange 0 100);
               EvInsert Primary (mkRange 0 40);
               EvInsert Primary (mkRange 60 100);
               EvInsert Secondary (mkRange 60 100)])
           eq_refl).
Defined.

(** ** The size of a set of ranges depends on its addresses only *)

Lemma freeb_spec (l : list Range) (a : Addr) :
  freeb l a = true <-> freeIn l a.
Proof.
  unfold freeb, freeIn. rewrite existsb_exists.
  split; intros [b [I R]]; exists b; split; auto; destruct b; zbool.
Qed.

Lemma covered_ext (l1 l2 : list Range) :
  (forall a, freeIn l1 a <-> freeIn l2 a) ->
  forall n lo, covered l1 lo n = covered l2 lo n.
Proof.
  intros H. induction n as [| n IH]; intros lo; simpl; [reflexivity |].
  rewrite IH. replace (freeb l2 lo) with (freeb l1 lo); [reflexivity |].
  apply eq_true_iff_eq. rewrite !freeb_spec. apply H.
Qed.

Lemma covered_nil (n : nat) : forall lo, covered [] lo n = 0.
Proof. induction n as [| n IH]; intros lo; simpl; auto. Qed.

Lemma covered_single (b : Range) (n : nat) :
  forall lo,
    covered [b] lo n =
      Z.max 0 (Z.min (RangeLimit b) (lo + Z.of_nat n) - Z.max (RangeBase b) lo).
Proof.
  induction n as [| n IH]; intros lo.
  - simpl. lia.
  - cbn [covered]. rewrite IH, Nat2Z.inj_succ. unfold freeb.
    destruct b as [bb bl]. cbn [existsb RangeBase RangeLimit].
    destruct (Z.leb_spec bb lo), (Z.ltb_spec lo bl); cbn [andb orb]; lia.
Qed.

Lemma covered_cons (b : Range) (l : list Range) (n : nat) :
  Forall (fun b' => RangesOverlap b b' = false) l ->
  forall lo, covered (b :: l) lo n = covered [b] lo n + covered l lo n.
Proof.
  intros F. induction n as [| n IH]; intros lo; cbn [covered];
    [reflexivity |].
  rewrite IH.
  assert (E : (if freeb (b :: l) lo then 1 else 0) =
              (if freeb [b] lo then 1 else 0) + (if freeb l lo then 1 else 0)).
  { destruct (freeb [b] lo) eqn:Eb.
    - assert (Hb : freeb (b :: l) lo = true).
      { apply freeb_spec. apply freeb_spec in Eb.
        destruct Eb as [x [[<- | []] R]]. exists b. simpl. auto. }
      assert (Hl : freeb l lo = false).
      { destruct (freeb l lo) eqn:El; auto. exfalso.
        apply freeb_spec in Eb, El. destruct Eb as [x [[<- | []] R]].
        exact (freeIn_apart F R El). }
      rewrite Hb, Hl. reflexivity.
    - replace (freeb (b :: l) lo) with (freeb l lo); [reflexivity |].
      unfold freeb in *. simpl in *. rewrite orb_false_r in Eb.
      rewrite Eb. reflexivity. }
  lia.
Qed.

Lemma covered_total (l : list Range) (lo : Addr) (n : nat) :
  wfBlocks l ->
  Forall (fun b => lo <= RangeBase b /\ RangeLimit b <= lo + Z.of_nat n) l ->
  covered l lo n = totalSize l.
Proof.
  induction l as [| b l IH]; simpl; intros W B.
  - apply covered_nil.
  - destruct W as (N & F & W). inversion B as [| ? ? [Bl Bh] B']; subst.
    rewrite covered_cons, covered_single, IH; auto.
    unfold RangeNonEmpty, RangeSize in *. lia.
Qed.

Lemma ranges_bounded (l : list Range) :
  exists lo hi,
    lo <= hi /\ Forall (fun b => lo <= RangeBase b /\ RangeLimit b <= hi) l.
Proof.
  induction l as [| b l (lo & hi & L & F)].
  - exists 0, 0. split; [lia | constructor].
  - exists (Z.min lo (RangeBase b)), (Z.max hi (RangeLimit b)).
    split; [lia |]. constructor; [lia |].
    rewrite Forall_forall in *. intros x I. destruct (F x I). lia.
Qed.

(** Two sets of disjoint ranges with the same addresses have the same
    size, however they are cut into ranges. *)
Lemma totalSize_ext (l1 l2 : list Range) :
  wfBlocks l1 -> wfBlocks l2 ->
  (forall a, freeIn l1 a <-> freeIn l2 a) ->
  totalSize l1 = totalSize l2.
Proof.
  intros W1 W2 H.
  destruct (ranges_bounded (l1 ++ l2)) as (lo & hi & L & F).
  apply Forall_app in F as [F1 F2].
  set (n := Z.to_nat (hi - lo)).
  assert (En : lo + Z.of_nat n = hi) by (unfold n; lia).
  rewrite <- (covered_total l1 lo n W1), <- (covered_total l2 lo n W2).
  - apply covered_ext. exact H.
  - rewrite En. exact F2.
  - rewrite En. exact F1.
Qed.

Lemma totalSize_add (l l' : list Range) (r : Range) :
  wfBlocks l -> wfBlocks l' -> RangeNonEmpty r ->
  (forall a, InRange a r -> ~ freeIn l a) ->
  (forall a, freeIn l' a <-> freeIn l a \/ InRange a r) ->
  totalSize l' = totalSize l + RangeSize r.
Proof.
  intros W W' N D H.
  assert (Wr : wfBlocks (r :: l)).
  { simpl. repeat split; auto. apply Forall_forall. intros b I.
    destruct (RangesOverlap r b) eqn:O; auto. exfalso.
    destruct (overlap_true_common N (wfBlocks_nonempty _ _ W I) O)
      as [a [R1 R2]].
    apply (D a R1). exists b; auto. }
  rewrite (totalSize_ext l' (r :: l) W' Wr).
  - simpl. lia.
  - intros a. rewrite H, freeIn_cons. tauto.
Qed.

Lemma totalSize_remove (l l' : list Range) (r : Range) :
  wfBlocks l -> wfBlocks l' -> RangeCheck r = true ->
  (forall a, InRange a r -> freeIn l a) ->
  (forall a, freeIn l' a <-> freeIn l a /\ ~ InRange a r) ->
  totalSize l' = totalSize l - RangeSize r.
Proof.
  intros W W' C In H.
  destruct (RangeIsEmpty r) eqn:E.
  - rewrite (totalSize_ext l' l W' W).
    + destruct r. zbool.
    + intros a. rewrite H. assert (~ InRange a r) by (destruct r; zbool).
      tauto.
  - assert (N : RangeNonEmpty r) by (destruct r; zbool).
    rewrite (totalSize_add l' l r W' W N); [lia | |].
    + intros a R F. apply H in F. tauto.
    + intros a. rewrite H.
      assert (Dec : InRange a r \/ ~ InRange a r) by (unfold InRange; lia).
      pose proof (In a). tauto.
Qed.

(** ** Insert and delete over children that keep the contract *)

Section Runs.

Context {P S : Type} {LP : Land P} {LS : Land S} {FL : Flush P S}.
Context {build : Build}.

(** The children after a run of [failoverInsert]. *)
Lemma failoverInsert_run (w : World P S) (range : Range) (a : Res * Range)
    (w' : World P S) (b : bool) (p1 : P) (s1 : S) (r1 : Res) (rr1 : Range)
    (p2 : P) :
  failoverInsert range w = Done a w' ->
  landFlush (primary w) (secondary w) = (b, p1, s1) ->
  landInsert range p1 = (r1, rr1, p2) ->
  primary w' = p2
  /\ (((r1 = ResOK \/ r1 = ResFAIL) /\ a = (r1, rr1) /\ secondary w' = s1)
      \/ (r1 <> ResOK /\ r1 <> ResFAIL
          /\ exists r2 rr2,
               landInsert range s1 = (r2, rr2, secondary w')
               /\ a = (r2, rr2))).
Proof.
  intros E Ef Ei. revert E.
  unfold failoverInsert. unfold bind at 1.
  destruct (AVER_CRITICAL InsertRangeCheck (RangeCheck range) w)
    as [u w0 |] eqn:Ec; [| discriminate].
  apply AVER_CRITICAL_same in Ec. subst w0.
  unfold bind, LandFlush, LandInsert, onChild, ret. simpl.
  rewrite Ef. simpl. rewrite Ei. simpl.
  destruct (Res_eq_dec r1 ResOK) as [-> | NOK].
  { simpl. intros E; inversion E; subst. simpl. auto 10. }
  destruct (Res_eq_dec r1 ResFAIL) as [-> | NFAIL].
  { simpl. intros E; inversion E; subst. simpl. auto 10. }
  rewrite (Res_neqb NOK), (Res_neqb NFAIL). simpl.
  destruct (landInsert range s1) as [[r2 rr2] s2].
  intros E; inversion E; subst. simpl. split; auto. right. eauto 10.
Qed.

Lemma failoverInsert_total (w : World P S) (range : Range) :
  RangeCheck range = true -> exists a w', failoverInsert range w = Done a w'.
Proof.
  intros C. run_failover. rewrite C.
  destruct criticalChecks; simpl;
    destruct (landFlush (primary w) (secondary w)) as [[b p1] s1]; simpl;
    destruct (landInsert range p1) as [[r1 rr1] p2]; simpl;
    destruct ((r1 != ResOK) && (r1 != ResFAIL)); simpl; eauto;
    destruct (landInsert range s1) as [[r2 rr2] s2]; eauto.
Qed.

End Runs.

Section Contract.

Context {P S : Type} {LP : Land P} {LS : Land S}.
Context {LLP : LandLaws P} {LLS : LandLaws S}.
Context {FL : Flush P S} {FLL : FlushLaws P S}.
Context {build : Build}.

Lemma nonempty_check (range : Range) :
  RangeNonEmpty range -> RangeCheck range = true.
Proof. destruct range. zbool. Qed.

(** The insert changes the free addresses only when it answers [ResOK]. *)
Lemma failoverInsert_free (w : World P S) (range : Range) (res : Res)
    (rr : Range) (w' : World P S) :
  landInv (primary w) -> landInv (secondary w) -> RangeNonEmpty range ->
  failoverInsert range w = Done (res, rr) w' ->
  landInv (primary w') /\ landInv (secondary w')
  /\ (res = ResOK ->
      forall a, failoverFree w' a <-> failoverFree w a \/ InRange a range)
  /\ (res <> ResOK -> forall a, failoverFree w' a <-> failoverFree w a).
Proof.
  intros Ip Is N E.
  destruct (landFlush (primary w) (secondary w)) as [[b p1] s1] eqn:Ef.
  destruct (landInsert range p1) as [[r1 rr1] p2] eqn:Ei.
  destruct (flush_inv _ _ _ _ _ Ip Is Ef) as [Ip1 Is1].
  pose proof (flush_union _ _ _ _ _ Ip Is Ef) as U.
  pose proof (insert_inv _ _ _ _ _ Ip1 N Ei) as Ip2.
  destruct (failoverInsert_run _ _ _ _ _ _ _ _ _ _ E Ef Ei)
    as [Ep [(R1 & Ea & Es) | (NOK & NFAIL & r2 & rr2 & Ei2 & Ea)]];
    inversion Ea; subst res rr; clear Ea.
  - rewrite Ep, Es. split; [exact Ip2 |]. split; [exact Is1 |].
    unfold failoverFree, landFree in *. split.
    + intros ->. intros a. rewrite Ep, Es.
      rewrite (insert_ok _ _ _ _ Ip1 N Ei). rewrite <- U. tauto.
    + intros NOK a. rewrite Ep, Es.
      rewrite (insert_failed _ _ _ _ _ Ip1 N Ei NOK). apply U.
  - pose proof (insert_inv _ _ _ _ _ Is1 N Ei2) as Is2.
    pose proof (insert_failed _ _ _ _ _ Ip1 N Ei NOK) as K.
    rewrite Ep. split; [exact Ip2 |]. split; [exact Is2 |].
    unfold failoverFree, landFree in *. split.
    + intros ->. intros a. rewrite Ep, K.
      rewrite (insert_ok _ _ _ _ Is1 N Ei2). rewrite <- U. tauto.
    + intros NOK2 a. rewrite Ep, K.
      rewrite (insert_failed _ _ _ _ _ Is1 N Ei2 NOK2). apply U.
Qed.

(** The insert of a range none of whose addresses is free succeeds. *)
Lemma failoverInsert_fresh (w : World P S) (range : Range) :
  Consistent w -> NeverExhausted S -> RangeNonEmpty range ->
  (forall a, InRange a range -> ~ failoverFree w a) ->
  exists rr w',
    failoverInsert range w = Done (ResOK, rr) w'
    /\ Consistent w'
    /\ forall a, failoverFree w' a <-> failoverFree w a \/ InRange a range.
Proof.
  intros [Ip Is D] NE N Fresh.
  destruct (failoverInsert_total w range (nonempty_check range N))
    as [[res rr] [w' E]].
  destruct (landFlush (primary w) (secondary w)) as [[b p1] s1] eqn:Ef.
  destruct (landInsert range p1) as [[r1 rr1] p2] eqn:Ei.
  destruct (flush_inv _ _ _ _ _ Ip Is Ef) as [Ip1 Is1].
  pose proof (flush_union _ _ _ _ _ Ip Is Ef) as U.
  pose proof (flush_disjoint _ _ _ _ _ Ip Is Ef D) as D1.
  destruct (failoverInsert_free w range res rr w' Ip Is N E)
    as (Ip' & Is' & Fok & _).
  assert (Fresh1 : forall a, InRange a range ->
                             ~ (landFree p1 a \/ landFree s1 a)).
  { intros a R F. apply U in F. exact (Fresh a R F). }
  assert (R : res = ResOK).
  { destruct (failoverInsert_run _ _ _ _ _ _ _ _ _ _ E Ef Ei)
      as [Ep [(R1 & Ea & Es) | (NOK & NFAIL & r2 & rr2 & Ei2 & Ea)]];
      inversion Ea; subst.
    - destruct R1 as [-> | ->]; auto. exfalso.
      destruct (insert_FAIL _ _ _ _ Ip1 N Ei) as [a [Ra Fa]].
      exact (Fresh1 a Ra (or_introl Fa)).
    - pose proof (NE range s1) as NEs. rewrite Ei2 in NEs. simpl in NEs.
      destruct NEs as [-> | ->]; auto. exfalso.
      destruct (insert_FAIL _ _ _ _ Is1 N Ei2) as [a [Ra Fa]].
      exact (Fresh1 a Ra (or_intror Fa)). }
  subst res. exists rr, w'. split; [exact E |].
  split; [| exact (Fok eq_refl)].
  split; auto. intros a [Fp Fs].
  destruct (failoverInsert_run _ _ _ _ _ _ _ _ _ _ E Ef Ei)
    as [Ep [(R1 & Ea & Es) | (NOK & NFAIL & r2 & rr2 & Ei2 & Ea)]].
  - rewrite Ep in Fp. rewrite Es in Fs. inversion Ea; subst r1.
    apply (insert_ok _ _ _ _ Ip1 N Ei) in Fp as [Fp | Ra].
    + exact (D1 a (conj Fp Fs)).
    + exact (Fresh1 a Ra (or_intror Fs)).
  - rewrite Ep in Fp. inversion Ea; subst r2.
    unfold landFree in Fp.
    rewrite (insert_failed _ _ _ _ _ Ip1 N Ei NOK) in Fp.
    apply (insert_ok _ _ _ _ Is1 N Ei2) in Fs as [Fs | Ra].
    + exact (D1 a (conj Fp Fs)).
    + exact (Fresh1 a Ra (or_introl Fp)).
Qed.

End Contract.

Section ContractDelete.

Context {P S : Type} {LP : Land P} {LS : Land S}.
Context {LLP : LandLaws P} {LLS : LandLaws S}.
Context {FL : Flush P S} {FLL : FlushLaws P S}.
Context {build : Build}.

Lemma recover_consistent (oldRange range : Range) (w : World P S) :
  Consistent w -> NeverExhausted S -> RangeCheck range = true ->
  RangesNest oldRange range = true ->
  (forall a, InRange a oldRange -> ~ failoverFree w a) ->
  Consistent (recover oldRange range w).
Proof.
  intros Cw NE C N Hfree.
  assert (Cl : RangeCheck (mkRange (RangeBase oldRange) (RangeBase range))
               = true) by (destruct oldRange, range; zbool).
  assert (Cr : RangeCheck (mkRange (RangeLimit range) (RangeLimit oldRange))
               = true) by (destruct oldRange, range; zbool).
  unfold recover. simpl.
  set (left := mkRange (RangeBase oldRange) (RangeBase range)) in *.
  set (right := mkRange (RangeLimit range) (RangeLimit oldRange)) in *.
  assert (Hl : forall a, InRange a left -> ~ failoverFree w a).
  { intros a Ra. apply Hfree. subst left. destruct oldRange, range; zbool. }
  destruct (reinsertBlock_ok DeleteLeftNotFAIL DeleteLeftSecondaryOK left w
              Cw (never_exhausted_admits NE) Cl Hl) as (_ & Cw1 & Fl).
  assert (Hr : forall a, InRange a right -> ~ failoverFree (reinsert left w) a).
  { intros a Ra Fa. apply Fl in Fa as [Fa | Fa].
    - apply (Hfree a); auto. subst right. destruct oldRange, range; zbool.
    - subst left right. destruct oldRange, range; zbool. }
  destruct (reinsertBlock_ok DeleteRightNotFAIL DeleteRightSecondaryOK right
              (reinsert left w) Cw1 (never_exhausted_admits NE) Cr Hr)
    as (_ & Cw2 & _).
  exact Cw2.
Qed.

(** The delete keeps the Failover consistent and changes the free addresses
    only when it answers [ResOK]: then the range was free, and is no more. *)
Lemma failoverDelete_free (w : World P S) (range : Range) (res : Res)
    (out : option Range) (w' : World P S) :
  Consistent w -> NeverExhausted S -> RangeCheck range = true ->
  failoverDelete range w = Done (res, out) w' ->
  Consistent w'
  /\ (res = ResOK ->
      (forall a, InRange a range -> failoverFree w a)
      /\ forall a, failoverFree w' a <-> failoverFree w a /\ ~ InRange a range)
  /\ (res <> ResOK -> forall a, failoverFree w' a <-> failoverFree w a).
Proof.
  intros [Ip Is D] NE C.
  rewrite failoverDelete_paths, C.
  destruct (landFlush (primary w) (secondary w)) as [[b p1] s1] eqn:Ef.
  destruct (flush_inv _ _ _ _ _ Ip Is Ef) as [Ip1 Is1].
  pose proof (flush_union _ _ _ _ _ Ip Is Ef) as U.
  pose proof (flush_disjoint _ _ _ _ _ Ip Is Ef D) as D1.
  destruct (landDelete range p1) as [[res1 oldRange] p2] eqn:Ed1.
  pose proof (delete_inv _ _ _ _ _ Ip1 C Ed1) as Ip2.
  destruct (Res_eq_dec res1 ResFAIL) as [-> | NF].
  { (* not in the primary *)
    simpl.
    assert (NOK : ResFAIL <> ResOK) by discriminate.
    pose proof (delete_failed _ _ _ _ _ Ip1 C Ed1 NOK) as K2.
    destruct (landDelete range s1) as [[res' rr] s2] eqn:Ed2.
    pose proof (delete_inv _ _ _ _ _ Is1 C Ed2) as Is2.
    intros E; inversion E; subst res out w'; clear E.
    unfold failoverFree, landFree in *. simpl.
    destruct (Res_eq_dec res' ResOK) as [-> | NOK'].
    - pose proof (delete_ok _ _ _ _ Is1 C Ed2) as Rm.
      assert (NF' : ResOK <> ResFAIL) by discriminate.
      destruct (delete_found _ _ _ _ _ Is1 C Ed2 NF') as [Io N].
      assert (Old : forall a, InRange a range -> freeIn (landRanges s1) a).
      { intros a Ra. exists rr. split; auto. exact (nest_in N Ra). }
      split; [split; simpl; auto |].
      + intros a [Fp Fs]. unfold landFree in *. rewrite K2 in Fp.
        apply Rm in Fs. exact (D1 a (conj Fp (proj1 Fs))).
      + split; [| congruence]. intros _. split.
        * intros a Ra. apply U. right. exact (Old a Ra).
        * intros a. rewrite K2, Rm, <- U.
          pose proof (D1 a) as Da. pose proof (Old a) as Oa.
          unfold landFree in Da. tauto.
    - pose proof (delete_failed _ _ _ _ _ Is1 C Ed2 NOK') as K3.
      split; [split; simpl; auto |].
      + intros a. unfold landFree. rewrite K2, K3. exact (D1 a).
      + split; [congruence |]. intros _ a. rewrite K2, K3. apply U. }
  rewrite (Res_neqb NF).
  destruct (delete_found _ _ _ _ _ Ip1 C Ed1 NF) as [Io N].
  assert (Old : forall a, InRange a oldRange -> landFree p1 a)
    by (intros a Ra; exists oldRange; auto).
  destruct (Res_eq_dec res1 ResOK) as [-> | NOK].
  { (* deleted by the primary *)
    simpl. unfold failoverDeleteReturn. simpl.
    unfold bind, AVER_CRITICAL, AVER, ret. intros E.
    assert (Ew : res = ResOK /\ w' =
              mkWorld p2 s1 (calls w ++ [EvFlush; EvDelete Primary range])).
    { destruct criticalChecks, (RangesNest oldRange range);
        inversion E; subst; auto. }
    destruct Ew as [-> ->]. clear E.
    pose proof (delete_ok _ _ _ _ Ip1 C Ed1) as Rm.
    split; [split; simpl; auto |].
    - intros a [Fp Fs]. apply Rm in Fp. exact (D1 a (conj (proj1 Fp) Fs)).
    - split; [| congruence]. intros _. split.
      + intros a Ra. apply U. left. exact (Old a (nest_in N Ra)).
      + intros a. unfold failoverFree at 1. simpl. unfold landFree at 1.
        rewrite Rm. pose proof (U a) as Ua. pose proof (D1 a) as Da.
        pose proof (Old a) as Oa. pose proof (@nest_in _ _ a N) as Na.
        unfold failoverFree, landFree in *. tauto. }
  rewrite (Res_neqb NOK). simpl.
  destruct (ResIsAllocFailure res1); [| discriminate].
  pose proof (delete_failed _ _ _ _ _ Ip1 C Ed1 NOK) as K2.
  pose proof (wfBlocks_nonempty _ _ (inv_wf _ Ip1) Io) as No.
  assert (Co : RangeCheck oldRange = true) by (destruct oldRange; zbool).
  destruct (landDelete oldRange p2) as [[res' dummyRange] p3] eqn:Ed2.
  pose proof (delete_inv _ _ _ _ _ Ip2 Co Ed2) as Ip3.
  destruct (Res_eq_dec res' ResOK) as [-> | NOK'].
  2:{ (* the whole old range could not be deleted *)
      rewrite (Res_neqb NOK'). simpl.
      intros E; inversion E; subst res out w'; clear E.
      pose proof (delete_failed _ _ _ _ _ Ip2 Co Ed2 NOK') as K3.
      split; [split; simpl; auto |].
      - intros a. unfold landFree. rewrite K3, K2. exact (D1 a).
      - split; [congruence |]. intros _ a.
        unfold failoverFree, landFree. simpl. rewrite K3, K2. apply U. }
  simpl.
  destruct (RangesEqual oldRange dummyRange); [| discriminate].
  pose proof (delete_ok _ _ _ _ Ip2 Co Ed2) as Rm.
  set (w3 := mkWorld p3 s1
               ((calls w ++ [EvFlush; EvDelete Primary range]) ++
                [EvDelete Primary oldRange])).
  assert (Cw3 : Consistent w3).
  { split; simpl; auto. intros a [Fp Fs]. apply Rm in Fp as [Fp _].
    unfold landFree in *. rewrite K2 in Fp. exact (D1 a (conj Fp Fs)). }
  assert (Gone : forall a, InRange a oldRange -> ~ failoverFree w3 a).
  { intros a Ra [Fp | Fs]; simpl in *.
    - apply Rm in Fp. tauto.
    - exact (D1 a (conj (Old a Ra) Fs)). }
  destruct (reinsertFragments_ok oldRange range w3 Cw3
              (never_exhausted_admits NE) C N Gone)
    as [Erun Ffree].
  rewrite Erun. intros E; inversion E; subst res out w'; clear E.
  split; [exact (recover_consistent oldRange range w3 Cw3 NE C N Gone) |].
  split; [| congruence]. intros _. split.
  - intros a Ra. apply U. left. exact (Old a (nest_in N Ra)).
  - intros a. rewrite Ffree. unfold failoverFree at 1. simpl.
    unfold landFree at 1. rewrite Rm, K2.
    pose proof (U a) as Ua. pose proof (D1 a) as Da.
    pose proof (Old a) as Oa. pose proof (@nest_in _ _ a N) as Na.
    assert (Dec : InRange a oldRange \/ ~ InRange a oldRange)
      by (unfold InRange; lia).
    unfold failoverFree, landFree in *. tauto.
Qed.

End ContractDelete.

(** ** Sizes *)

Section Accounting.

Context {P S : Type} {LP : Land P} {LS : Land S}.
Context {LLP : LandLaws P} {LLS : LandLaws S}.
Context {build : Build}.

Lemma failoverFree_app (w : World P S) (a : Addr) :
  freeIn (landRanges (primary w) ++ landRanges (secondary w)) a
  <-> failoverFree w a.
Proof. rewrite freeIn_app. reflexivity. Qed.

Lemma consistent_wf (w : World P S) :
  Consistent w ->
  wfBlocks (landRanges (primary w) ++ landRanges (secondary w)).
Proof.
  intros [Ip Is D].
  pose proof (inv_wf _ Ip) as Wp. pose proof (inv_wf _ Is) as Ws.
  apply wfBlocks_app. repeat split; auto.
  apply Forall_forall. intros b1 I1. apply Forall_forall. intros b2 I2.
  destruct (RangesOverlap b1 b2) eqn:O; auto. exfalso.
  destruct (overlap_true_common (wfBlocks_nonempty _ _ Wp I1)
              (wfBlocks_nonempty _ _ Ws I2) O) as [a [R1 R2]].
  apply (D a). split; [exists b1 | exists b2]; auto.
Qed.

(** The size of a valid Failover is the number of its free addresses. *)
Lemma valid_size (w : World P S) :
  FailoverValid w ->
  failoverSize w =
    totalSize (landRanges (primary w) ++ landRanges (secondary w)).
Proof.
  intros [Cw A]. pose proof (consistent_wf w Cw) as W.
  destruct Cw as [Ip Is D].
  unfold failoverSize, wrap, LandSize.
  rewrite (size_total _ Ip), (size_total _ Is), <- totalSize_app.
  set (l := landRanges (primary w) ++ landRanges (secondary w)) in *.
  assert (B : 0 <= totalSize l <= Z.max 0 (2 ^ wordWidth - 1 - 0)).
  { apply (totalSize_bound (length l)); auto.
    rewrite Forall_forall in *. intros b I. destruct (A b I).
    unfold inAddressSpace in *. lia. }
  destruct (Z.eq_dec (totalSize l) 0) as [-> | NZ].
  - apply Zmod_0_l.
  - apply Z.mod_small. lia.
Qed.

Lemma valid_bounds (w : World P S) (a : Addr) :
  FailoverValid w -> failoverFree w a -> 0 <= a < 2 ^ wordWidth - 1.
Proof.
  intros [_ A] F. apply failoverFree_app in F. destruct F as [b [I R]].
  rewrite Forall_forall in A. destruct (A b I). unfold InRange in R. lia.
Qed.

Lemma valid_of_bounds (w : World P S) :
  Consistent w ->
  (forall a, failoverFree w a -> 0 <= a < 2 ^ wordWidth - 1) ->
  FailoverValid w.
Proof.
  intros Cw B. split; [exact Cw |].
  pose proof (consistent_wf w Cw) as W.
  apply Forall_forall. intros b I.
  pose proof (wfBlocks_nonempty _ _ W I) as N. unfold RangeNonEmpty in N.
  assert (F1 : failoverFree w (RangeBase b)).
  { apply failoverFree_app. exists b. unfold InRange. split; auto; lia. }
  assert (F2 : failoverFree w (RangeLimit b - 1)).
  { apply failoverFree_app. exists b. unfold InRange. split; auto; lia. }
  apply B in F1, F2. unfold inAddressSpace. lia.
Qed.

Context {FL : Flush P S} {FLL : FlushLaws P S}.

Lemma insert_fresh_valid (w : World P S) (range : Range) :
  FailoverValid w -> NeverExhausted S -> RangeNonEmpty range ->
  inAddressSpace range ->
  (forall a, InRange a range -> ~ failoverFree w a) ->
  exists rr w',
    failoverInsert range w = Done (ResOK, rr) w'
    /\ FailoverValid w'
    /\ (forall a, failoverFree w' a <-> failoverFree w a \/ InRange a range)
    /\ failoverSize w' = failoverSize w + RangeSize range.
Proof.
  intros V NE N A Fresh. pose proof V as [Cw _].
  destruct (failoverInsert_fresh w range Cw NE N Fresh)
    as (rr & w' & E & Cw' & F).
  assert (V' : FailoverValid w').
  { apply valid_of_bounds; auto. intros a Fa. apply F in Fa as [Fa | Ra].
    - exact (valid_bounds w a V Fa).
    - unfold inAddressSpace, InRange in *. lia. }
  exists rr, w'. split; [exact E |]. split; [exact V' |].
  split; [exact F |].
  rewrite (valid_size w' V'), (valid_size w V).
  apply totalSize_add; auto using consistent_wf.
  - intros a Ra Fa. apply failoverFree_app in Fa. exact (Fresh a Ra Fa).
  - intros a. rewrite !failoverFree_app. apply F.
Qed.

Lemma delete_valid (w : World P S) (range : Range) (res : Res)
    (out : option Range) (w' : World P S) :
  FailoverValid w -> NeverExhausted S -> RangeCheck range = true ->
  failoverDelete range w = Done (res, out) w' ->
  FailoverValid w'
  /\ (res = ResOK ->
      (forall a, InRange a range -> failoverFree w a)
      /\ (forall a, failoverFree w' a
                    <-> failoverFree w a /\ ~ InRange a range)
      /\ failoverSize w' = failoverSize w - RangeSize range)
  /\ (res <> ResOK ->
      (forall a, failoverFree w' a <-> failoverFree w a)
      /\ failoverSize w' = failoverSize w).
Proof.
  intros V NE C E. pose proof V as [Cw _].
  destruct (failoverDelete_free w range res out w' Cw NE C E)
    as (Cw' & Hok & Hno).
  assert (V' : FailoverValid w').
  { apply valid_of_bounds; auto. intros a Fa.
    apply (valid_bounds w a V).
    destruct (Res_eq_dec res ResOK) as [R | R].
    - apply (proj2 (Hok R)) in Fa. tauto.
    - apply (Hno R) in Fa. exact Fa. }
  split; [exact V' |]. split.
  - intros R. destruct (Hok R) as [In F].
    split; [exact In |]. split; [exact F |].
    rewrite (valid_size w' V'), (valid_size w V).
    apply totalSize_remove; auto using consistent_wf.
    + intros a Ra. apply failoverFree_app. exact (In a Ra).
    + intros a. rewrite !failoverFree_app. apply F.
  - intros R. pose proof (Hno R) as F. split; [exact F |].
    rewrite (valid_size w' V'), (valid_size w V).
    apply totalSize_ext; auto using consistent_wf.
    intros a. rewrite !failoverFree_app. apply F.
Qed.

End Accounting.

(** ** What a client of a valid Failover can rely on *)

Section Client.

Context {P S : Type} {LP : Land P} {LS : Land S}.
Context {LLP : LandLaws P} {LLS : LandLaws S}.
Context {FL : Flush P S} {FLL : FlushLaws P S}.
Context {build : Build}.

Lemma failoverInsert_failed_consistent (w : World P S) (range : Range)
    (res : Res) (rr : Range) (w' : World P S) :
  Consistent w -> RangeNonEmpty range ->
  failoverInsert range w = Done (res, rr) w' -> res <> ResOK ->
  Consistent w'.
Proof.
  intros [Ip Is D] N E NOK.
  destruct (landFlush (primary w) (secondary w)) as [[b p1] s1] eqn:Ef.
  destruct (landInsert range p1) as [[r1 rr1] p2] eqn:Ei.
  destruct (flush_inv _ _ _ _ _ Ip Is Ef) as [Ip1 Is1].
  pose proof (flush_disjoint _ _ _ _ _ Ip Is Ef D) as D1.
  destruct (failoverInsert_free w range res rr w' Ip Is N E)
    as (Ip' & Is' & _ & _).
  split; auto. intros a. unfold landFree.
  destruct (failoverInsert_run _ _ _ _ _ _ _ _ _ _ E Ef Ei)
    as [Ep [(R1 & Ea & Es) | (NOK1 & NFAIL & r2 & rr2 & Ei2 & Ea)]];
    inversion Ea; subst res rr; clear Ea.
  - rewrite Ep, Es, (insert_failed _ _ _ _ _ Ip1 N Ei NOK). exact (D1 a).
  - rewrite Ep, (insert_failed _ _ _ _ _ Ip1 N Ei NOK1),
      (insert_failed _ _ _ _ _ Is1 N Ei2 NOK).
    exact (D1 a).
Qed.

(** When the primary's whole old range is deleted again, the range it hands
    back is the old range. *)
Lemma delete_again_same (p1 p2 p3 : P) (range oldRange dummyRange : Range)
    (res1 : Res) :
  landInv p1 -> RangeCheck range = true ->
  landDelete range p1 = (res1, oldRange, p2) ->
  res1 <> ResFAIL -> res1 <> ResOK ->
  landDelete oldRange p2 = (ResOK, dummyRange, p3) ->
  RangesEqual oldRange dummyRange = true.
Proof.
  intros Ip1 C Ed1 NF NOK Ed2.
  pose proof (delete_inv _ _ _ _ _ Ip1 C Ed1) as Ip2.
  destruct (delete_found _ _ _ _ _ Ip1 C Ed1 NF) as [Io N].
  pose proof (delete_failed _ _ _ _ _ Ip1 C Ed1 NOK) as K2.
  pose proof (wfBlocks_nonempty _ _ (inv_wf _ Ip1) Io) as No.
  assert (Co : RangeCheck oldRange = true) by (destruct oldRange; zbool).
  assert (NF' : ResOK <> ResFAIL) by discriminate.
  destruct (delete_found _ _ _ _ _ Ip2 Co Ed2 NF') as [Id Nd].
  rewrite K2 in Id.
  assert (Ra : InRange (RangeBase oldRange) oldRange).
  { unfold InRange, RangeNonEmpty in *. lia. }
  assert (Eq : dummyRange = oldRange).
  { apply (wfBlocks_unique _ _ _ (RangeBase oldRange) (inv_wf _ Ip1) Id Io);
      auto.
    exact (nest_in Nd Ra). }
  subst dummyRange. apply RangesEqual_refl.
Qed.

End Client.

(** X4.  Freeing a range none of whose addresses is free.  On a valid
    Failover whose secondary never needs fresh memory, [failoverInsert] of a
    non-empty range of machine addresses that is not free returns [ResOK],
    the Failover stays valid, its free addresses are the old ones and those
    of the range, and [failoverSize] grows by the size of the range,
    whichever child took the range. *)
Theorem failoverInsert_fresh_grows :
  forall P S (LP : Land P) (LS : Land S) (LLP : LandLaws P)
         (LLS : LandLaws S) (FL : Flush P S) (FLL : FlushLaws P S)
         (build : Build) (w : World P S) (range : Range),
    FailoverValid w -> NeverExhausted S -> RangeNonEmpty range ->
    inAddressSpace range ->
    (forall a, InRange a range -> ~ failoverFree w a) ->
    exists rr w',
      failoverInsert range w = Done (ResOK, rr) w'
      /\ FailoverValid w'
      /\ (forall a, failoverFree w' a <-> failoverFree w a \/ InRange a range)
      /\ failoverSize w' = failoverSize w + RangeSize range.
Proof.
  intros P S LP LS LLP LLS FL FLL build w range V NE N A Fresh.
  destruct (insert_fresh_valid w range V NE N A Fresh)
    as (rr & w' & E & V' & F & Sz).
  exists rr, w'. auto.
Qed.

Lemma failoverInsert_fresh_grows_witness :
  exists rr w',
    failoverInsert (build := cool) (mkRange 0 10) S1_world
      = Done (ResOK, rr) w'
    /\ FailoverValid (build := cool) w'
    /\ (forall a, failoverFree w' a
                  <-> failoverFree S1_world a \/ InRange a (mkRange 0 10))
    /\ failoverSize (build := cool) w'
       = failoverSize (build := cool) S1_world + RangeSize (mkRange 0 10).
Proof.
  apply (failoverInsert_fresh_grows _ _ _ _ _ _ _ _ cool S1_world
           (mkRange 0 10)).
  - split; [split |]; simpl; auto. intros a [[b [[] _]] _].
  - exact ListLandFacts.never_exhausted.
  - unfold RangeNonEmpty; simpl; lia.
  - unfold inAddressSpace; simpl; lia.
  - intros a _ [[b [[] _]] | [b [[] _]]].
Defined.

(** X5.  [failoverInsert] is all or nothing.  On a valid Failover, an insert
    of a non-empty range that returns [ResOK] adds exactly the addresses of
    the range to the free addresses; an insert that returns anything else
    leaves the free addresses and [failoverSize] as they were and the
    Failover valid, although the flush may have moved ranges between the
    children. *)
Theorem failoverInsert_all_or_nothing :
  forall P S (LP : Land P) (LS : Land S) (LLP : LandLaws P)
         (LLS : LandLaws S) (FL : Flush P S) (FLL : FlushLaws P S)
         (build : Build) (w : World P S) (range : Range) (res : Res)
         (rr : Range) (w' : World P S),
    FailoverValid w -> RangeNonEmpty range ->
    failoverInsert range w = Done (res, rr) w' ->
    (res = ResOK ->
     forall a, failoverFree w' a <-> failoverFree w a \/ InRange a range)
    /\ (res <> ResOK ->
        FailoverValid w'
        /\ (forall a, failoverFree w' a <-> failoverFree w a)
        /\ failoverSize w' = failoverSize w).
Proof.
  intros P S LP LS LLP LLS FL FLL build w range res rr w' V N E.
  pose proof V as [Cw _]. pose proof Cw as [Ip Is _].
  destruct (failoverInsert_free w range res rr w' Ip Is N E)
    as (_ & _ & Fok & Fno).
  split; [exact Fok |]. intros NOK. pose proof (Fno NOK) as F.
  pose proof (failoverInsert_failed_consistent w range res rr w' Cw N E NOK)
    as Cw'.
  assert (V' : FailoverValid w').
  { apply valid_of_bounds; auto. intros a Fa. apply F in Fa.
    exact (valid_bounds w a V Fa). }
  split; [exact V' |]. split; [exact F |].
  rewrite (valid_size w' V'), (valid_size w V).
  apply totalSize_ext; auto using consistent_wf.
  intros a. rewrite !failoverFree_app. apply F.
Qed.

Lemma failoverInsert_all_or_nothing_witness :
  failoverInsert (build := cool) (mkRange 50 60) S3_world
    = Done (ResFAIL, mkRange 50 60) (mkWorld (ListLand.mk [mkRange 0 100] 0)
                                       (ListLand.mk [] 0)
                                       [EvFlush;
                                        EvInsert Primary (mkRange 50 60)])
  /\ (forall a,
        failoverFree (mkWorld (ListLand.mk (bounded := true)
                                 [mkRange 0 100] 0)
                        (ListLand.mk (bounded := false) [] 0)
                        [EvFlush; EvInsert Primary (mkRange 50 60)]) a
        <-> failoverFree S3_world a).
Proof.
  assert (V : FailoverValid (build := cool) S3_world).
  { split; [split |]; simpl.
    - unfold RangeNonEmpty; simpl; repeat split; auto; lia.
    - exact I.
    - intros a [_ [b [[] _]]].
    - unfold inAddressSpace; simpl. repeat constructor; simpl; lia. }
  assert (N : RangeNonEmpty (mkRange 50 60))
    by (unfold RangeNonEmpty; simpl; lia).
  assert (E : failoverInsert (build := cool) (mkRange 50 60) S3_world
              = Done (ResFAIL, mkRange 50 60)
                  (mkWorld (ListLand.mk [mkRange 0 100] 0) (ListLand.mk [] 0)
                     [EvFlush; EvInsert Primary (mkRange 50 60)]))
    by reflexivity.
  split; [exact E |].
  destruct (failoverInsert_all_or_nothing _ _ _ _ _ _ _ _ cool S3_world
              (mkRange 50 60) ResFAIL (mkRange 50 60) _ V N E)
    as [_ H].
  destruct H as (_ & F & _); [discriminate |]. exact F.
Defined.

(** X6.  [failoverDelete] is all or nothing.  On a valid Failover whose
    secondary never needs fresh memory, a delete that returns [ResOK] found
    every address of the range free, removes exactly those addresses, and
    [failoverSize] shrinks by the size of the range, also when the primary
    ran out of memory and the fragments of the old range were inserted
    again; a delete that returns anything else leaves the free addresses and
    [failoverSize] as they were.  The Failover stays valid either way. *)
Theorem failoverDelete_all_or_nothing :
  forall P S (LP : Land P) (LS : Land S) (LLP : LandLaws P)
         (LLS : LandLaws S) (FL : Flush P S) (FLL : FlushLaws P S)
         (build : Build) (w : World P S) (range : Range) (res : Res)
         (out : option Range) (w' : World P S),
    FailoverValid w -> NeverExhausted S -> RangeCheck range = true ->
    failoverDelete range w = Done (res, out) w' ->
    FailoverValid w'
    /\ (res = ResOK ->
        (forall a, InRange a range -> failoverFree w a)
        /\ (forall a, failoverFree w' a
                      <-> failoverFree w a /\ ~ InRange a range)
        /\ failoverSize w' = failoverSize w - RangeSize range)
    /\ (res <> ResOK ->
        (forall a, failoverFree w' a <-> failoverFree w a)
        /\ failoverSize w' = failoverSize w).
Proof.
  intros P S LP LS LLP LLS FL FLL build w range res out w' V NE C E.
  destruct (delete_valid w range res out w' V NE C E) as (V' & Hok & Hno).
  split; [exact V' |]. split; [exact Hok | exact Hno].
Qed.

Lemma failoverDelete_all_or_nothing_witness :
  failoverSize (build := cool)
    (mkWorld (ListLand.mk (bounded := true) [mkRange 0 40] 0)
       (ListLand.mk (bounded := false) [mkRange 60 100] 0)
       [EvFlush; EvDelete Primary (mkRange 40 60);
        EvDelete Primary (mkRange 0 100);
        EvInsert Primary (mkRange 0 40);
        EvInsert Primary (mkRange 60 100);
        EvInsert Secondary (mkRange 60 100)])
  = failoverSize (build := cool) S3_world - RangeSize (mkRange 40 60).
Proof.
  assert (V : FailoverValid (build := cool) S3_world).
  { split; [split |]; simpl.
    - unfold RangeNonEmpty; simpl; repeat split; auto; lia.
    - exact I.
    - intros a [_ [b [[] _]]].
    - unfold inAddressSpace; simpl. repeat constructor; simpl; lia. }
  assert (E : failoverDelete (build := cool) (mkRange 40 60) S3_world
              = Done (ResOK, Some (mkRange 0 100))
                  (mkWorld (ListLand.mk [mkRange 0 40] 0)
                     (ListLand.mk [mkRange 60 100] 0)
                     [EvFlush; EvDelete Primary (mkRange 40 60);
                      EvDelete Primary (mkRange 0 100);
                      EvInsert Primary (mkRange 0 40);
                      EvInsert Primary (mkRange 60 100);
                      EvInsert Secondary (mkRange 60 100)]))
    by reflexivity.
  destruct (failoverDelete_all_or_nothing _ _ _ _ _ _ _ _ cool S3_world
              (mkRange 40 60) ResOK (Some (mkRange 0 100)) _ V
              ListLandFacts.never_exhausted eq_refl E)
    as (_ & H & _).
  destruct (H eq_refl) as (_ & _ & Sz). exact Sz.
Defined.

(** X7.  Freeing a range and allocating it again.  On a valid Failover whose
    secondary never needs fresh memory, after the [failoverInsert] of a
    non-empty range of machine addresses that was not free, a
    [failoverDelete] of the same range that returns [ResOK] gives back the
    free addresses and the [failoverSize] from before the insert, whichever
    children held the range in between. *)
Theorem failoverInsert_then_delete :
  forall P S (LP : Land P) (LS : Land S) (LLP : LandLaws P)
         (LLS : LandLaws S) (FL : Flush P S) (FLL : FlushLaws P S)
         (build : Build) (w : World P S) (range : Range),
    FailoverValid w -> NeverExhausted S -> RangeNonEmpty range ->
    inAddressSpace range ->
    (forall a, InRange a range -> ~ failoverFree w a) ->
    exists rr w1,
      failoverInsert range w = Done (ResOK, rr) w1
      /\ forall out w2,
           failoverDelete range w1 = Done (ResOK, out) w2 ->
           FailoverValid w2
           /\ (forall a, failoverFree w2 a <-> failoverFree w a)
           /\ failoverSize w2 = failoverSize w.
Proof.
  intros P S LP LS LLP LLS FL FLL build w range V NE N A Fresh.
  destruct (insert_fresh_valid w range V NE N A Fresh)
    as (rr & w1 & E1 & V1 & F1 & Sz1).
  exists rr, w1. split; [exact E1 |]. intros out w2 E2.
  destruct (delete_valid w1 range ResOK out w2 V1 NE
              (nonempty_check range N) E2) as (V2 & Hok & _).
  destruct (Hok eq_refl) as (_ & F2 & Sz2).
  split; [exact V2 |]. split; [| lia].
  intros a. rewrite F2, F1. pose proof (Fresh a). tauto.
Qed.

Lemma failoverInsert_then_delete_witness :
  exists rr w1,
    failoverInsert (build := cool) (mkRange 0 10) S1_world
      = Done (ResOK, rr) w1
    /\ forall out w2,
         failoverDelete (build := cool) (mkRange 0 10) w1
           = Done (ResOK, out) w2 ->
         FailoverValid (build := cool) w2
         /\ (forall a, failoverFree w2 a <-> failoverFree S1_world a)
         /\ failoverSize (build := cool) w2
            = failoverSize (build := cool) S1_world.
Proof.
  apply (failoverInsert_then_delete _ _ _ _ _ _ _ _ cool S1_world
           (mkRange 0 10)).
  - split; [split |]; simpl; auto. intros a [[b [[] _]] _].
  - exact ListLandFacts.never_exhausted.
  - unfold RangeNonEmpty; simpl; lia.
  - unfold inAddressSpace; simpl; lia.
  - intros a _ [[b [[] _]] | [b [[] _]]].
Defined.

(** X8.  The assertions of [failoverDelete].  On a consistent Failover whose
    secondary never needs fresh memory, and for a range that passes
    [RangeCheck], the only assertion of [failoverDelete] that can fail is
    [AVER(ResIsAllocFailure(res))]: the delete returns when the primary
    answers [ResOK], [ResFAIL] or an allocation failure, and stops at that
    assertion when the primary fails in any other way. *)
Theorem failoverDelete_asserts :
  forall P S (LP : Land P) (LS : Land S) (LLP : LandLaws P)
         (LLS : LandLaws S) (FL : Flush P S) (FLL : FlushLaws P S)
         (build : Build) (w : World P S) (range : Range) (b : bool) (p1 : P)
         (s1 : S) (res1 : Res) (oldRange : Range) (p2 : P),
    Consistent w -> NeverExhausted S -> RangeCheck range = true ->
    landFlush (primary w) (secondary w) = (b, p1, s1) ->
    landDelete range p1 = (res1, oldRange, p2) ->
    if (res1 == ResOK) || (res1 == ResFAIL) || ResIsAllocFailure res1
    then exists res out w', failoverDelete range w = Done (res, out) w'
    else failoverDelete range w = Abort DeleteAllocFailure.
Proof.
  intros P S LP LS LLP LLS FL FLL build w range b p1 s1 res1 oldRange p2
         [Ip Is D] NE C Ef Ed1.
  rewrite failoverDelete_paths, C, Ef, Ed1.
  destruct (flush_inv _ _ _ _ _ Ip Is Ef) as [Ip1 Is1].
  pose proof (flush_disjoint _ _ _ _ _ Ip Is Ef D) as D1.
  pose proof (delete_inv _ _ _ _ _ Ip1 C Ed1) as Ip2.
  destruct (Res_eq_dec res1 ResFAIL) as [-> | NF].
  { simpl. destruct (landDelete range s1) as [[res' rr] s2]. eauto. }
  rewrite (Res_neqb NF).
  destruct (delete_found _ _ _ _ _ Ip1 C Ed1 NF) as [Io N].
  destruct (Res_eq_dec res1 ResOK) as [-> | NOK].
  { simpl. unfold failoverDeleteReturn. simpl.
    unfold bind, AVER_CRITICAL, AVER, ret. rewrite N.
    destruct criticalChecks; eauto. }
  rewrite (Res_neqb NOK). simpl.
  replace (res1 == ResOK) with false
    by (symmetry; apply Res_eqb_neq; exact NOK).
  replace (res1 == ResFAIL) with false
    by (symmetry; apply Res_eqb_neq; exact NF).
  simpl.
  destruct (ResIsAllocFailure res1); [| reflexivity].
  pose proof (delete_failed _ _ _ _ _ Ip1 C Ed1 NOK) as K2.
  pose proof (wfBlocks_nonempty _ _ (inv_wf _ Ip1) Io) as No.
  assert (Co : RangeCheck oldRange = true) by (destruct oldRange; zbool).
  assert (Old : forall a, InRange a oldRange -> landFree p1 a)
    by (intros a Ra; exists oldRange; auto).
  destruct (landDelete oldRange p2) as [[res' dummyRange] p3] eqn:Ed2.
  pose proof (delete_inv _ _ _ _ _ Ip2 Co Ed2) as Ip3.
  destruct (Res_eq_dec res' ResOK) as [-> | NOK'].
  2:{ rewrite (Res_neqb NOK'). simpl. eauto. }
  simpl.
  rewrite (delete_again_same p1 p2 p3 range oldRange dummyRange res1
             Ip1 C Ed1 NF NOK Ed2).
  pose proof (delete_ok _ _ _ _ Ip2 Co Ed2) as Rm.
  set (w3 := mkWorld p3 s1
               ((calls w ++ [EvFlush; EvDelete Primary range]) ++
                [EvDelete Primary oldRange])).
  assert (Cw3 : Consistent w3).
  { split; simpl; auto. intros a [Fp Fs]. apply Rm in Fp as [Fp _].
    unfold landFree in *. rewrite K2 in Fp. exact (D1 a (conj Fp Fs)). }
  assert (Gone : forall a, InRange a oldRange -> ~ failoverFree w3 a).
  { intros a Ra [Fp | Fs]; simpl in *.
    - apply Rm in Fp. tauto.
    - exact (D1 a (conj (Old a Ra) Fs)). }
  destruct (reinsertFragments_ok oldRange range w3 Cw3
              (never_exhausted_admits NE) C N Gone)
    as [Erun _].
  rewrite Erun. eauto.
Qed.

Lemma failoverDelete_asserts_witness :
  exists res out w',
    failoverDelete (build := cool) (mkRange 40 60) S3_world
      = Done (res, out) w'.
Proof.
  assert (Cw : Consistent S3_world).
  { split; simpl.
    - unfold RangeNonEmpty; simpl; repeat split; auto; lia.
    - exact I.
    - intros a [_ [b [[] _]]]. }
  exact (failoverDelete_asserts _ _ _ _ _ _ _ _ cool S3_world (mkRange 40 60)
           true (primary S3_world) (secondary S3_world)
           ResMEMORY (mkRange 0 100) (primary S3_world)
           Cw ListLandFacts.never_exhausted eq_refl eq_refl eq_refl).
Defined.

(** * The object format of the fork test *)

Section ForktestFacts.

Import Forktest.

Context {platform : Platform}.

(** ** Rounding up *)

Lemma land_clear_low (x k w : Z) :
  0 <= k < w -> 0 <= x < 2 ^ w ->
  Z.land x (Z.lnot (2 ^ k - 1) mod 2 ^ w) = 2 ^ k * (x / 2 ^ k).
Proof.
  intros Hk Hx.
  assert (Hw : 0 <= w) by lia.
  rewrite <- (Z.land_ones _ w Hw), Z.land_assoc.
  replace (2 ^ k - 1) with (Z.ones k) by (rewrite Z.ones_equiv; lia).
  rewrite <- Z.ldiff_land, Z.ldiff_ones_r by lia.
  rewrite Z.shiftl_mul_pow2, Z.shiftr_div_pow2 by lia.
  rewrite Z.land_ones by lia.
  assert (P : 0 < 2 ^ k) by (apply Z.pow_pos_nonneg; lia).
  assert (D : 0 <= x / 2 ^ k) by (apply Z.div_pos; lia).
  pose proof (Z.mul_div_le x (2 ^ k) P) as L.
  rewrite Z.mod_small; nia.
Qed.

Lemma pow2_lt (k w : Z) : 0 <= k < w -> 0 < 2 ^ k < 2 ^ w.
Proof.
  intros H. split; [apply Z.pow_pos_nonneg; lia |].
  apply Z.pow_lt_mono_r; lia.
Qed.
(** [ALIGN_UP] to a power of two, in the arithmetic of [size_t]. *)
Lemma ALIGN_UP_pow2 (a k : Z) :
  0 <= k < sizeBits ->
  ALIGN_UP a (2 ^ k) = 2 ^ k * (size_t (a + 2 ^ k - 1) / 2 ^ k).
Proof.
  intros Hk. pose proof (pow2_lt k sizeBits Hk) as P.
  unfold ALIGN_UP, size_t.
  rewrite Zminus_mod_idemp_l.
  rewrite (Z.mod_small (2 ^ k - 1)) by lia.
  apply land_clear_low; auto.
  apply Z.mod_pos_bound. lia.
Qed.

Lemma ALIGN_UP_exact (a k : Z) :
  0 <= k < sizeBits -> 0 <= a -> a + 2 ^ k - 1 < 2 ^ sizeBits ->
  ALIGN_UP a (2 ^ k) = 2 ^ k * ((a + 2 ^ k - 1) / 2 ^ k).
Proof.
  intros Hk Ha Hb. pose proof (pow2_lt k sizeBits Hk) as P.
  rewrite ALIGN_UP_pow2 by auto. unfold size_t.
  rewrite Z.mod_small by lia. reflexivity.
Qed.

(** A multiple of [2 ^ k] below [2 ^ sizeBits] is at least [2 ^ k] below. *)
Lemma multiple_room (n k : Z) :
  0 <= k < sizeBits -> 2 ^ k * n < 2 ^ sizeBits ->
  2 ^ k * n + 2 ^ k <= 2 ^ sizeBits.
Proof.
  intros Hk Hb. pose proof (pow2_lt k sizeBits Hk) as P.
  assert (E : 2 ^ sizeBits = 2 ^ k * 2 ^ (sizeBits - k)).
  { rewrite <- Z.pow_add_r by lia. f_equal. lia. }
  rewrite E in *. assert (n < 2 ^ (sizeBits - k)) by nia. nia.
Qed.

Lemma ALIGN_UP_multiple (n k : Z) :
  0 <= k < sizeBits -> 0 <= n -> 2 ^ k * n < 2 ^ sizeBits ->
  ALIGN_UP (2 ^ k * n) (2 ^ k) = 2 ^ k * n.
Proof.
  intros Hk Hn Hb. pose proof (pow2_lt k sizeBits Hk) as P.
  pose proof (multiple_room n k Hk Hb) as R.
  rewrite ALIGN_UP_exact by (auto; nia).
  f_equal.
  replace (2 ^ k * n + 2 ^ k - 1) with ((2 ^ k - 1) + n * 2 ^ k) by ring.
  rewrite Z.div_add by lia. rewrite Z.div_small by lia. lia.
Qed.

Lemma ALIGN_UP_zero (k : Z) :
  0 <= k < sizeBits -> ALIGN_UP 0 (2 ^ k) = 0.
Proof.
  intros Hk. pose proof (pow2_lt k sizeBits Hk) as P.
  rewrite ALIGN_UP_pow2 by auto. unfold size_t.
  rewrite Z.mod_small by lia. rewrite Z.div_small by lia. lia.
Qed.

Lemma ALIGN_UP_wraps (a k : Z) :
  0 <= k < sizeBits -> 2 ^ sizeBits - 2 ^ k < a < 2 ^ sizeBits ->
  ALIGN_UP a (2 ^ k) = 0.
Proof.
  intros Hk Ha. pose proof (pow2_lt k sizeBits Hk) as P.
  rewrite ALIGN_UP_pow2 by auto. unfold size_t.
  replace (a + 2 ^ k - 1) with ((a + 2 ^ k - 1 - 2 ^ sizeBits)
                                + 1 * 2 ^ sizeBits) by ring.
  rewrite Z.mod_add by lia. rewrite Z.mod_small by lia.
  rewrite Z.div_small by lia. lia.
Qed.

Lemma ALIGN_UP_bounds (a k : Z) :
  0 <= k < sizeBits -> 0 <= a -> a + 2 ^ k - 1 < 2 ^ sizeBits ->
  a <= ALIGN_UP a (2 ^ k) < a + 2 ^ k.
Proof.
  intros Hk Ha Hb. pose proof (pow2_lt k sizeBits Hk) as P.
  rewrite ALIGN_UP_exact by auto.
  pose proof (Z.div_mod (a + 2 ^ k - 1) (2 ^ k)) as D.
  pose proof (Z.mod_pos_bound (a + 2 ^ k - 1) (2 ^ k)) as B.
  lia.
Qed.

(** ** Bytes *)

Lemma value_bytes_le (n : nat) :
  forall v, value_le (bytes_le n v) = v mod 256 ^ Z.of_nat n.
Proof.
  induction n as [| n IH]; intros v.
  - simpl. rewrite Z.mod_1_r. reflexivity.
  - cbn [bytes_le value_le]. rewrite IH, Nat2Z.inj_succ, Z.pow_succ_r by lia.
    assert (P : 0 < 256 ^ Z.of_nat n) by (apply Z.pow_pos_nonneg; lia).
    symmetry. apply Z.rem_mul_r; lia.
Qed.

Lemma length_bytes_le (n : nat) : forall v, length (bytes_le n v) = n.
Proof. induction n as [| n IH]; intros v; simpl; auto. Qed.

Lemma length_encode (n : nat) (v : Z) : length (encode n v) = n.
Proof.
  unfold encode. destruct bigEndian; rewrite ?length_rev;
    apply length_bytes_le.
Qed.

Lemma decode_encode (n : nat) (v : Z) :
  decode (encode n v) = v mod 256 ^ Z.of_nat n.
Proof.
  unfold decode, encode. destruct bigEndian; rewrite ?rev_involutive;
    apply value_bytes_le.
Qed.

Lemma map_nth_seq (l : list Z) (d : Z) :
  map (fun i => nth i l d) (seq 0 (length l)) = l.
Proof.
  induction l as [| x l IH]; simpl; [reflexivity |].
  rewrite <- seq_shift, map_map. simpl. rewrite IH. reflexivity.
Qed.

Lemma store_outside (h : Heap) (addr n v a : Z) :
  a < addr \/ addr + n <= a -> store h addr n v a = h a.
Proof.
  intros H. unfold store.
  destruct (Z.leb_spec addr a), (Z.ltb_spec a (addr + n)); simpl; auto; lia.
Qed.

Lemma load_ext (h1 h2 : Heap) (addr n : Z) :
  (forall a, addr <= a < addr + n -> h1 a = h2 a) ->
  load h1 addr n = load h2 addr n.
Proof.
  intros H. unfold load. f_equal. apply map_ext_in. intros i I.
  apply in_seq in I. apply H. lia.
Qed.

Lemma load_store_same (h : Heap) (addr n v : Z) :
  0 <= n -> load (store h addr n v) addr n = v mod 256 ^ n.
Proof.
  intros Hn. unfold load.
  replace (256 ^ n) with (256 ^ Z.of_nat (Z.to_nat n))
    by (rewrite Z2Nat.id; auto).
  rewrite <- decode_encode. f_equal.
  rewrite <- (map_nth_seq (encode (Z.to_nat n) v) 0), length_encode.
  apply map_ext_in. intros i I. apply in_seq in I. unfold store.
  destruct (Z.leb_spec addr (addr + Z.of_nat i)),
    (Z.ltb_spec (addr + Z.of_nat i) (addr + n)); simpl; try lia.
  f_equal. lia.
Qed.

Lemma load_store_apart (h : Heap) (addr1 n1 v addr2 n2 : Z) :
  addr2 + n2 <= addr1 \/ addr1 + n1 <= addr2 ->
  load (store h addr1 n1 v) addr2 n2 = load h addr2 n2.
Proof.
  intros H. apply load_ext. intros a Ha. apply store_outside. lia.
Qed.

(** ** The members of an object *)

Lemma platform_shift : 0 <= alignShift < sizeBits.
Proof. unfold sizeBits. exact alignShift_range. Qed.

Lemma word_pow : 256 ^ sizeof_size_t = 2 ^ sizeBits.
Proof.
  unfold sizeBits. pose proof size_t_pos.
  rewrite Z.pow_mul_r by lia. reflexivity.
Qed.

Lemma sizeof_obj_s_bounds : 0 < sizeof_obj_s < 2 ^ sizeBits.
Proof. rewrite obj_s_pow2. apply pow2_lt. exact platform_shift. Qed.

Lemma offsetof_u_pos : 0 < offsetof_u.
Proof. pose proof unsigned_pos. pose proof type_before_u. lia. Qed.

Lemma u_set_u (h : Heap) (obj : Addr) (v : Z) :
  u (set_u obj v h) obj = size_t v.
Proof.
  unfold u, set_u, size_t. pose proof size_t_pos.
  rewrite load_store_same by lia. rewrite word_pow. reflexivity.
Qed.

Lemma type_set_type (h : Heap) (obj : Addr) (t : Z) :
  0 <= t < 256 -> type (set_type obj t h) obj = t.
Proof.
  intros Ht. unfold type, set_type. pose proof unsigned_pos.
  rewrite load_store_same by lia. apply Z.mod_small.
  assert (256 ^ 1 <= 256 ^ sizeof_unsigned)
    by (apply Z.pow_le_mono_r; lia).
  lia.
Qed.

Lemma set_u_outside (h : Heap) (obj : Addr) (v a : Z) :
  a < obj + offsetof_u \/ obj + offsetof_u + sizeof_size_t <= a ->
  set_u obj v h a = h a.
Proof. intros H. unfold set_u. apply store_outside. lia. Qed.

Lemma set_type_outside (h : Heap) (obj : Addr) (t a : Z) :
  a < obj \/ obj + sizeof_unsigned <= a -> set_type obj t h a = h a.
Proof. intros H. unfold set_type. apply store_outside. lia. Qed.

(** A write to a member of the object at [obj] stays inside the object. *)
Lemma set_u_outside_obj (h : Heap) (obj : Addr) (v a : Z) :
  a < obj \/ obj + sizeof_obj_s <= a -> set_u obj v h a = h a.
Proof.
  intros H. apply set_u_outside.
  pose proof offsetof_u_pos. pose proof u_inside. lia.
Qed.

Lemma set_type_outside_obj (h : Heap) (obj : Addr) (t a : Z) :
  a < obj \/ obj + sizeof_obj_s <= a -> set_type obj t h a = h a.
Proof.
  intros H. apply set_type_outside.
  pose proof type_before_u. pose proof u_inside. pose proof size_t_pos.
  lia.
Qed.

Lemma type_set_u (h : Heap) (obj : Addr) (v : Z) :
  type (set_u obj v h) obj = type h obj.
Proof.
  unfold type, set_u. apply load_store_apart.
  pose proof type_before_u. lia.
Qed.

Lemma u_set_type (h : Heap) (obj : Addr) (t : Z) :
  u (set_type obj t h) obj = u h obj.
Proof.
  unfold u, set_type. apply load_store_apart.
  pose proof type_before_u. lia.
Qed.

(** The members of an object are read from its bytes. *)
Lemma members_ext (h1 h2 : Heap) (obj : Addr) :
  (forall a, obj <= a < obj + sizeof_obj_s -> h1 a = h2 a) ->
  type h1 obj = type h2 obj /\ u h1 obj = u h2 obj.
Proof.
  intros H. pose proof offsetof_u_pos. pose proof type_before_u.
  pose proof u_inside. pose proof size_t_pos.
  split; apply load_ext; intros a Ha; apply H; lia.
Qed.

Lemma obj_skip_ext (h1 h2 : Heap) (obj : Addr) :
  type h1 obj = type h2 obj ->
  (type h2 obj = TYPE_PAD -> u h1 obj = u h2 obj) ->
  obj_skip obj h1 = obj_skip obj h2.
Proof.
  intros Ht Hu. unfold obj_skip. rewrite Ht.
  destruct (Z.eqb_spec (type h2 obj) TYPE_PAD) as [E | E];
    [rewrite (Hu E) |]; reflexivity.
Qed.

Lemma obj_fwd_members (h : Heap) (old new : Addr) :
  type (obj_fwd old new h) old = TYPE_FWD
  /\ u (obj_fwd old new h) old = size_t new.
Proof.
  unfold obj_fwd. rewrite type_set_u, u_set_u.
  rewrite type_set_type by (unfold TYPE_FWD; lia). auto.
Qed.

Lemma obj_pad_members (h : Heap) (addr : Addr) (size : Z) :
  type (obj_pad addr size h) addr = TYPE_PAD
  /\ u (obj_pad addr size h) addr = size_t size.
Proof.
  unfold obj_pad. rewrite type_set_u, u_set_u.
  rewrite type_set_type by (unfold TYPE_PAD; lia). auto.
Qed.

(** ** Stepping through objects *)

(** An object that is not padding is [sizeof(obj_s)] long. *)
Lemma obj_skip_plain (h : Heap) (addr : Addr) :
  0 <= addr -> addr + sizeof_obj_s < 2 ^ sizeBits ->
  type h addr <> TYPE_PAD ->
  obj_skip addr h = addr + sizeof_obj_s.
Proof.
  intros Ha Hb Ht. pose proof platform_shift as Hk.
  pose proof (pow2_lt _ _ Hk) as P.
  unfold obj_skip, ALIGNMENT.
  destruct (Z.eqb_spec (type h addr) TYPE_PAD); [contradiction |].
  rewrite obj_s_pow2 in *.
  pose proof (ALIGN_UP_multiple 1 alignShift Hk) as A.
  rewrite Z.mul_1_r in A. rewrite A by lia.
  unfold size_t. apply Z.mod_small. lia.
Qed.








(** An object none of whose bytes has changed reads as before. *)
Lemma untouched_object (h h' : Heap) (o : Addr) :
  (forall a, o <= a < o + sizeof_obj_s -> h' a = h a) ->
  type h' o = type h o /\ u h' o = u h o
  /\ obj_skip o h' = obj_skip o h /\ obj_isfwd o h' = obj_isfwd o h.
Proof.
  intros H. destruct (members_ext h' h o H) as [Mt Mu].
  split; [exact Mt |]. split; [exact Mu |]. split.
  - apply obj_skip_ext; auto.
  - unfold obj_isfwd. rewrite Mt, Mu. reflexivity.
Qed.

Lemma size_t_small (v : Z) : 0 <= v < 2 ^ sizeBits -> size_t v = v.
Proof. intros H. unfold size_t. apply Z.mod_small. exact H. Qed.

Section ScanFacts.

Variable SS : Type.
Variable MPS_FIX12 : SS -> Addr -> Res * Addr * SS.


End ScanFacts.

End ForktestFacts.

Import Forktest.

(** X10.  [ALIGN_UP(a, b)] for a power of two [b], in the arithmetic of
    [size_t]: when [a + b - 1] does not overflow, the result is the least
    multiple of [b] that is not below [a], and it is [a] itself exactly when
    [a] is a multiple of [b]. *)
Theorem ALIGN_UP_least_multiple :
  forall (platform : Platform) (a k : Z),
    0 <= k < sizeBits -> 0 <= a ->
    a + 2 ^ k - 1 < 2 ^ sizeBits ->
    (2 ^ k | ALIGN_UP a (2 ^ k))
    /\ a <= ALIGN_UP a (2 ^ k) < a + 2 ^ k
    /\ (forall m, (2 ^ k | m) -> a <= m -> ALIGN_UP a (2 ^ k) <= m)
    /\ (ALIGN_UP a (2 ^ k) = a <-> (2 ^ k | a)).
Proof.
  intros platform a k Hk Ha Hb.
  pose proof (pow2_lt k sizeBits Hk) as P.
  pose proof (ALIGN_UP_bounds a k Hk Ha Hb) as B.
  pose proof (ALIGN_UP_exact a k Hk Ha Hb) as E.
  set (r := ALIGN_UP a (2 ^ k)) in *.
  set (q := (a + 2 ^ k - 1) / 2 ^ k) in *.
  assert (Dr : (2 ^ k | r)) by (exists q; lia).
  split; [exact Dr |]. split; [exact B |]. split.
  - intros m [j ->] Hm. rewrite E.
    assert (q <= j) by nia. nia.
  - split.
    + intros H. rewrite <- H. exact Dr.
    + intros [j ->]. rewrite E.
      assert (q = j) by nia. nia.
Qed.

Lemma ALIGN_UP_least_multiple_witness :
  (2 ^ 4 | ALIGN_UP (platform := lp64) 17 (2 ^ 4))
  /\ 17 <= ALIGN_UP (platform := lp64) 17 (2 ^ 4)
     < 17 + 2 ^ 4.
Proof.
  assert (Hk : 0 <= 4 < 64) by lia.
  assert (Ha : 0 <= 17) by lia.
  assert (Hb : 17 + 2 ^ 4 - 1 < 2 ^ 64) by lia.
  destruct (ALIGN_UP_least_multiple lp64 17 4 Hk Ha Hb)
    as (D & B & _).
  split; [exact D | exact B].
Defined.

(** X11.  Padding that [obj_skip] cannot step over.  For a padding object
    whose [pad] is 0, or is less than [ALIGNMENT] below the top of [size_t],
    [ALIGN_UP] gives 0 and [obj_skip] returns the address it was given; the
    loop of [obj_scan] then never leaves that object, however many rounds it
    is given. *)
Theorem obj_scan_stuck_on_padding :
  forall (platform : Platform) (SS : Type)
         (MPS_FIX12 : SS -> Addr -> Res * Addr * SS) (k : Z) (h : Heap)
         (base limit : Addr) (ss : SS),
    0 <= k < sizeBits -> sizeof_obj_s = 2 ^ k ->
    0 <= base < 2 ^ sizeBits -> base < limit ->
    type h base = TYPE_PAD ->
    u h base = 0 \/ 2 ^ sizeBits - 2 ^ k < u h base < 2 ^ sizeBits ->
    obj_skip base h = base
    /\ forall fuel, obj_scan SS MPS_FIX12 fuel ss base limit h = None.
Proof.
  intros platform SS MPS_FIX12 k h base limit ss Hk Hs Hb Hl Ht Hu.
  assert (Skip : obj_skip base h = base).
  { unfold obj_skip, ALIGNMENT. rewrite Ht, Z.eqb_refl, Hs.
    assert (A : ALIGN_UP (u h base) (2 ^ k) = 0).
    { destruct Hu as [-> | Hu];
        [apply ALIGN_UP_zero | apply ALIGN_UP_wraps]; auto. }
    rewrite A, Z.add_0_r. unfold size_t. apply Z.mod_small. exact Hb. }
  split; [exact Skip |].
  induction fuel as [| fuel IH]; simpl; [reflexivity |].
  apply Z.ltb_lt in Hl. rewrite Hl, Ht. simpl. rewrite Skip. exact IH.
Qed.

Lemma obj_scan_stuck_on_padding_witness :
  obj_skip (platform := lp64) 0 (obj_pad (platform := lp64) 0 0 (fun _ => 0)) = 0
  /\ forall fuel,
       obj_scan (platform := lp64) unit (fun ss p => (ResOK, p, ss)) fuel
         tt 0 16 (obj_pad (platform := lp64) 0 0 (fun _ => 0)) = None.
Proof.
  apply (obj_scan_stuck_on_padding lp64 unit (fun ss p => (ResOK, p, ss)) 4
           (obj_pad (platform := lp64) 0 0 (fun _ => 0)) 0 16 tt).
  - unfold sizeBits; simpl; lia.
  - reflexivity.
  - unfold sizeBits; simpl; lia.
  - lia.
  - reflexivity.
  - left; reflexivity.
Defined.

(** Objects less than [sizeof(obj_s)] apart share bytes: on LP64 the [u] of
    the object at 4096 is where the object read at 4104 has its [type].
    After [obj_pad(4096, 2)] in a memory of zeros, the object read at 4104,
    which was of [TYPE_REF] and 16 bytes long, is of [TYPE_PAD], and
    [obj_skip] stays on it. *)
Example obj_pad_shared_bytes :
  type (platform := lp64) (fun _ => 0) 4104 = TYPE_REF
  /\ obj_skip (platform := lp64) 4104 (fun _ => 0) = 4120
  /\ type (platform := lp64)
       (obj_pad (platform := lp64) 4096 2 (fun _ => 0)) 4104 = TYPE_PAD
  /\ obj_skip (platform := lp64) 4104
       (obj_pad (platform := lp64) 4096 2 (fun _ => 0)) = 4104.
Proof. repeat split; vm_compute; reflexivity. Qed.

(** X12.  [obj_pad] and [obj_skip].  After [obj_pad(addr, size)],
    [obj_skip(addr)] is [addr] plus [size] rounded up to a multiple of
    [ALIGNMENT]: exactly [addr + size] when [size] is a multiple of
    [ALIGNMENT], and past it otherwise.  The padding object is not forwarded.
    [obj_pad] writes inside the [sizeof(obj_s)] bytes at [addr] only, also
    when [size] is less: no byte outside them changes, and an object that
    shares no byte with them reads as before. *)
Theorem obj_pad_skip :
  forall (platform : Platform) (h : Heap) (addr : Addr) (size : Z),
    0 <= addr -> 0 <= size ->
    addr + size + sizeof_obj_s - 1 < 2 ^ sizeBits ->
    let h' := obj_pad addr size h in
    addr + size <= obj_skip addr h' < addr + size + sizeof_obj_s
    /\ (sizeof_obj_s | obj_skip addr h' - addr)
    /\ (obj_skip addr h' = addr + size <-> (sizeof_obj_s | size))
    /\ obj_isfwd addr h' = NULL
    /\ (forall a, a < addr \/ addr + sizeof_obj_s <= a -> h' a = h a)
    /\ (forall o,
          o + sizeof_obj_s <= addr \/ addr + sizeof_obj_s <= o ->
          type h' o = type h o /\ u h' o = u h o
          /\ obj_skip o h' = obj_skip o h
          /\ obj_isfwd o h' = obj_isfwd o h).
Proof.
  intros platform h addr size Ha Hz Hb h'.
  pose proof platform_shift as Hk. pose proof (pow2_lt _ _ Hk) as P.
  pose proof sizeof_obj_s_bounds as Bs.
  destruct (obj_pad_members h addr size) as [Mt Mu]. fold h' in Mt, Mu.
  rewrite size_t_small in Mu by lia.
  assert (Hb' : size + 2 ^ alignShift - 1 < 2 ^ sizeBits)
    by (rewrite <- obj_s_pow2; lia).
  pose proof (ALIGN_UP_bounds size alignShift Hk Hz Hb') as B.
  pose proof (ALIGN_UP_exact size alignShift Hk Hz Hb') as E.
  assert (Skip : obj_skip addr h' = addr + ALIGN_UP size (2 ^ alignShift)).
  { unfold obj_skip, ALIGNMENT. rewrite Mt, Mu, Z.eqb_refl, obj_s_pow2.
    apply size_t_small. rewrite obj_s_pow2 in Hb. lia. }
  assert (Frame : forall a, a < addr \/ addr + sizeof_obj_s <= a ->
                            h' a = h a).
  { intros a Out. unfold h', obj_pad.
    rewrite set_u_outside_obj, set_type_outside_obj by exact Out.
    reflexivity. }
  rewrite Skip, obj_s_pow2 in *.
  split; [lia |]. split.
  { exists ((size + 2 ^ alignShift - 1) / 2 ^ alignShift). rewrite E. ring. }
  split.
  { split.
    - intros H. exists ((size + 2 ^ alignShift - 1) / 2 ^ alignShift). lia.
    - intros [n ->]. rewrite (Z.mul_comm n).
      rewrite ALIGN_UP_multiple; auto; nia. }
  split.
  { unfold obj_isfwd. rewrite Mt. reflexivity. }
  split; [exact Frame |].
  intros o Apart. apply untouched_object. intros a Hin. apply Frame.
  rewrite obj_s_pow2 in Hin. lia.
Qed.

Lemma obj_pad_skip_witness :
  obj_skip (platform := lp64) 4096
    (obj_pad (platform := lp64) 4096 48 (fun _ => 0)) = 4096 + 48.
Proof.
  assert (Ha : 0 <= 4096) by lia.
  assert (Hz : 0 <= 48) by lia.
  assert (Hb : 4096 + 48 + 16 - 1 < 2 ^ 64) by lia.
  destruct (obj_pad_skip lp64 (fun _ => 0) 4096 48 Ha Hz Hb)
    as (_ & _ & H & _).
  apply H. exists 3. reflexivity.
Defined.

(** X13.  [obj_fwd] and [obj_isfwd].  After [obj_fwd(old, new)],
    [obj_isfwd(old)] is [new] (so a forwarding to [NULL] reads as "not
    forwarded"), and [obj_skip(old)] is [old + sizeof(obj_s)], which is what
    it was for any object that was not padding.  [obj_fwd] writes inside the
    [sizeof(obj_s)] bytes at [old] only: no byte outside them changes, and an
    object that shares no byte with them reads as before.  An object that
    was never forwarded, of type [TYPE_REF] or [TYPE_PAD], reads as [NULL]. *)
Theorem obj_fwd_isfwd :
  forall (platform : Platform) (h : Heap) (old new : Addr),
    0 <= old -> old + sizeof_obj_s < 2 ^ sizeBits ->
    0 <= new < 2 ^ sizeBits ->
    let h' := obj_fwd old new h in
    obj_isfwd old h' = new
    /\ obj_skip old h' = old + sizeof_obj_s
    /\ (type h old <> TYPE_PAD -> obj_skip old h' = obj_skip old h)
    /\ (forall a, a < old \/ old + sizeof_obj_s <= a -> h' a = h a)
    /\ (forall o,
          o + sizeof_obj_s <= old \/ old + sizeof_obj_s <= o ->
          type h' o = type h o /\ u h' o = u h o
          /\ obj_skip o h' = obj_skip o h
          /\ obj_isfwd o h' = obj_isfwd o h)
    /\ (type h old = TYPE_REF \/ type h old = TYPE_PAD ->
        obj_isfwd old h = NULL).
Proof.
  intros platform h old new Ha Hb Hn h'.
  destruct (obj_fwd_members h old new) as [Mt Mu]. fold h' in Mt, Mu.
  rewrite size_t_small in Mu by exact Hn.
  assert (Skip : obj_skip old h' = old + sizeof_obj_s).
  { apply obj_skip_plain; auto. rewrite Mt. discriminate. }
  assert (Frame : forall a, a < old \/ old + sizeof_obj_s <= a ->
                            h' a = h a).
  { intros a Out. unfold h', obj_fwd.
    rewrite set_u_outside_obj, set_type_outside_obj by exact Out.
    reflexivity. }
  split.
  { unfold obj_isfwd. rewrite Mt, Mu. reflexivity. }
  split; [exact Skip |]. split.
  { intros Ht. rewrite Skip. symmetry. apply obj_skip_plain; auto. }
  split; [exact Frame |]. split.
  { intros o Apart. apply untouched_object. intros a Hin. apply Frame.
    lia. }
  intros [Ht | Ht]; unfold obj_isfwd; rewrite Ht; reflexivity.
Qed.

Lemma obj_fwd_isfwd_witness :
  obj_isfwd (platform := lp64) 4096
    (obj_fwd (platform := lp64) 4096 8192 (fun _ => 0)) = 8192
  /\ obj_skip (platform := lp64) 4096
       (obj_fwd (platform := lp64) 4096 8192 (fun _ => 0)) = 4096 + 16.
Proof.
  assert (Ha : 0 <= 4096) by lia.
  assert (Hb : 4096 + 16 < 2 ^ 64) by lia.
  assert (Hn : 0 <= 8192 < 2 ^ 64) by lia.
  destruct (obj_fwd_isfwd lp64 (fun _ => 0) 4096 8192 Ha Hb Hn)
    as (F & K & _).
  split; [exact F | exact K].
Defined.




